(** * smux session core (session.go): a shallow embedding

    The session of superfly/smux multiplexes logical streams over one
    transport and encrypts PSH payloads with a stream cipher.  This file
    embeds [session.go] function by function and states the properties of
    the session, the receive pump, the send serializer and the stream-id
    allocator over that embedding.

    Conventions.
    - Go integers are [Z] with the wrap-around of their width written out
      ([wrap_int32] for the bucket, [wrap_uint32] for stream ids,
      [wrap_int] for [int]).  A byte is a [Z] in [0, 256).
    - Go slices are references into a store of byte arrays ([Mem]); a
      [*Stream] is an address into a store of stream objects, so that the
      stream table, the accept queue and the application share one object.
    - A closed channel used as a signal ([die], [chEncryptionReady]) is a
      [bool]; closing it twice is the Go run-time panic.
    - Goroutines are interleaved at the granularity of the session's own
      critical sections: a call of the API, a tick of a ticker and each of
      the stages of the pump's loop (wait, liveness check, read,
      dispatch, and the offer of a new stream to the accept queue) is one
      step.  Each [select] takes the scheduler's choice among the ready
      cases as an input ([pick]), each timer whether it has fired.  A call
      that cannot proceed is [Blocked] and has not happened yet.
    - The pump enters a new stream in the stream table before it offers it
      to the accept queue, and waits in that [select] with the stream in the
      table and [streamLock] held; this is a position of the pump of its own
      ([PcOffer]).  The other holders of [streamLock] hold it for one update
      or one reading of the table, each of which commutes with what the pump
      does in its [select] (it appends to the accept queue or does
      nothing); their wait for the lock is not modelled, a call is taken at
      the point where it has the lock.
    - What the transport, the cryptographic primitives and the protocol
      constants do is taken as a parameter ([Conn], [Env]); what stream.go,
      frame.go and crypto.go do, which are not among the sources, follows
      the specification and is marked so. *)

From Stdlib Require Import ZArith Lia.
From stdpp Require Import base numbers option list gmap strings.

Local Open Scope Z_scope.

(** ** Machine integers *)

Definition wrap_uint16 (z : Z) : Z := z mod 2 ^ 16.
Definition wrap_uint32 (z : Z) : Z := z mod 2 ^ 32.
Definition wrap_int32 (z : Z) : Z := (z + 2 ^ 31) mod 2 ^ 32 - 2 ^ 31.
(** Go's [int] on a 64-bit platform. *)
Definition wrap_int (z : Z) : Z := (z + 2 ^ 63) mod 2 ^ 64 - 2 ^ 63.

(** [len(x)] of a Go slice, as an [int]. *)
Definition len {A} (l : list A) : Z := Z.of_nat (length l).

(** ** Errors *)

Inductive error : Type :=
| errBrokenPipe
| errEncryptionNotReady
| errNoEncryptionKey
| errBadKeyExchange
| errBadKey
| errInvalidProtocol
| errTimeout
| EOF                               (* io.EOF *)
| ErrUnexpectedEOF                  (* io.ErrUnexpectedEOF *)
| ErrClosedConn                     (* read on a transport closed locally *)
| errTransport (code : Z)           (* any other error value of the transport *)
| KeySizeError (n : Z)              (* aes.KeySizeError *)
| errWrap (e : error) (msg : string). (* errors.Wrap(e, msg) *)

Inductive panic : Type :=
| CloseOfClosedChannel
| NilStreamDereference
| SliceOutOfRange.

(** ** Byte arrays and slices *)

(** The store of byte arrays, by address. *)
Abbreviation Mem := (list (list Z)).

(** A slice header: backing array, offset, length.  The nil slice has
    length 0. *)
Record slice : Type := Slice { sl_arr : nat; sl_off : nat; sl_len : nat }.

Definition nil_slice : slice := Slice 0 0 0.

Definition mem_load (m : Mem) (s : slice) : list Z :=
  take (sl_len s) (drop (sl_off s) (default [] (m !! sl_arr s))).

(** Overwrite [bs] at offset [off] of an array; an array never changes its
    length. *)
Definition splice (off : nat) (bs a : list Z) : list Z :=
  take (length a) (take off a ++ bs ++ drop (off + length bs) a).

Definition mem_write (m : Mem) (arr off : nat) (bs : list Z) : Mem :=
  match m !! arr with
  | Some a => <[arr := splice off bs a]> m
  | None => m
  end.

Definition mem_store (m : Mem) (s : slice) (bs : list Z) : Mem :=
  mem_write m (sl_arr s) (sl_off s) (take (sl_len s) bs).

(** [make([]byte, n)]: a fresh zeroed array; its address is the old size
    of the store. *)
Definition mem_alloc (m : Mem) (bs : list Z) : Mem * nat := (m ++ [bs], length m).

(** [b[lo:hi]] of a slice. *)
Definition subslice (s : slice) (lo hi : nat) : slice :=
  Slice (sl_arr s) (sl_off s + lo) (hi - lo).

(** ** Frames *)

(** Modelled from the spec: the header size of frame.go, which is not among
    the sources; section 3 of the specification fixes it to 8. *)
Definition headerSize : Z := 8.

(** Modelled from the spec: the [Frame] struct of frame.go (section 3:
    version, command, stream id, payload; the length is that of the
    payload slice). *)
Record Frame : Type := mkFrame { ver : Z; cmd : Z; sid : Z; data : slice }.

(** The zero value of [Frame], the named result [f] of [readFrame]. *)
Definition zeroFrame : Frame := mkFrame 0 0 0 nil_slice.

(** Little-endian decoding and encoding (encoding/binary). *)
Definition le_uint16 (b0 b1 : Z) : Z := Z.lor b0 (Z.shiftl b1 8).
Definition le_uint32 (b0 b1 b2 b3 : Z) : Z :=
  Z.lor (Z.lor b0 (Z.shiftl b1 8)) (Z.lor (Z.shiftl b2 16) (Z.shiftl b3 24)).
Definition byte_of (z : Z) : Z := Z.land z 255.
Definition put_uint16 (v : Z) : list Z := [byte_of v; byte_of (Z.shiftr v 8)].
Definition put_uint32 (v : Z) : list Z :=
  [byte_of v; byte_of (Z.shiftr v 8); byte_of (Z.shiftr v 16); byte_of (Z.shiftr v 24)].

(** Modelled from the spec: the accessors of [rawHeader] (frame.go, not
    among the sources), from the wire format of section 6: byte 0 is the
    version, byte 1 the command, bytes 2-3 the little-endian length, bytes
    4-7 the little-endian stream id. *)
Definition hdr_Version (h : list Z) : Z := h !!! 0%nat.
Definition hdr_Cmd (h : list Z) : Z := h !!! 1%nat.
Definition hdr_Length (h : list Z) : Z :=
  wrap_uint16 (le_uint16 (h !!! 2%nat) (h !!! 3%nat)).
Definition hdr_StreamID (h : list Z) : Z :=
  wrap_uint32 (le_uint32 (h !!! 4%nat) (h !!! 5%nat) (h !!! 6%nat) (h !!! 7%nat)).

(** ** What the file takes from its surroundings

    The protocol constants of frame.go (their byte values are not part of
    the sources), the keystream of AES in OFB mode with a zero IV
    (crypto/aes and crypto/cipher), and the opening of a sealed key exchange
    (crypto.go, over NaCl box). *)
Record Env : Type := mkEnv {
  version : Z;
  cmdSYN : Z;
  cmdRST : Z;
  cmdPSH : Z;
  cmdNOP : Z;
  cmdKXR : Z;
  cmdKXS : Z;
  (** [ofb_keystream key i]: byte [i] of the keystream of
      [cipher.NewOFB(aes.NewCipher(key), zero IV)]. *)
  ofb_keystream : list Z -> Z -> Z;
  (** [verifyKeyExchange(priv, payload)]: the session key, or an error. *)
  verifyKeyExchange : list Z -> list Z -> option (list Z);
}.

(** The command constants are distinct bytes: the [switch] of [recvLoop]
    lists them as cases, which Go only compiles for distinct constants. *)
Definition cmds_distinct (E : Env) : Prop :=
  NoDup [cmdNOP E; cmdSYN E; cmdKXR E; cmdKXS E; cmdRST E; cmdPSH E].

(** ** The stream cipher *)

(** A [cipher.Stream] in OFB mode: the key and IV it was made from and the
    number of keystream bytes it has produced. *)
Record cipherStream : Type := mkCipher { ckey : list Z; civ : list Z; cpos : Z }.

(** [aes.BlockSize] zero bytes: [var iv [aes.BlockSize]byte]. *)
Definition zero_iv : list Z := replicate 16 0.

(** The next [n] keystream bytes of a cipher. *)
Definition keystream_from (E : Env) (c : cipherStream) (n : nat) : list Z :=
  map (fun i => ofb_keystream E (ckey c) (cpos c + Z.of_nat i)) (seq 0 n).

Definition xor_bytes (a b : list Z) : list Z := zip_with Z.lxor a b.

(** [stream.XORKeyStream(dst, src)] on the bytes of [src]: the output and
    the advanced cipher. *)
Definition XORKeyStream (E : Env) (c : cipherStream) (src : list Z)
  : list Z * cipherStream :=
  (xor_bytes src (keystream_from E c (length src)),
   mkCipher (ckey c) (civ c) (cpos c + len src)).

(** ** Streams *)

(** Modelled from the spec: the [Stream] struct of stream.go, which is not
    among the sources (section 3: sid, a FIFO buffer of received payloads,
    an RST flag, a closed flag). *)
Record Stream : Type := mkStream {
  id : Z;
  frameSize : Z;
  buffer : list Z;
  rstflag : bool;
  dieflag : bool;
}.

(** Modelled from the spec: [newStream] of stream.go (a stream starts open
    and empty). *)
Definition newStream (sid frameSize : Z) : Stream :=
  mkStream sid frameSize [] false false.

(** Modelled from the spec: [pushBytes] of stream.go appends the payload
    to the FIFO buffer (section 4.D, PSH: append to the stream's buffer). *)
Definition pushBytes (st : Stream) (bs : list Z) : Stream :=
  mkStream (id st) (frameSize st) (buffer st ++ bs) (rstflag st) (dieflag st).

(** Modelled from the spec: [recycleTokens] of stream.go returns the
    residual, the bytes pushed and not yet read, and empties the buffer
    (section 4.C, token recycling). *)
Definition recycleTokens (st : Stream) : Z * Stream :=
  (len (buffer st), mkStream (id st) (frameSize st) [] (rstflag st) (dieflag st)).

(** Modelled from the spec: [markRST] of stream.go sets the RST flag. *)
Definition markRST (st : Stream) : Stream :=
  mkStream (id st) (frameSize st) (buffer st) true (dieflag st).

(** Modelled from the spec: [sessionClose] of stream.go signals closure to
    the stream (section 3: all existing streams observe closure). *)
Definition sessionClose (st : Stream) : Stream :=
  mkStream (id st) (frameSize st) (buffer st) (rstflag st) true.

(** ** Configuration and transport *)

Record Config : Type := mkConfig {
  MaxFrameSize : Z;
  MaxReceiveBuffer : Z;
  ServerPrivateKey : list Z;
  ServerPublicKey : list Z;
}.

(** The transport, an [io.ReadWriteCloser]: the bytes the peer sends (their
    end is end-of-file), the bytes written so far, how [Write] answers a
    buffer (bytes accepted and error), how [Close] answers, and whether it
    was closed locally. *)
Record Conn : Type := mkConn {
  rx : list Z;
  tx : list Z;
  write_answer : list Z -> Z * option error;
  close_answer : option error;
  conn_closed : bool;
}.

(** [io.ReadFull(conn, buf[:n])]: the bytes read, the error, the transport
    afterwards. *)
Definition ReadFull (c : Conn) (n : nat) : list Z * option error * Conn :=
  if conn_closed c then ([], Some ErrClosedConn, c)
  else if decide (n <= length (rx c))%nat then
    (take n (rx c), None,
     mkConn (drop n (rx c)) (tx c) (write_answer c) (close_answer c) (conn_closed c))
  else
    (rx c, Some (if decide (rx c = []) then EOF else ErrUnexpectedEOF),
     mkConn [] (tx c) (write_answer c) (close_answer c) (conn_closed c)).

(** [conn.Write(buf)]: the transport's answer; the bytes it accepted are
    appended to what was written. *)
Definition conn_Write (c : Conn) (buf : list Z) : Z * option error * Conn :=
  let '(n, err) := write_answer c buf in
  (n, err,
   mkConn (rx c) (tx c ++ take (Z.to_nat n) buf) (write_answer c) (close_answer c)
          (conn_closed c)).

(** [conn.Close()]. *)
Definition conn_Close (c : Conn) : option error * Conn :=
  (close_answer c, mkConn (rx c) (tx c) (write_answer c) (close_answer c) true).

(** ** The session *)

(** The [Session] struct.  Locks and condition variables are no fields
    here: the one lock held across a wait is [streamLock], by the pump in
    the [select] of its SYN case, which is the position [PcOffer] of the
    pump.  [writes] is an unbuffered channel and the accept deadline a
    timer, both inputs of the operations that use them. *)
Record Session : Type := mkSession {
  conn : Conn;
  config : Config;
  nextStreamID : Z;               (* uint32 *)
  bucket : Z;                     (* int32 *)
  streams : gmap Z nat;           (* map[uint32]*Stream *)
  die : bool;                     (* chan struct{}: closed? *)
  chAccepts : list nat;           (* chan *Stream, buffered *)
  dataReady : Z;                  (* int32 *)
  client : bool;
  encrypted : bool;
  chEncryptionReady : bool;       (* chan struct{}: closed? *)
  encryptionReady : Z;            (* int32 *)
  cryptStream : option cipherStream;  (* *cipher.Stream *)
  encryptionKey : option (list Z);    (* *[32]byte *)
}.

Definition set_conn (v : Conn) (s : Session) : Session :=
  mkSession v (config s) (nextStreamID s) (bucket s) (streams s) (die s) (chAccepts s)
    (dataReady s) (client s) (encrypted s) (chEncryptionReady s) (encryptionReady s)
    (cryptStream s) (encryptionKey s).
Definition set_nextStreamID (v : Z) (s : Session) : Session :=
  mkSession (conn s) (config s) v (bucket s) (streams s) (die s) (chAccepts s)
    (dataReady s) (client s) (encrypted s) (chEncryptionReady s) (encryptionReady s)
    (cryptStream s) (encryptionKey s).
Definition set_bucket (v : Z) (s : Session) : Session :=
  mkSession (conn s) (config s) (nextStreamID s) v (streams s) (die s) (chAccepts s)
    (dataReady s) (client s) (encrypted s) (chEncryptionReady s) (encryptionReady s)
    (cryptStream s) (encryptionKey s).
Definition set_streams (v : gmap Z nat) (s : Session) : Session :=
  mkSession (conn s) (config s) (nextStreamID s) (bucket s) v (die s) (chAccepts s)
    (dataReady s) (client s) (encrypted s) (chEncryptionReady s) (encryptionReady s)
    (cryptStream s) (encryptionKey s).
Definition set_die (v : bool) (s : Session) : Session :=
  mkSession (conn s) (config s) (nextStreamID s) (bucket s) (streams s) v (chAccepts s)
    (dataReady s) (client s) (encrypted s) (chEncryptionReady s) (encryptionReady s)
    (cryptStream s) (encryptionKey s).
Definition set_chAccepts (v : list nat) (s : Session) : Session :=
  mkSession (conn s) (config s) (nextStreamID s) (bucket s) (streams s) (die s) v
    (dataReady s) (client s) (encrypted s) (chEncryptionReady s) (encryptionReady s)
    (cryptStream s) (encryptionKey s).
Definition set_dataReady (v : Z) (s : Session) : Session :=
  mkSession (conn s) (config s) (nextStreamID s) (bucket s) (streams s) (die s) (chAccepts s)
    v (client s) (encrypted s) (chEncryptionReady s) (encryptionReady s)
    (cryptStream s) (encryptionKey s).
Definition set_chEncryptionReady (v : bool) (s : Session) : Session :=
  mkSession (conn s) (config s) (nextStreamID s) (bucket s) (streams s) (die s) (chAccepts s)
    (dataReady s) (client s) (encrypted s) v (encryptionReady s)
    (cryptStream s) (encryptionKey s).
Definition set_encryptionReady (v : Z) (s : Session) : Session :=
  mkSession (conn s) (config s) (nextStreamID s) (bucket s) (streams s) (die s) (chAccepts s)
    (dataReady s) (client s) (encrypted s) (chEncryptionReady s) v
    (cryptStream s) (encryptionKey s).
Definition set_cryptStream (v : option cipherStream) (s : Session) : Session :=
  mkSession (conn s) (config s) (nextStreamID s) (bucket s) (streams s) (die s) (chAccepts s)
    (dataReady s) (client s) (encrypted s) (chEncryptionReady s) (encryptionReady s)
    v (encryptionKey s).
Definition set_encryptionKey (v : option (list Z)) (s : Session) : Session :=
  mkSession (conn s) (config s) (nextStreamID s) (bucket s) (streams s) (die s) (chAccepts s)
    (dataReady s) (client s) (encrypted s) (chEncryptionReady s) (encryptionReady s)
    (cryptStream s) v.

(** Where the receive pump stands in [recvLoop]. *)
Inductive pc : Type :=
| PcWait                 (* the wait on the bucket, lines 269-273 *)
| PcAlive                (* the [IsClosed] check, line 275 *)
| PcRead                 (* about to call [readFrame], line 279 *)
| PcDispatch (f : Frame) (* the [switch] on the frame read, line 282 *)
| PcOffer (f : Frame) (p : nat)
                         (* in the [select] of the SYN case, lines 289-292,
                            with stream [p] in the table and [streamLock]
                            held *)
| PcExit.                (* returned *)

(** The session together with what it points into: the stream objects, the
    byte arrays, the pump's receive buffer and position, whether the
    handshake driver [exchangeKeys] is still to run, and the frame the pump
    read last. *)
Record World : Type := mkWorld {
  sess : Session;
  heap : list Stream;
  mem : list (list Z);
  rbuf : nat;
  pump : pc;
  driver : bool;
  lastFrame : option Frame;
}.

Definition set_sess (v : Session) (w : World) : World :=
  mkWorld v (heap w) (mem w) (rbuf w) (pump w) (driver w) (lastFrame w).
Definition set_heap (v : list Stream) (w : World) : World :=
  mkWorld (sess w) v (mem w) (rbuf w) (pump w) (driver w) (lastFrame w).
Definition set_mem (v : list (list Z)) (w : World) : World :=
  mkWorld (sess w) (heap w) v (rbuf w) (pump w) (driver w) (lastFrame w).
Definition set_pump (v : pc) (w : World) : World :=
  mkWorld (sess w) (heap w) (mem w) (rbuf w) v (driver w) (lastFrame w).
Definition set_driver (v : bool) (w : World) : World :=
  mkWorld (sess w) (heap w) (mem w) (rbuf w) (pump w) v (lastFrame w).
Definition set_lastFrame (v : option Frame) (w : World) : World :=
  mkWorld (sess w) (heap w) (mem w) (rbuf w) (pump w) (driver w) v.

(** Update of the session inside the world. *)
Definition upd_sess (f : Session -> Session) (w : World) : World :=
  set_sess (f (sess w)) w.

(** What a call does: it returns, it blocks (nothing has happened yet), or
    the Go run time panics. *)
Inductive outcome (A : Type) : Type :=
| Ret (a : A) (w : World)
| Blocked
| Crash (p : panic).
Arguments Ret {A} a w.
Arguments Blocked {A}.
Arguments Crash {A} p.

(** A [select] over cases of which [ready] are ready: the index of the case
    the scheduler runs, [None] when no case is ready. *)
Definition select_ready (ready : list bool) (pick : nat) : option nat :=
  let idx := filter (fun i => ready !! i = Some true) (seq 0 (length ready)) in
  idx !! (pick mod length idx)%nat.

Definition defaultAcceptBacklog : Z := 1024.

(** The size of the receive buffer and of a pooled send buffer, and
    [make([]byte, (1<<16)+headerSize)]. *)
Definition bufferSize : Z := 2 ^ 16 + headerSize.
Definition zeroBuffer : list Z := replicate (Z.to_nat bufferSize) 0.

(** ** The operations of session.go *)

Section Operations.

Variable E : Env.

(** Modelled from the spec: [newFrame], [newKXRFrame] and [newKXSFrame] of
    frame.go, which is not among the sources: a frame of the protocol
    version with the given command; SYN, RST and NOP carry no payload, KXR
    and KXS carry the sealed secret on stream 0 (section 3). *)
Definition newFrame (c sid : Z) : Frame := mkFrame (version E) c sid nil_slice.
Definition newKXRFrame (d : slice) : Frame := mkFrame (version E) (cmdKXR E) 0 d.
Definition newKXSFrame (d : slice) : Frame := mkFrame (version E) (cmdKXS E) 0 d.

(** Modelled from the spec: [encrypt] and [decrypt] of crypto.go, which is
    not among the sources.  Section 4.B: an in-place XOR against the
    keystream of the session's cipher, the same operation in both
    directions, under the cipher's lock; section 7: without an installed
    key the call fails with NoEncryptionKey.  The cipher is the one the
    session holds in [cryptStream]. *)
Definition encrypt (w : World) (dst src : slice) : option error * World :=
  match cryptStream (sess w) with
  | None => (Some errNoEncryptionKey, w)
  | Some c =>
      let '(out, c') := XORKeyStream E c (mem_load (mem w) src) in
      (None, set_mem (mem_store (mem w) dst out)
               (upd_sess (set_cryptStream (Some c')) w))
  end.

Definition decrypt (w : World) (dst src : slice) : option error * World :=
  encrypt w dst src.

(** [newSession]: the session and the goroutines it starts.  The pump's
    buffer is allocated when [recvLoop] starts; [exchangeKeys] is started
    for an encrypted client only. *)
Definition newSession (cfg : Config) (c : Conn) (enc cl : bool) : World :=
  let s := mkSession c cfg (if cl then 1 else 2) (wrap_int32 (MaxReceiveBuffer cfg))
             ∅ false [] 0 cl enc false 0 None None in
  let '(m, b) := mem_alloc [] zeroBuffer in
  mkWorld s [] m b PcWait (cl && enc) None.

Definition IsClosed (s : Session) : bool := die s.

(** [requireEncryption]: [expired] tells whether the handshake ticker has
    fired. *)
Definition requireEncryption (s : Session) (expired : bool) (pick : nat) : option bool :=
  if encrypted s then
    match select_ready [chEncryptionReady s; expired] pick with
    | Some O => Some true
    | Some _ => Some false
    | None => None
    end
  else Some true.

(** [setEncryptionStream]: [aes.NewCipher] accepts keys of 16, 24 or 32
    bytes; the cipher starts at the head of its keystream. *)
Definition setEncryptionStream (key : list Z) (w : World) : option error * World :=
  if bool_decide (length key ∈ [16; 24; 32]%nat) then
    (None, upd_sess (fun s => set_encryptionKey (Some key)
                      (set_cryptStream (Some (mkCipher key zero_iv 0)) s)) w)
  else (Some (KeySizeError (len key)), w).

(** One request served by [sendLoop]: header and payload go to a pooled
    buffer, of which [buf[:headerSize+len]] is written to the transport. *)
Definition frame_bytes (m : list (list Z)) (f : Frame) : list Z :=
  [ver f; cmd f] ++ put_uint16 (wrap_uint16 (Z.of_nat (sl_len (data f))))
  ++ put_uint32 (sid f) ++ mem_load m (data f).

Definition sendLoop_serve (w : World) (f : Frame) : outcome (Z * option error) :=
  if decide (headerSize + Z.of_nat (sl_len (data f)) <= bufferSize) then
    let '(n, err, c') := conn_Write (conn (sess w)) (frame_bytes (mem w) f) in
    let n := wrap_int (n - headerSize) in
    let n := if decide (n < 0) then 0 else n in
    Ret (n, err) (upd_sess (set_conn c') w)
  else Crash SliceOutOfRange.

(** [writeFrame]: the request is handed to [sendLoop] over the unbuffered
    channel [writes] and the caller waits for its result; once [die] is
    closed the [select] may take either case. *)
Definition writeFrame (w : World) (f : Frame) (pick : nat) : outcome (Z * option error) :=
  let '(err, w1) :=
    if encrypted (sess w) && bool_decide (cmd f = cmdPSH E)
    then encrypt w (data f) (data f) else (None, w) in
  match err with
  | Some e => Ret (0, Some e) w1
  | None =>
      match select_ready [die (sess w1); true] pick with
      | Some O => Ret (0, Some errBrokenPipe) w1
      | Some _ => sendLoop_serve w1 f
      | None => Blocked
      end
  end.

(** [OpenStream]: the stream (its address) and the error. *)
Definition OpenStream (w : World) (expired : bool) (pick1 pick2 : nat)
  : outcome (option nat * option error) :=
  if IsClosed (sess w) then Ret (None, Some errBrokenPipe) w
  else match requireEncryption (sess w) expired pick1 with
  | None => Blocked
  | Some false => Ret (None, Some errEncryptionNotReady) w
  | Some true =>
      let sid := wrap_uint32 (nextStreamID (sess w) + 2) in
      let w1 := upd_sess (set_nextStreamID sid) w in
      let p := length (heap w1) in
      let w2 := set_heap (heap w1 ++ [newStream sid (MaxFrameSize (config (sess w1)))]) w1 in
      match writeFrame w2 (newFrame (cmdSYN E) sid) pick2 with
      | Ret (_, Some err) w3 => Ret (None, Some (errWrap err "writeFrame")) w3
      | Ret (_, None) w3 =>
          Ret (Some p, None) (upd_sess (fun s => set_streams (<[sid := p]> (streams s)) s) w3)
      | Blocked => Blocked
      | Crash q => Crash q
      end
  end.

(** [AcceptStream]: [fired] tells whether the deadline timer has fired
    (never, without a deadline). *)
Definition AcceptStream (w : World) (expired fired : bool) (pick1 pick2 : nat)
  : outcome (option nat * option error) :=
  match requireEncryption (sess w) expired pick1 with
  | None => Blocked
  | Some false => Ret (None, Some errEncryptionNotReady) w
  | Some true =>
      match select_ready [bool_decide (chAccepts (sess w) ≠ []); fired; die (sess w)] pick2,
            chAccepts (sess w) with
      | Some O, p :: q => Ret (Some p, None) (upd_sess (set_chAccepts q) w)
      | Some O, [] => Blocked
      | Some (S O), _ => Ret (None, Some errTimeout) w
      | Some _, _ => Ret (None, Some errBrokenPipe) w
      | None, _ => Blocked
      end
  end.

(** [Close]: every stream of the table has [sessionClose] called on it. *)
Definition Close (w : World) : option error * World :=
  if die (sess w) then (Some errBrokenPipe, w)
  else
    let h := map_fold (fun (_ : Z) (p : nat) (h : list Stream) => alter sessionClose p h)
               (heap w) (streams (sess w)) in
    let '(err, c') := conn_Close (conn (sess w)) in
    (err, set_heap h (upd_sess (fun s => set_conn c' (set_die true s)) w)).

(** [NumStreams]: the value returned, read under [streamLock] on an open
    session. *)
Definition NumStreams (s : Session) : Z :=
  if IsClosed s then 0 else Z.of_nat (size (streams s)).

(** [streamClosed]: [s.streams[sid]] of an id that is not in the table is
    the nil stream, whose buffer cannot be reached. *)
Definition streamClosed (w : World) (sid : Z) : outcome unit :=
  match streams (sess w) !! sid ≫= fun p => (fun st => (p, st)) <$> heap w !! p with
  | None => Crash NilStreamDereference
  | Some (p, st) =>
      let '(n, st') := recycleTokens st in
      let b := if decide (n > 0)
               then wrap_int32 (bucket (sess w) + wrap_int32 n)
               else bucket (sess w) in
      Ret tt (set_heap (<[p := st']> (heap w))
                (upd_sess (fun s => set_streams (delete sid (streams s)) (set_bucket b s)) w))
  end.

Definition returnTokens (w : World) (n : Z) : World :=
  upd_sess (fun s => set_bucket (wrap_int32 (bucket s + wrap_int32 n)) s) w.

(** [readFrame]: header and payload are read into [buffer]; [dec] is the
    header just read into [buffer[:headerSize]].  [dec.Length()] is a
    [uint16], so the upper bound [headerSize+length] of the payload's slice
    is computed in 16 bits: when it wraps it is below [headerSize] and the
    slice expression panics, before anything of the payload is read.  The
    bound is otherwise within the capacity [(1<<16)+headerSize] of the
    pump's buffer. *)
Definition readFrame (w : World) (buffer : nat) : outcome (Frame * option error) :=
  let '(dec, err, c1) := ReadFull (conn (sess w)) (Z.to_nat headerSize) in
  let w1 := set_mem (mem_write (mem w) buffer 0 dec) (upd_sess (set_conn c1) w) in
  match err with
  | Some e => Ret (zeroFrame, Some (errWrap e "readFrame")) w1
  | None =>
      if decide (hdr_Version dec ≠ version E)
      then Ret (zeroFrame, Some errInvalidProtocol) w1
      else
        let f := mkFrame (hdr_Version dec) (hdr_Cmd dec) (hdr_StreamID dec) nil_slice in
        let length := hdr_Length dec in
        if decide (length > 0) then
          let high := wrap_uint16 (headerSize + length) in
          if decide (high < headerSize) then Crash SliceOutOfRange
          else
            let n := Z.to_nat (high - headerSize) in
            let '(body, err, c2) := ReadFull c1 n in
            let w2 := set_mem (mem_write (mem w1) buffer (Z.to_nat headerSize) body)
                        (upd_sess (set_conn c2) w1) in
            match err with
            | Some e => Ret (f, Some (errWrap e "readFrame")) w2
            | None =>
                let f := mkFrame (ver f) (cmd f) (sid f)
                           (Slice buffer (Z.to_nat headerSize) n) in
                if encrypted (sess w2) && bool_decide (cmd f = cmdPSH E) then
                  match decrypt w2 (data f) (data f) with
                  | (Some e, w3) => Ret (f, Some (errWrap e "readFrame")) w3
                  | (None, w3) => Ret (f, None) w3
                  end
                else Ret (f, None) w2
            end
        else Ret (f, None) w1
  end.

(** [close(s.chEncryptionReady)]. *)
Definition close_chEncryptionReady (w : World) : outcome unit :=
  if chEncryptionReady (sess w) then Crash CloseOfClosedChannel
  else Ret tt (upd_sess (set_chEncryptionReady true) w).

(** The pump goes round its loop, or returns. *)
Definition next (w : World) : outcome unit := Ret tt (set_pump PcWait w).
Definition leave (w : World) : outcome unit := Ret tt (set_pump PcExit w).

(** The [select] of the SYN case: the stream [p], already in the table, is
    offered to the accept queue; while neither the queue has room nor the
    session is dead the [select] waits. *)
Definition offer (w : World) (p : nat) (pick : nat) : outcome unit :=
  let s := sess w in
  match select_ready [bool_decide (len (chAccepts s) < defaultAcceptBacklog); die s] pick with
  | Some O => next (upd_sess (fun s => set_chAccepts (chAccepts s ++ [p]) s) w)
  | Some _ => next w
  | None => Blocked
  end.

(** The [switch f.cmd] of [recvLoop], case by case in the order of the
    source.  In the SYN case the stream is entered in the table and then
    offered to the accept queue; when the [select] has to wait, the pump
    stands in it, at [PcOffer], with the stream in the table. *)
Definition dispatch (w : World) (f : Frame) (pick : nat) : outcome unit :=
  let s := sess w in
  if decide (cmd f = cmdNOP E) then next w
  else if decide (cmd f = cmdSYN E) then
    match streams s !! sid f with
    | Some _ => next w
    | None =>
        let p := length (heap w) in
        let w1 := set_heap (heap w ++ [newStream (sid f) (MaxFrameSize (config s))])
                    (upd_sess (fun s => set_streams (<[sid f := p]> (streams s)) s) w) in
        match offer w1 p pick with
        | Blocked => Ret tt (set_pump (PcOffer f p) w1)
        | o => o
        end
    end
  else if decide (cmd f = cmdKXR E) then
    if negb (client s) && bool_decide (encryptionReady s = 0) then
      let w1 := upd_sess (set_encryptionReady 1) w in
      match verifyKeyExchange E (ServerPrivateKey (config s)) (mem_load (mem w1) (data f)) with
      | None => leave (Close w1).2
      | Some key =>
          let w2 := (setEncryptionStream key w1).2 in
          match writeFrame w2 (newKXSFrame (data f)) pick with
          | Ret _ w3 => next w3
          | Blocked => Blocked
          | Crash q => Crash q
          end
      end
    else next w
  else if decide (cmd f = cmdKXS E) then
    if bool_decide (encryptionReady s = 0) then
      let w1 := upd_sess (set_encryptionReady 1) w in
      match writeFrame w1 (newKXSFrame (data f)) pick with
      | Ret _ w2 =>
          match close_chEncryptionReady w2 with
          | Ret _ w3 => next w3
          | Blocked => Blocked
          | Crash q => Crash q
          end
      | Blocked => Blocked
      | Crash q => Crash q
      end
    else
      match close_chEncryptionReady w with
      | Ret _ w1 => next w1
      | Blocked => Blocked
      | Crash q => Crash q
      end
  else if decide (cmd f = cmdRST E) then
    match streams s !! sid f with
    | Some p => next (set_heap (alter markRST p (heap w)) w)
    | None => next w
    end
  else if decide (cmd f = cmdPSH E) then
    match streams s !! sid f with
    | Some p =>
        let b := wrap_int32 (bucket s + wrap_int32 (- wrap_int32 (Z.of_nat (sl_len (data f))))) in
        next (set_heap (alter (fun st => pushBytes st (mem_load (mem w) (data f))) p (heap w))
                (upd_sess (set_bucket b) w))
    | None => next w
    end
  else leave (Close w).2.

(** One step of [recvLoop]. *)
Definition recvLoop_step (w : World) (pick : nat) : outcome unit :=
  match pump w with
  | PcWait =>
      if bool_decide (bucket (sess w) <= 0) && negb (IsClosed (sess w))
      then Blocked
      else Ret tt (set_pump PcAlive w)
  | PcAlive =>
      if IsClosed (sess w) then leave w else Ret tt (set_pump PcRead w)
  | PcRead =>
      match readFrame w (rbuf w) with
      | Ret (f, None) w1 =>
          Ret tt (set_lastFrame (Some f)
                    (set_pump (PcDispatch f) (upd_sess (set_dataReady 1) w1)))
      | Ret (_, Some _) w1 => leave (Close w1).2
      | Blocked => Blocked
      | Crash q => Crash q
      end
  | PcDispatch f => dispatch w f pick
  | PcOffer f p => offer w p pick
  | PcExit => Blocked
  end.

(** [keepalive]: a tick of the ping ticker and a tick of the timeout
    ticker. *)
Definition keepalive_ping (w : World) (pick : nat) : outcome unit :=
  match writeFrame w (newFrame (cmdNOP E) 0) pick with
  | Ret _ w1 => Ret tt w1
  | Blocked => Blocked
  | Crash q => Crash q
  end.

Definition keepalive_timeout (w : World) : outcome unit :=
  if bool_decide (dataReady (sess w) = 1)
  then Ret tt (upd_sess (set_dataReady 0) w)
  else Ret tt (Close w).2.

(** [exchangeKeys]: [kx] is what [newKeyPair], [newSecret] and
    [sealSecret] produce, the secret and its sealed form, or their
    failure. *)
Definition exchangeKeys (w : World) (kx : option (list Z * list Z)) (pick : nat)
  : outcome unit :=
  match kx with
  | None => Ret tt (Close w).2
  | Some (secret, sealed) =>
      let w1 := (setEncryptionStream secret w).2 in
      let '(m, a) := mem_alloc (mem w1) sealed in
      match writeFrame (set_mem m w1) (newKXRFrame (Slice a 0 (length sealed))) pick with
      | Ret _ w2 => Ret tt w2
      | Blocked => Blocked
      | Crash q => Crash q
      end
  end.

(** Modelled from the spec: [Stream.Read] of stream.go, which is not among
    the sources.  Section 4.C: it returns buffered bytes, and the number of
    bytes consumed is reported back to the session's bucket. *)
Definition Stream_Read (w : World) (p : nat) (n : nat) : list Z * World :=
  match heap w !! p with
  | None => ([], w)
  | Some st =>
      let out := take n (buffer st) in
      let st' := mkStream (id st) (frameSize st) (drop n (buffer st)) (rstflag st) (dieflag st) in
      (out, returnTokens (set_heap (<[p := st']> (heap w)) w) (len out))
  end.

(** Modelled from the spec: [Stream.Close] of stream.go, which is not among
    the sources.  Section 4.C: it marks the stream closed, notifies the
    session, which removes the mapping and takes back the outstanding
    tokens, and sends RST; section 8: a second close returns BrokenPipe. *)
Definition Stream_Close (w : World) (p : nat) (pick : nat) : outcome (option error) :=
  match heap w !! p with
  | None => Crash NilStreamDereference
  | Some st =>
      if dieflag st then Ret (Some errBrokenPipe) w
      else
        match streamClosed (set_heap (<[p := sessionClose st]> (heap w)) w) (id st) with
        | Ret _ w1 =>
            match writeFrame w1 (newFrame (cmdRST E) (id st)) pick with
            | Ret (_, err) w2 => Ret err w2
            | Blocked => Blocked
            | Crash q => Crash q
            end
        | Blocked => Blocked
        | Crash q => Crash q
        end
  end.

End Operations.

(** ** The session as a transition system *)

(** What can happen next: the pump advances, the application calls the
    session or one of its streams, a goroutine calls [writeFrame] (as
    [Stream.Write] does for each PSH fragment), the application allocates a
    buffer, a keepalive ticker fires, the handshake driver runs. *)
Inductive action : Type :=
| ARecv (pick : nat)
| AOpenStream (expired : bool) (pick1 pick2 : nat)
| AAcceptStream (expired fired : bool) (pick1 pick2 : nat)
| AClose
| AStreamRead (p n : nat)
| AStreamClose (p pick : nat)
| AWriteFrame (f : Frame) (pick : nat)
| AAlloc (bs : list Z)
| AKeepalivePing (pick : nat)
| AKeepaliveTimeout
| AExchangeKeys (kx : option (list Z * list Z)) (pick : nat).

Definition forget {A} (o : outcome A) : outcome unit :=
  match o with
  | Ret _ w => Ret tt w
  | Blocked => Blocked
  | Crash q => Crash q
  end.

Definition step (E : Env) (w : World) (a : action) : outcome unit :=
  match a with
  | ARecv pick => recvLoop_step E w pick
  | AOpenStream expired pick1 pick2 => forget (OpenStream E w expired pick1 pick2)
  | AAcceptStream expired fired pick1 pick2 =>
      forget (AcceptStream w expired fired pick1 pick2)
  | AClose => Ret tt (Close w).2
  | AStreamRead p n => Ret tt (Stream_Read w p n).2
  | AStreamClose p pick => forget (Stream_Close E w p pick)
  | AWriteFrame f pick => forget (writeFrame E w f pick)
  | AAlloc bs => Ret tt (set_mem (mem_alloc (mem w) bs).1 w)
  | AKeepalivePing pick => keepalive_ping E w pick
  | AKeepaliveTimeout => keepalive_timeout w
  | AExchangeKeys kx pick =>
      if driver w then exchangeKeys E (set_driver false w) kx pick else Blocked
  end.

Inductive status : Type :=
| Running (w : World)
| Panicked (q : panic).

(** A blocked call leaves the world as it is. *)
Fixpoint run (E : Env) (w : World) (acts : list action) : status :=
  match acts with
  | [] => Running w
  | a :: rest =>
      match step E w a with
      | Ret _ w' => run E w' rest
      | Blocked => run E w rest
      | Crash q => Panicked q
      end
  end.

(** The worlds a session can be in. *)
Definition reachable (E : Env) (cfg : Config) (c : Conn) (enc cl : bool) (w : World) : Prop :=
  exists acts, run E (newSession cfg c enc cl) acts = Running w.

(** ** A test environment

    The command values of upstream smux followed by the two key-exchange
    commands, and stand-ins for the two cryptographic functions: a
    keystream that depends on key and position, and a key exchange that
    accepts 32-byte payloads. *)
Definition test_env : Env :=
  mkEnv 1 0 1 2 3 4 5
    (fun key i => (key !!! Z.to_nat (i mod 32) + i + 1) mod 256)
    (fun priv payload => if decide (length payload = 32%nat) then Some payload else None).

Definition test_config : Config := mkConfig 4096 1024 (replicate 32 7) (replicate 32 9).

(** A transport that accepts every write in full and closes cleanly; the
    peer sends [bytes] and then closes. *)
Definition test_conn (bytes : list Z) : Conn :=
  mkConn bytes [] (fun buf => (len buf, None)) None false.

(** The same transport with a [Close] that fails. *)
Definition failing_close_conn : Conn :=
  mkConn [] [] (fun buf => (len buf, None)) (Some (errTransport 1)) false.

(** The bytes of a frame on the wire. *)
Definition wire_frame (v c : Z) (sid : Z) (payload : list Z) : list Z :=
  [v; c] ++ put_uint16 (len payload) ++ put_uint32 sid ++ payload.

(** ** Worlds for the examples *)

(** The world after [acts], when the run does not panic. *)
Definition world_after (w : World) (acts : list action) : World :=
  match run test_env w acts with
  | Running w' => w'
  | Panicked _ => w
  end.

(** Whether a run ends without a panic. *)
Definition runs (w : World) (acts : list action) : bool :=
  match run test_env w acts with
  | Running _ => true
  | Panicked _ => false
  end.

(** The result and the world of a call that returns. *)
Definition result_of {A} (o : outcome A) : option A :=
  match o with
  | Ret a _ => Some a
  | _ => None
  end.

Definition world_of {A} (o : outcome A) (d : World) : World :=
  match o with
  | Ret _ w => w
  | _ => d
  end.

Definition test_key : list Z := replicate 32 5.

Definition sealed_secret : list Z := replicate 48 1.

(** An encrypted client after its handshake: the driver has installed the
    cipher and sent KXR, the pump has received the server's KXS, the
    application has opened stream 3 and holds the buffer [1; 2; 3; 4] at
    address 2.  The peer's next frame is a PSH frame for stream 3. *)
Definition cipher_world : World :=
  world_after
    (newSession test_config
       (test_conn (wire_frame 1 5 0 sealed_secret ++ wire_frame 1 2 3 [9; 9; 9; 9]))
       true true)
    ([AExchangeKeys (Some (test_key, sealed_secret)) 0] ++ replicate 4 (ARecv 0)
     ++ [AOpenStream false 0 0; AAlloc [1; 2; 3; 4]]).

(** A PSH frame for stream 3 over the application's buffer. *)
Definition out_frame : Frame := mkFrame 1 2 3 (Slice 2 0 4).

(** The payload length of the frame whose dispatch is in progress. *)
Definition dispatching (w : World) : Z :=
  match pump w with
  | PcDispatch f | PcOffer f _ => Z.of_nat (sl_len (data f))
  | _ => 0
  end.

(** A server with a receive budget of 2 bytes to which the peer opens
    stream 7 and sends 5 bytes on it; the pump has dispatched both frames. *)
Definition tiny_config : Config := mkConfig 4096 2 (replicate 32 7) (replicate 32 9).

Definition flood_conn : Conn :=
  test_conn (wire_frame 1 0 7 [] ++ wire_frame 1 2 7 [1; 2; 3; 4; 5]).

Definition flood_world : World :=
  world_after (newSession tiny_config flood_conn false false) (replicate 8 (ARecv 0)).

(** A server to which the peer sends its key exchange request, its
    acknowledgement, and the acknowledgement once more. *)
Definition repeated_KXS_conn : Conn :=
  test_conn (wire_frame 1 4 0 (replicate 32 3) ++ wire_frame 1 5 0 (replicate 32 3)
             ++ wire_frame 1 5 0 (replicate 32 3)).

(** A client to which the peer has opened stream 3, and which has then
    opened its first stream itself. *)
Definition twin_world : World :=
  world_after (newSession test_config (test_conn (wire_frame 1 0 3 [])) false true)
    (replicate 4 (ARecv 0) ++ [AOpenStream false 0 0]).

(** A client whose pump has read a KXR frame and is about to dispatch it. *)
Definition kxr_world : World :=
  world_after (newSession test_config (test_conn (wire_frame 1 4 0 [1; 2; 3])) true true)
    (replicate 3 (ARecv 0)).

Definition kxr_frame : Frame := mkFrame 1 4 0 (Slice 0 8 3).

(** A server whose pump has read a PSH frame for stream 9, which it does not
    know, and is about to dispatch it. *)
Definition stray_world : World :=
  world_after (newSession test_config (test_conn (wire_frame 1 2 9 [1; 2])) false false)
    (replicate 3 (ARecv 0)).

Definition stray_frame : Frame := mkFrame 1 2 9 (Slice 0 8 2).

(** A session whose pump is about to read a frame of version 9. *)
Definition mismatch_world : World :=
  world_after (newSession test_config (test_conn (wire_frame 9 3 0 [])) false true)
    (replicate 2 (ARecv 0)).

(** An encrypted client whose handshake has not finished and whose pump is
    about to read a frame of version 9. *)
Definition handshake_mismatch_world : World :=
  world_after (newSession test_config (test_conn (wire_frame 9 3 0 [])) true true)
    (replicate 2 (ARecv 0)).

(** A transport that accepts 3 bytes of every write and reports an error. *)
Definition short_conn : Conn :=
  mkConn [] [] (fun _ => (3, Some (errTransport 2))) None false.

(** An unencrypted client on a transport from which nothing arrives. *)
Definition plain_client : World := newSession test_config (test_conn []) false true.

(** The same client after [Close]. *)
Definition closed_client : World :=
  world_after (newSession test_config (test_conn []) false true) [AClose].

(** A server to which the peer has sent one whole PSH frame for stream 7,
    made from the bytes [1; 2; 3] at address 0 of the peer's memory, and one
    more byte. *)
Definition whole_frame : Frame := mkFrame 1 2 7 (Slice 0 0 3).

Definition whole_frame_world : World :=
  newSession test_config (test_conn (wire_frame 1 2 7 [1; 2; 3] ++ [42])) false false.

(** An encrypted server to which the peer has sent its key exchange request
    for [test_key], then [out_frame] as [cipher_world] sends it, and one more
    byte; the pump has dispatched the request. *)
Definition keyed_server : World :=
  world_after
    (newSession test_config
       (test_conn (wire_frame 1 4 0 test_key ++ wire_frame 1 2 3 [7; 5; 11; 13] ++ [42]))
       true false)
    (replicate 4 (ARecv 0)).

(** A client on the transport that accepts 3 bytes of every write and
    reports an error. *)
Definition short_client : World := newSession test_config short_conn false true.

(** A client whose pump has read a SYN frame for stream 3 and is about to
    dispatch it. *)
Definition syn_world : World :=
  world_after (newSession test_config (test_conn (wire_frame 1 0 3 [])) false true)
    (replicate 3 (ARecv 0)).

Definition syn_frame : Frame := mkFrame 1 0 3 nil_slice.

(** A client to which the peer has opened the streams 1 to 1024, none of
    which has been accepted, and whose pump has read a SYN frame for stream
    1025 and is about to dispatch it. *)
Definition crowd_conn : Conn :=
  test_conn (flat_map (fun k => wire_frame 1 0 (Z.of_nat k) []) (seq 1 1025)).

Definition crowd_world : World :=
  world_after (newSession test_config crowd_conn false true) (replicate 4099 (ARecv 0)).

Definition crowd_frame : Frame := mkFrame 1 0 1025 nil_slice.

(** A client whose pump has read a frame of command 9 and is about to
    dispatch it. *)
Definition odd_world : World :=
  world_after (newSession test_config (test_conn (wire_frame 1 9 0 [])) false true)
    (replicate 3 (ARecv 0)).

Definition odd_frame : Frame := mkFrame 1 9 0 nil_slice.

(** An encrypted server whose pump has read the peer's key exchange request
    and is about to dispatch it. *)
Definition request_world : World :=
  world_after (newSession test_config repeated_KXS_conn true false) (replicate 3 (ARecv 0)).

Definition request_frame : Frame := mkFrame 1 4 0 (Slice 0 8 32).

(** An encrypted server that has handled one key exchange request and whose
    pump is about to dispatch a second one. *)
Definition second_request_world : World :=
  world_after
    (newSession test_config
       (test_conn (wire_frame 1 4 0 (replicate 32 3) ++ wire_frame 1 4 0 (replicate 32 6)))
       true false)
    (replicate 7 (ARecv 0)).

Definition second_request_frame : Frame := mkFrame 1 4 0 (Slice 0 8 32).

(** An encrypted client before its handshake, and the acknowledgement the
    server sends. *)
Definition encrypted_client : World := newSession test_config (test_conn []) true true.

Definition ack_frame : Frame := mkFrame 1 5 0 nil_slice.

(** A client whose pump is about to read a NOP frame. *)
Definition nop_world : World :=
  world_after (newSession test_config (test_conn (wire_frame 1 3 0 [])) false true)
    (replicate 2 (ARecv 0)).

(** A client whose pump is about to read a frame that announces 3 bytes of
    payload, of which one has arrived when the peer closes. *)
Definition truncated_world : World :=
  world_after (newSession test_config (test_conn [1; 2; 3; 0; 3; 0; 0; 0; 1]) false true)
    (replicate 2 (ARecv 0)).

(** A server whose pump is about to read a header that announces a
    payload of 65535 bytes. *)
Definition oversized_world : World :=
  world_after
    (newSession test_config (test_conn [1; 2; 255; 255; 7; 0; 0; 0]) false false)
    (replicate 2 (ARecv 0)).

(** An RST frame for stream 7. *)
Definition rst_frame : Frame := mkFrame 1 1 7 nil_slice.

(** ** Measures and views *)

(** The bytes pushed to the streams and not yet read, over all stream
    objects. *)
Definition buffered (h : list Stream) : Z :=
  foldr (fun st acc => len (buffer st) + acc) 0 h.

(** The payload length of the frame the pump read last. *)
Definition inflight (w : World) : Z :=
  match lastFrame w with
  | Some f => Z.of_nat (sl_len (data f))
  | None => 0
  end.

(** The keystream offset at which the next inbound PSH payload is
    decrypted, and at which the next outbound one is encrypted: both paths
    go through [encrypt], which reads the one cipher of the session. *)
Definition inbound_offset (w : World) : option Z := cpos <$> cryptStream (sess w).
Definition outbound_offset (w : World) : option Z := cpos <$> cryptStream (sess w).

(** A slice lies within its backing array. *)
Definition slice_ok (m : list (list Z)) (s : slice) : Prop :=
  exists a, m !! sl_arr s = Some a /\ (sl_off s + sl_len s <= length a)%nat.

(** Everything of a world but the transport, the cipher, the key and the
    contents of the byte arrays. *)
Definition core (w : World) :=
  (heap w, pump w, rbuf w, driver w, lastFrame w,
   (bucket (sess w), streams (sess w), die (sess w), nextStreamID (sess w),
    chAccepts (sess w), dataReady (sess w)),
   (client (sess w), encrypted (sess w), config (sess w),
    chEncryptionReady (sess w), encryptionReady (sess w)),
   length <$> mem w).

(** ** The invariant of the session

    A frame the pump holds is a view of its receive buffer of less than
    [2^16] bytes. *)
Definition frame_ok (w : World) (f : Frame) : Prop :=
  Z.of_nat (sl_len (data f)) < 2 ^ 16 /\
  (sl_len (data f) = 0%nat \/ (sl_arr (data f) = rbuf w /\ sl_off (data f) = Z.to_nat headerSize)).

(** What holds in every world of a session made by [newSession cfg _ _ cl]:
    the configuration and the role stay; the receive buffer stays allocated;
    the bucket and the buffered bytes add up to the initial bucket; the bucket
    is below its floor by at most the frame read last; between its check of
    the bucket and the end of a dispatch the pump holds a positive bucket;
    the next stream id has the parity of the role; every entry of the stream
    table points to a stream of that id. *)
Record Inv (cfg : Config) (cl : bool) (w : World) : Prop := {
  inv_config : config (sess w) = cfg;
  inv_client : client (sess w) = cl;
  inv_rbuf : (length <$> mem w) !! rbuf w = Some (Z.to_nat bufferSize);
  inv_tokens : bucket (sess w) + buffered (heap w) = wrap_int32 (MaxReceiveBuffer cfg);
  inv_floor : Z.min (wrap_int32 (MaxReceiveBuffer cfg)) (1 - inflight w) <= bucket (sess w);
  inv_last : forall f, lastFrame w = Some f -> frame_ok w f;
  inv_pump :
    match pump w with
    | PcAlive => 0 < bucket (sess w) \/ die (sess w) = true
    | PcRead => 0 < bucket (sess w)
    | PcDispatch f | PcOffer f _ => 0 < bucket (sess w) /\ lastFrame w = Some f
    | _ => True
    end;
  inv_parity : Z.odd (nextStreamID (sess w)) = cl;
  inv_table : forall k p, streams (sess w) !! k = Some p -> (id <$> heap w) !! p = Some k;
}.

(** What the invariant reads of a world. *)
Definition view (w : World) :=
  (config (sess w), client (sess w), length <$> mem w, rbuf w, bucket (sess w), heap w,
   lastFrame w, pump w, die (sess w), nextStreamID (sess w), streams (sess w)).

(** The transport has the same bytes left to read. *)
Definition same_rx (w w' : World) : Prop := rx (conn (sess w')) = rx (conn (sess w)).

(** [die] and the state of the transport, and the two ways a step leaves
    them: as they were, or both closed. *)
Definition lock (w : World) : bool * bool :=
  (die (sess w), conn_closed (conn (sess w))).

Definition locks (w w' : World) : Prop :=
  lock w' = lock w \/ lock w' = (true, true).

(** * Properties *)

(** ** The receive buffer *)

Lemma bufferSize_eq : bufferSize = 65544.
Proof. reflexivity. Qed.

Lemma length_zeroBuffer : length zeroBuffer = Z.to_nat bufferSize.
Proof. unfold zeroBuffer. apply length_replicate. Qed.

#[global] Opaque zeroBuffer bufferSize.

(** ** Integers *)

Lemma wrap_int32_id z : -2 ^ 31 <= z < 2 ^ 31 -> wrap_int32 z = z.
Proof. intros H. unfold wrap_int32. rewrite Z.mod_small; lia. Qed.

Lemma wrap_int32_range z : -2 ^ 31 <= wrap_int32 z < 2 ^ 31.
Proof.
  unfold wrap_int32. pose proof (Z.mod_pos_bound (z + 2 ^ 31) (2 ^ 32)). lia.
Qed.

Lemma wrap_int32_add z n : wrap_int32 (z + wrap_int32 n) = wrap_int32 (z + n).
Proof.
  unfold wrap_int32.
  replace (z + ((n + 2 ^ 31) mod 2 ^ 32 - 2 ^ 31) + 2 ^ 31)
    with (z + (n + 2 ^ 31) mod 2 ^ 32) by lia.
  rewrite Z.add_mod_idemp_r by lia. do 2 f_equal. lia.
Qed.

Lemma wrap_int_id z : -2 ^ 63 <= z < 2 ^ 63 -> wrap_int z = z.
Proof. intros H. unfold wrap_int. rewrite Z.mod_small; lia. Qed.

Lemma wrap_uint16_range z : 0 <= wrap_uint16 z < 2 ^ 16.
Proof. unfold wrap_uint16. apply Z.mod_pos_bound. lia. Qed.

(** The upper bound of the payload's slice in [readFrame] wraps exactly when
    the payload ends [2^16] bytes or more from the start of the frame. *)
Lemma slice_high_wraps l :
  0 <= l < 2 ^ 16 ->
  (wrap_uint16 (headerSize + l) < headerSize <-> 2 ^ 16 <= headerSize + l).
Proof.
  unfold wrap_uint16, headerSize. intros Hl.
  destruct (decide (8 + l < 2 ^ 16)) as [Hs|Hs].
  - rewrite Z.mod_small by lia. lia.
  - replace (8 + l) with (8 + l - 2 ^ 16 + 1 * 2 ^ 16) at 1 by lia.
    rewrite Z_mod_plus_full. rewrite Z.mod_small by lia. lia.
Qed.

Lemma wrap_uint32_odd z : Z.odd (wrap_uint32 (z + 2)) = Z.odd z.
Proof.
  unfold wrap_uint32.
  rewrite (Z.mod_eq (z + 2) (2 ^ 32)) by lia.
  replace (z + 2 - 2 ^ 32 * ((z + 2) / 2 ^ 32))
    with (z + 2 * (1 - 2 ^ 31 * ((z + 2) / 2 ^ 32))) by lia.
  apply Z.odd_add_mul_2.
Qed.

(** ** Byte arrays *)

Lemma length_splice off bs a : length (splice off bs a) = length a.
Proof.
  unfold splice. rewrite length_take, !length_app, length_take, length_drop. lia.
Qed.

Lemma mem_write_lengths (m : list (list Z)) arr off bs :
  length <$> mem_write m arr off bs = length <$> m.
Proof.
  unfold mem_write. destruct (m !! arr) as [a|] eqn:Ha; [|done].
  rewrite list_fmap_insert, length_splice.
  apply list_insert_id. by rewrite list_lookup_fmap, Ha.
Qed.

Lemma mem_store_lengths (m : list (list Z)) s bs :
  length <$> mem_store m s bs = length <$> m.
Proof. apply mem_write_lengths. Qed.

Lemma splice_within off bs a :
  (off + length bs <= length a)%nat ->
  take (length bs) (drop off (splice off bs a)) = bs.
Proof.
  intros H. unfold splice.
  rewrite (take_ge _ (length a))
    by (rewrite !length_app, length_take, length_drop; lia).
  rewrite drop_app_length' by (rewrite length_take; lia).
  by rewrite take_app_length.
Qed.

Lemma mem_load_store (m : list (list Z)) s bs :
  slice_ok m s -> length bs = sl_len s -> mem_load (mem_store m s bs) s = bs.
Proof.
  intros (a & Ha & Hle) Hl. unfold mem_load, mem_store, mem_write.
  rewrite Ha. rewrite list_lookup_insert_eq by (by eapply lookup_lt_Some).
  simpl. rewrite (take_ge bs) by lia. rewrite <- Hl at 1.
  apply splice_within. lia.
Qed.

Lemma length_mem_load (m : list (list Z)) s :
  slice_ok m s -> length (mem_load m s) = sl_len s.
Proof.
  intros (a & Ha & Hle). unfold mem_load. rewrite Ha. simpl.
  rewrite length_take, length_drop. lia.
Qed.

(** ** What the cipher, the sender and the frame reader leave alone *)

Section Core.

Variable E : Env.

Lemma encrypt_core w dst src : core (encrypt E w dst src).2 = core w.
Proof.
  unfold encrypt. destruct (cryptStream (sess w)) as [c|]; [|done].
  unfold core; simpl. by rewrite mem_store_lengths.
Qed.

Lemma setEncryptionStream_core key w : core (setEncryptionStream key w).2 = core w.
Proof. unfold setEncryptionStream. by case_bool_decide. Qed.

Lemma sendLoop_serve_core w f r w' :
  sendLoop_serve w f = Ret r w' -> core w' = core w.
Proof.
  unfold sendLoop_serve, conn_Write. case_decide; [|done].
  destruct (write_answer _ _) as [n err]. by intros [= _ <-].
Qed.

Lemma sendLoop_serve_mem w f r w' :
  sendLoop_serve w f = Ret r w' -> mem w' = mem w /\ cryptStream (sess w') = cryptStream (sess w).
Proof.
  unfold sendLoop_serve, conn_Write. case_decide; [|done].
  destruct (write_answer _ _) as [n err]. by intros [= _ <-].
Qed.

Lemma writeFrame_core w f pick r w' :
  writeFrame E w f pick = Ret r w' -> core w' = core w.
Proof.
  unfold writeFrame.
  destruct (encrypted (sess w) && bool_decide (cmd f = cmdPSH E)) eqn:Hc.
  - pose proof (encrypt_core w (data f) (data f)) as Hq.
    destruct (encrypt E w (data f) (data f)) as [[e|] w1]; simpl in Hq.
    + by intros [= _ <-].
    + destruct (select_ready _ _) as [[|k]|]; [by intros [= _ <-]| |done].
      intros H%sendLoop_serve_core. congruence.
  - destruct (select_ready _ _) as [[|k]|]; [by intros [= _ <-]| |done].
    apply sendLoop_serve_core.
Qed.

Lemma readFrame_core w b r w' : readFrame E w b = Ret r w' -> core w' = core w.
Proof.
  unfold readFrame.
  destruct (ReadFull (conn (sess w)) _) as [[dec [e|]] c1]; simpl.
  { intros [= _ <-]. unfold core; simpl. by rewrite mem_write_lengths. }
  set (w1 := set_mem _ _).
  assert (H1 : core w1 = core w) by (unfold core; simpl; by rewrite mem_write_lengths).
  case_decide; [by intros [= _ <-]|]. case_decide; [|by intros [= _ <-]].
  case_decide; [done|].
  destruct (ReadFull c1 _) as [[body [e|]] c2]; simpl.
  { intros [= _ <-]. rewrite <- H1. unfold core; simpl. by rewrite mem_write_lengths. }
  set (w2 := set_mem _ _).
  assert (Hw2 : core w2 = core w)
    by (rewrite <- H1; unfold core; simpl; by rewrite mem_write_lengths).
  destruct (_ && _); [|by intros [= _ <-]].
  unfold decrypt.
  match goal with |- context [encrypt E w2 ?a ?a] => pose proof (encrypt_core w2 a a) as Hq end.
  destruct (encrypt _ _ _ _) as [[e|] w3]; simpl in *; intros [= _ <-]; congruence.
Qed.

End Core.

(** ** The command switch *)

Lemma cmds_distinct_neq E :
  cmds_distinct E ->
  cmdSYN E <> cmdNOP E /\
  (cmdKXR E <> cmdNOP E /\ cmdKXR E <> cmdSYN E) /\
  (cmdKXS E <> cmdNOP E /\ cmdKXS E <> cmdSYN E /\ cmdKXS E <> cmdKXR E) /\
  (cmdRST E <> cmdNOP E /\ cmdRST E <> cmdSYN E /\ cmdRST E <> cmdKXR E /\ cmdRST E <> cmdKXS E) /\
  (cmdPSH E <> cmdNOP E /\ cmdPSH E <> cmdSYN E /\ cmdPSH E <> cmdKXR E /\
   cmdPSH E <> cmdKXS E /\ cmdPSH E <> cmdRST E).
Proof.
  unfold cmds_distinct. rewrite !NoDup_cons, !not_elem_of_cons. intuition congruence.
Qed.

(** Select the case of [dispatch] for the command [Hc] names. *)
Ltac dispatch_on HE Hc :=
  unfold dispatch; rewrite Hc;
  destruct (cmds_distinct_neq _ HE) as (? & (? & ?) & (? & ? & ?) & (? & ? & ? & ?) & (? & ? & ? & ? & ?));
  repeat (rewrite decide_False by congruence);
  rewrite decide_True by reflexivity.


Lemma wrap_int32_sub b n : wrap_int32 (b + wrap_int32 (- wrap_int32 n)) = wrap_int32 (b - n).
Proof.
  rewrite wrap_int32_add. unfold wrap_int32.
  replace (b + - ((n + 2 ^ 31) mod 2 ^ 32 - 2 ^ 31) + 2 ^ 31)
    with (b + 2 ^ 32 - (n + 2 ^ 31) mod 2 ^ 32) by lia.
  rewrite Zminus_mod_idemp_r. do 2 f_equal.
  replace (b + 2 ^ 32 - (n + 2 ^ 31)) with (b - n + 2 ^ 31 + 0 * 2 ^ 32) by lia.
  lia.
Qed.

(** ** What never goes back

    Across any step a dead session stays dead, the role, the configuration
    and the encryption setting stay, and the two readiness flags stay
    set. *)

Lemma Close_die w : die (sess (Close w).2) = true.
Proof.
  unfold Close. destruct (die (sess w)) eqn:Hd; [done|].
  unfold conn_Close. done.
Qed.

Lemma Close_again w : die (sess w) = true -> Close w = (Some errBrokenPipe, w).
Proof. intros H. unfold Close. by rewrite H. Qed.

Record evolves (w w' : World) : Prop := {
  ev_die : die (sess w) = true -> die (sess w') = true;
  ev_config : config (sess w') = config (sess w);
  ev_client : client (sess w') = client (sess w);
  ev_encrypted : encrypted (sess w') = encrypted (sess w);
  ev_flag : encryptionReady (sess w) = 1 -> encryptionReady (sess w') = 1;
  ev_ready : chEncryptionReady (sess w) = true -> chEncryptionReady (sess w') = true;
}.

Lemma evolves_refl w : evolves w w.
Proof. by constructor. Qed.

Lemma evolves_trans w1 w2 w3 : evolves w1 w2 -> evolves w2 w3 -> evolves w1 w3.
Proof. intros [] []. constructor; intros; simpl in *; try congruence; auto. Qed.

Lemma evolves_core w w' : core w' = core w -> evolves w w'.
Proof. unfold core. intros [= ]. constructor; congruence. Qed.

Lemma evolves_Close w : evolves w (Close w).2.
Proof.
  unfold Close. destruct (die (sess w)); [apply evolves_refl|]. by constructor.
Qed.


Ltac ev :=
  repeat match goal with
  | |- evolves ?x ?x => apply evolves_refl
  | H : evolves ?x ?y |- evolves _ ?y => apply (evolves_trans _ x); [|exact H]
  | |- evolves _ (Close ?x).2 => apply (evolves_trans _ x); [|apply evolves_Close]
  | |- evolves _ (setEncryptionStream ?k ?x).2 =>
      apply (evolves_trans _ x); [|apply evolves_core, setEncryptionStream_core]
  | |- evolves _ (set_pump _ ?x) => apply (evolves_trans _ x); [|by constructor]
  | |- evolves _ (set_lastFrame _ ?x) => apply (evolves_trans _ x); [|by constructor]
  | |- evolves _ (set_driver _ ?x) => apply (evolves_trans _ x); [|by constructor]
  | |- evolves _ (set_heap _ ?x) => apply (evolves_trans _ x); [|by constructor]
  | |- evolves _ (set_mem _ ?x) => apply (evolves_trans _ x); [|by constructor]
  | |- evolves _ (upd_sess _ ?x) => apply (evolves_trans _ x); [|by constructor]
  | |- evolves _ (returnTokens ?x _) => apply (evolves_trans _ x); [|by constructor]
  end.

Section Evolution.
Variable E : Env.

Lemma evolves_writeFrame w f pick r w' : writeFrame E w f pick = Ret r w' -> evolves w w'.
Proof. intros H%writeFrame_core. by apply evolves_core. Qed.

Ltac ops :=
  repeat case_match; simplify_eq;
  repeat match goal with u : unit |- _ => destruct u end;
  repeat match goal with
  | H : writeFrame _ _ _ _ = Ret _ _ |- _ => apply evolves_writeFrame in H
  end.

Lemma evolves_dispatch w f pick w' : dispatch E w f pick = Ret tt w' -> evolves w w'.
Proof.
  unfold dispatch, offer, next, leave, close_chEncryptionReady. intros H. ops; ev.
Qed.

Lemma evolves_recvLoop_step w pick w' : recvLoop_step E w pick = Ret tt w' -> evolves w w'.
Proof.
  unfold recvLoop_step, leave. intros H.
  destruct (pump w) as [| | |f|f p|].
  - ops; ev.
  - ops; ev.
  - destruct (readFrame E w (rbuf w)) as [[f [e|]] w1| |q] eqn:Hr; try done;
      apply readFrame_core, evolves_core in Hr; simplify_eq; ev.
  - by apply (evolves_dispatch w f pick).
  - revert H. unfold offer, next. intros H. ops; ev.
  - done.
Qed.

Lemma evolves_streamClosed w sid w' : streamClosed w sid = Ret tt w' -> evolves w w'.
Proof. unfold streamClosed, recycleTokens. intros H. ops; ev. Qed.

Lemma evolves_step w a w' : step E w a = Ret tt w' -> evolves w w'.
Proof.
  destruct a; simpl; unfold forget.
  - apply evolves_recvLoop_step.
  - unfold OpenStream. intros H. ops; ev.
  - unfold AcceptStream. intros H. ops; ev.
  - intros [= <-]. ev.
  - unfold Stream_Read. intros [= <-]. ops; simpl; ev.
  - unfold Stream_Close. intros H. ops; [ev|].
    match goal with H : streamClosed _ _ = Ret _ _ |- _ => apply evolves_streamClosed in H end.
    ev.
  - intros H. ops; ev.
  - intros [= <-]. ev.
  - unfold keepalive_ping. intros H. ops; ev.
  - unfold keepalive_timeout. intros H. ops; ev.
  - unfold exchangeKeys, mem_alloc. intros H. ops; ev.
Qed.

Lemma evolves_run w acts w' : run E w acts = Running w' -> evolves w w'.
Proof.
  revert w. induction acts as [|a acts IH]; intros w; simpl.
  - intros [= <-]. apply evolves_refl.
  - destruct (step E w a) as [[] w1| |q] eqn:Hs; [|by apply IH|done].
    intros H. eapply evolves_trans; [by eapply evolves_step|by apply IH].
Qed.
End Evolution.

(** ** The invariant holds in every reachable world *)

Lemma buffered_nonneg h : 0 <= buffered h.
Proof. induction h as [|st h IH]; simpl; unfold len in *; lia. Qed.

Lemma buffered_app h1 h2 : buffered (h1 ++ h2) = buffered h1 + buffered h2.
Proof. induction h1 as [|st h IH]; simpl; lia. Qed.

Lemma buffered_insert h p st st' :
  h !! p = Some st ->
  buffered (<[p := st']> h) = buffered h - len (buffer st) + len (buffer st').
Proof.
  revert p. induction h as [|x h IH]; intros [|p]; try done.
  - intros [= ->]. simpl. lia.
  - intros H. specialize (IH _ H).
    change (len (buffer x) + buffered (<[p:=st']> h)
            = len (buffer x) + buffered h - len (buffer st) + len (buffer st')).
    lia.
Qed.

Lemma buffered_alter f h p :
  (forall st, len (buffer (f st)) = len (buffer st)) -> buffered (alter f p h) = buffered h.
Proof.
  intros Hf. revert p. induction h as [|x h IH]; intros [|p]; simpl; try done.
  - by rewrite Hf.
  - f_equal. apply IH.
Qed.

Lemma buffered_alter_push h p st bs :
  h !! p = Some st ->
  buffered (alter (fun st => pushBytes st bs) p h) = buffered h + len bs.
Proof.
  revert p. induction h as [|x h IH]; intros [|p]; try done.
  - intros [= ->]. simpl. unfold len. rewrite length_app. lia.
  - intros H. specialize (IH _ H).
    change (len (buffer x) + buffered (alter (fun st => pushBytes st bs) p h)
            = len (buffer x) + buffered h + len bs).
    lia.
Qed.

Lemma Inv_core cfg cl w w' : core w' = core w -> Inv cfg cl w -> Inv cfg cl w'.
Proof.
  unfold core. intros [= Hh Hp Hr Hd Hl Hb Hs Hdie Hn Hq Hdr Hc He Hcfg Hcr Her Hm] [].
  constructor; unfold inflight, frame_ok in *; rewrite ?Hh, ?Hp, ?Hr, ?Hl, ?Hb, ?Hs, ?Hdie, ?Hn, ?Hc, ?Hcfg, ?Hm; done.
Qed.


Lemma Inv_init cfg c enc cl : Inv cfg cl (newSession cfg c enc cl).
Proof.
  constructor; simpl.
  - done.
  - done.
  - by rewrite length_zeroBuffer.
  - lia.
  - unfold inflight. simpl. lia.
  - done.
  - done.
  - by destruct cl.
  - done.
Qed.

Lemma ids_alter (f : Stream -> Stream) p (h : list Stream) :
  (forall st, id (f st) = id st) -> id <$> alter f p h = id <$> h.
Proof.
  intros Hf. rewrite (list_fmap_alter id f (fun x => x)).
  - apply list_alter_id. done.
  - apply Forall_forall. intros; apply Hf.
Qed.

Lemma ids_insert p (h : list Stream) st st' :
  h !! p = Some st -> id st' = id st -> id <$> <[p := st']> h = id <$> h.
Proof.
  intros H Hid. rewrite list_fmap_insert. apply list_insert_id.
  by rewrite list_lookup_fmap, H, Hid.
Qed.

Lemma Close_heap w :
  id <$> heap (Close w).2 = id <$> heap w /\ buffered (heap (Close w).2) = buffered (heap w).
Proof.
  unfold Close. destruct (die (sess w)); [done|]. simpl.
  apply (map_fold_weak_ind
           (fun (r : list Stream) (_ : gmap Z nat) =>
              id <$> r = id <$> heap w /\ buffered r = buffered (heap w))); [done|].
  intros k p m r _ [H1 H2]. split.
  - by rewrite ids_alter.
  - by rewrite buffered_alter.
Qed.

Lemma Close_view w :
  let w' := (Close w).2 in
  config (sess w') = config (sess w) /\ client (sess w') = client (sess w) /\
  mem w' = mem w /\ rbuf w' = rbuf w /\ bucket (sess w') = bucket (sess w) /\
  lastFrame w' = lastFrame w /\ pump w' = pump w /\ die (sess w') = true /\
  nextStreamID (sess w') = nextStreamID (sess w) /\ streams (sess w') = streams (sess w).
Proof. unfold Close. destruct (die (sess w)) eqn:Hd; simpl; auto 12. Qed.

Lemma Inv_Close cfg cl w : Inv cfg cl w -> Inv cfg cl (Close w).2.
Proof.
  intros [].
  destruct (Close_heap w) as [Hi Hb].
  destruct (Close_view w) as (Hc & Hcl & Hm & Hr & Hbu & Hl & Hp & Hd & Hn & Hs).
  constructor; unfold inflight, frame_ok in *;
    rewrite ?Hi, ?Hb, ?Hc, ?Hcl, ?Hm, ?Hr, ?Hbu, ?Hl, ?Hp, ?Hn, ?Hs; try done.
  destruct (pump w); auto.
Qed.

(** The pump may go back to its wait or return in any state, and stand in
    the [select] of the SYN case during a dispatch. *)
Lemma Inv_rest cfg cl w q : q = PcWait \/ q = PcExit -> Inv cfg cl w -> Inv cfg cl (set_pump q w).
Proof. intros Hq []. constructor; simpl; try done. by destruct Hq as [-> | ->]. Qed.

Lemma Inv_offer cfg cl w f p :
  pump w = PcDispatch f -> Inv cfg cl w -> Inv cfg cl (set_pump (PcOffer f p) w).
Proof. intros Hp []. constructor; simpl; try done. by rewrite Hp in inv_pump0. Qed.

Lemma Inv_bucket_range cfg cl w : Inv cfg cl w -> -2 ^ 31 <= bucket (sess w) < 2 ^ 31.
Proof.
  intros [].
  pose proof (wrap_int32_range (MaxReceiveBuffer cfg)).
  pose proof (buffered_nonneg (heap w)).
  assert (inflight w < 2 ^ 16).
  { unfold inflight. destruct (lastFrame w) as [f|] eqn:Hf; [|lia].
    destruct (inv_last0 f eq_refl). lia. }
  lia.
Qed.

Lemma ids_lookup (h : list Stream) p k :
  (id <$> h) !! p = Some k -> exists st, h !! p = Some st /\ id st = k.
Proof. rewrite list_lookup_fmap_Some. intros (st & -> & H). eauto. Qed.

Lemma frame_load_length cfg cl w f :
  Inv cfg cl w -> frame_ok w f -> len (mem_load (mem w) (data f)) = Z.of_nat (sl_len (data f)).
Proof.
  intros [] [Hlt [H0 | [Ha Ho]]]; unfold len, mem_load.
  - rewrite H0. by rewrite take_0.
  - rewrite Ha. rewrite list_lookup_fmap in inv_rbuf0.
    destruct (mem w !! rbuf w) as [a|]; [|done]. simpl in *.
    injection inv_rbuf0 as Hl. rewrite length_take, length_drop, Hl, Ho.
    rewrite bufferSize_eq. unfold headerSize. lia.
Qed.

Lemma Inv_streamClosed cfg cl w sid w' :
  Inv cfg cl w -> streamClosed w sid = Ret tt w' -> Inv cfg cl w'.
Proof.
  intros HI. pose proof (Inv_bucket_range _ _ _ HI) as Hrange. destruct HI.
  unfold streamClosed.
  destruct (streams (sess w) !! sid) as [p|] eqn:Hs; [|done]. simpl.
  destruct (heap w !! p) as [st|] eqn:Hp; [|done]. simpl.
  intros [= <-].
  pose proof (buffered_insert (heap w) p st
                (mkStream (id st) (frameSize st) [] (rstflag st) (dieflag st)) Hp) as Hb.
  unfold len in Hb. simpl in Hb.
  pose proof (buffered_nonneg (<[p:=mkStream (id st) (frameSize st) [] (rstflag st) (dieflag st)]> (heap w))) as Hnn.
  pose proof (wrap_int32_range (MaxReceiveBuffer cfg)).
  assert (Hnew : (if decide (len (buffer st) > 0)
                  then wrap_int32 (bucket (sess w) + wrap_int32 (len (buffer st)))
                  else bucket (sess w)) = bucket (sess w) + len (buffer st)).
  { case_decide.
    - rewrite wrap_int32_add. apply wrap_int32_id. unfold len in *. lia.
    - unfold len in *. lia. }
  constructor; simpl; rewrite ?Hnew; try done.
  - unfold len in *. lia.
  - unfold inflight in *. simpl. unfold len in *. lia.
  - destruct (pump w); unfold len in *; try done; intuition lia.
  - intros k q. rewrite lookup_delete_Some. intros [_ Hk].
    erewrite ids_insert; eauto.
Qed.

Lemma Inv_view cfg cl w w' : view w' = view w -> Inv cfg cl w -> Inv cfg cl w'.
Proof.
  unfold view. intros [= Hc Hcl Hm Hr Hb Hh Hl Hp Hd Hn Hs] [].
  constructor; unfold inflight, frame_ok in *;
    rewrite ?Hh, ?Hp, ?Hr, ?Hl, ?Hb, ?Hs, ?Hd, ?Hn, ?Hc, ?Hcl, ?Hm; done.
Qed.

(** Carry the invariant through what a step leaves alone. *)
Ltac keep :=
  repeat match goal with
  | H : Inv ?c ?l ?w |- Inv ?c ?l ?w => exact H
  | |- Inv _ _ (set_pump PcWait _) => apply Inv_rest; [by left|]
  | |- Inv _ _ (set_pump PcExit _) => apply Inv_rest; [by right|]
  | |- Inv _ _ (set_pump (PcOffer _ _) _) => apply Inv_offer; [done|]
  | |- Inv _ _ (Close _).2 => apply Inv_Close
  | |- Inv _ _ (setEncryptionStream _ _).2 =>
      eapply Inv_core; [apply setEncryptionStream_core|]
  | H : core ?y = core ?x |- Inv _ _ ?y => eapply Inv_core; [exact H|]
  | |- Inv _ _ (upd_sess _ ?x) => apply (Inv_view _ _ x); [reflexivity|]
  | |- Inv _ _ (set_driver _ ?x) => apply (Inv_view _ _ x); [reflexivity|]
  end.

Section Preservation.
Variable E : Env.
Variable cfg : Config.
Variable cl : bool.

Lemma readFrame_frame_ok w b f w1 :
  readFrame E w b = Ret (f, None) w1 ->
  Z.of_nat (sl_len (data f)) < 2 ^ 16 /\
  (sl_len (data f) = 0%nat \/ (sl_arr (data f) = b /\ sl_off (data f) = Z.to_nat headerSize)).
Proof.
  unfold readFrame.
  destruct (ReadFull _ _) as [[dec [e|]] c1]; [done|].
  case_decide; [done|]. case_decide.
  - case_decide; [done|].
    destruct (ReadFull c1 _) as [[body [e|]] c2]; [done|].
    pose proof (wrap_uint16_range (headerSize + hdr_Length dec)) as Hr.
    unfold headerSize in *.
    destruct (_ && _).
    + destruct (decrypt _ _ _ _) as [[e|] w3]; [done|]. intros [= <- _]. simpl. split; [lia|auto].
    + intros [= <- _]. simpl. split; [lia|auto].
  - intros [= <- _]. simpl. split; [lia|auto].
Qed.

Lemma Inv_new_stream w sid fs :
  Inv cfg cl w ->
  Inv cfg cl (set_heap (heap w ++ [newStream sid fs])
                (upd_sess (fun s => set_streams (<[sid := length (heap w)]> (streams s)) s) w)).
Proof.
  intros []. constructor; simpl; try done.
  - rewrite buffered_app. simpl. unfold len; simpl. lia.
  - intros k p. rewrite fmap_app. destruct (decide (sid = k)) as [->|Hne].
    + rewrite lookup_insert_eq. intros [= <-].
      rewrite lookup_app_r by (by rewrite length_fmap).
      by rewrite length_fmap, Nat.sub_diag.
    + rewrite lookup_insert_ne by done. intros H%inv_table0.
      by apply lookup_app_l_Some.
Qed.

Lemma Inv_markRST w p : Inv cfg cl w -> Inv cfg cl (set_heap (alter markRST p (heap w)) w).
Proof.
  intros []. constructor; simpl; try done.
  - by rewrite buffered_alter.
  - by rewrite ids_alter.
Qed.

Lemma Inv_push w f p :
  Inv cfg cl w -> pump w = PcDispatch f -> streams (sess w) !! sid f = Some p ->
  Inv cfg cl
    (set_pump PcWait
       (set_heap (alter (fun st => pushBytes st (mem_load (mem w) (data f))) p (heap w))
          (upd_sess
             (set_bucket
                (wrap_int32
                   (bucket (sess w) + wrap_int32 (- wrap_int32 (Z.of_nat (sl_len (data f)))))))
             w))).
Proof.
  intros HI Hp Hs.
  pose proof (Inv_bucket_range _ _ _ HI) as Hrange.
  pose proof HI as [].
  rewrite Hp in inv_pump0. destruct inv_pump0 as [Hpos Hlast].
  destruct (inv_last0 _ Hlast) as [Hlt Hshape].
  pose proof (frame_load_length _ _ _ _ HI (inv_last0 _ Hlast)) as Hlen.
  destruct (ids_lookup _ _ _ (inv_table0 _ _ Hs)) as (st & Hst & _).
  pose proof (buffered_alter_push _ _ _ (mem_load (mem w) (data f)) Hst) as Hb.
  rewrite wrap_int32_sub, wrap_int32_id by lia.
  constructor; simpl; try done.
  - lia.
  - unfold inflight. simpl. rewrite Hlast. lia.
  - by rewrite ids_alter.
Qed.

Lemma Inv_dispatch w f pick w' :
  Inv cfg cl w -> pump w = PcDispatch f -> dispatch E w f pick = Ret tt w' -> Inv cfg cl w'.
Proof.
  intros HI Hp. unfold dispatch, offer, next, leave, close_chEncryptionReady. intros H.
  repeat case_match; simplify_eq;
    repeat match goal with u : unit |- _ => destruct u end;
    repeat match goal with
    | H : writeFrame _ _ _ _ = Ret _ _ |- _ => apply writeFrame_core in H
    end;
    try (by apply Inv_push); keep;
    try (by apply Inv_markRST); try (by apply Inv_new_stream).
Qed.

Lemma Inv_recvLoop_step w pick w' :
  Inv cfg cl w -> recvLoop_step E w pick = Ret tt w' -> Inv cfg cl w'.
Proof.
  intros HI. unfold recvLoop_step, leave.
  destruct (pump w) as [| | |f|f p|] eqn:Hp.
  - case_match eqn:Hc; [done|]. intros [= <-].
    pose proof HI as []. constructor; simpl; try done.
    apply andb_false_iff in Hc as [Hc|Hc].
    + left. apply bool_decide_eq_false in Hc. lia.
    + right. unfold IsClosed in Hc. by destruct (die (sess w)).
  - unfold IsClosed. destruct (die (sess w)) eqn:Hd; intros [= <-]; [keep|].
    pose proof HI as []. rewrite Hp in inv_pump0. constructor; simpl; try done.
    destruct inv_pump0; [done|congruence].
  - pose proof (readFrame_frame_ok w (rbuf w)) as Hok.
    destruct (readFrame E w (rbuf w)) as [[f [e|]] w1| |q] eqn:Hr; try done;
      pose proof (readFrame_core E _ _ _ _ Hr) as Hc; intros [= <-]; [keep|].
    specialize (Hok f w1 eq_refl).
    apply (Inv_core _ _ _ _ Hc) in HI.
    assert (Hrb : rbuf w1 = rbuf w) by (unfold core in Hc; congruence).
    assert (Hp1 : pump w1 = PcRead) by (unfold core in Hc; congruence).
    pose proof HI as []. rewrite Hp1 in inv_pump0.
    constructor; simpl; try done.
    + unfold inflight; simpl. lia.
    + intros f' [= <-]. unfold frame_ok. simpl. by rewrite Hrb.
  - by apply Inv_dispatch.
  - unfold offer, next. intros H. repeat case_match; simplify_eq; keep.
  - done.
Qed.

Lemma Inv_writeFrame w f pick r w' :
  Inv cfg cl w -> writeFrame E w f pick = Ret r w' -> Inv cfg cl w'.
Proof. intros HI H%writeFrame_core. keep. Qed.

Lemma Inv_OpenStream w expired p1 p2 r w' :
  Inv cfg cl w -> OpenStream E w expired p1 p2 = Ret r w' -> Inv cfg cl w'.
Proof.
  intros HI. unfold OpenStream.
  destruct (IsClosed (sess w)); [by intros [= _ <-]|].
  destruct (requireEncryption _ _ _) as [[|]|]; [|by intros [= _ <-]|done].
  set (sid' := wrap_uint32 (nextStreamID (sess w) + 2)).
  set (w2 := set_heap _ _).
  assert (HI2 : Inv cfg cl w2).
  { pose proof HI as []. constructor; simpl; try done.
    - rewrite buffered_app. simpl. unfold len; simpl. lia.
    - unfold sid'. by rewrite wrap_uint32_odd.
    - intros k p H%inv_table0. rewrite fmap_app. by apply lookup_app_l_Some. }
  destruct (writeFrame E w2 _ p2) as [[n [e|]] w3| |q] eqn:Hw; try done; intros [= _ <-];
    pose proof Hw as Hc%writeFrame_core; [keep|].
  apply (Inv_core _ _ _ _ Hc) in HI2.
  assert (Hh : heap w3 = heap w ++ [newStream sid' (MaxFrameSize (config (sess w)))])
    by (unfold core in Hc; injection Hc; intros; subst w2; simpl in *; congruence).
  pose proof HI2 as []. constructor; simpl; try done.
  intros k p. destruct (decide (sid' = k)) as [->|Hne].
  - rewrite lookup_insert_eq. intros [= <-]. rewrite Hh, fmap_app.
    rewrite lookup_app_r by (by rewrite length_fmap).
    by rewrite length_fmap, Nat.sub_diag.
  - rewrite lookup_insert_ne by done. apply inv_table0.
Qed.

Lemma Inv_Stream_Read w p n : Inv cfg cl w -> Inv cfg cl (Stream_Read w p n).2.
Proof.
  intros HI. unfold Stream_Read.
  destruct (heap w !! p) as [st|] eqn:Hst; [|done].
  unfold returnTokens, upd_sess. simpl.
  pose proof (Inv_bucket_range _ _ _ HI) as Hrange.
  pose proof HI as [].
  set (st' := mkStream _ _ _ _ _).
  pose proof (buffered_insert (heap w) p st st' Hst) as Hb.
  pose proof (buffered_nonneg (<[p:=st']> (heap w))) as Hnn.
  pose proof (wrap_int32_range (MaxReceiveBuffer cfg)).
  assert (Hsplit : len (buffer st) = len (take n (buffer st)) + len (buffer st')).
  { unfold len, st'. simpl. rewrite <- Nat2Z.inj_add, <- length_app. by rewrite take_drop. }
  assert (0 <= len (take n (buffer st))) by (unfold len; lia).
  assert (0 <= len (buffer st')) by (unfold len; lia).
  rewrite wrap_int32_add, wrap_int32_id by lia.
  constructor; simpl; try done.
  - lia.
  - unfold inflight in *. simpl. lia.
  - destruct (pump w); try done; intuition lia.
  - erewrite ids_insert; eauto.
Qed.

Lemma Inv_Stream_Close w p pick r w' :
  Inv cfg cl w -> Stream_Close E w p pick = Ret r w' -> Inv cfg cl w'.
Proof.
  intros HI. unfold Stream_Close.
  destruct (heap w !! p) as [st|] eqn:Hst; [|done].
  destruct (dieflag st); [by intros [= _ <-]|].
  set (w1 := set_heap _ w).
  assert (HI1 : Inv cfg cl w1).
  { pose proof HI as []. constructor; simpl; try done.
    - erewrite buffered_insert by done. simpl. lia.
    - erewrite ids_insert; eauto. }
  destruct (streamClosed w1 (id st)) as [[] w2| |q] eqn:Hsc; try done.
  apply (Inv_streamClosed _ _ _ _ _ HI1) in Hsc.
  destruct (writeFrame E w2 _ pick) as [[n e] w3| |q] eqn:Hw; try done.
  intros [= _ <-]. by eapply Inv_writeFrame.
Qed.

Lemma Inv_alloc w bs : Inv cfg cl w -> Inv cfg cl (set_mem (mem_alloc (mem w) bs).1 w).
Proof.
  intros []. constructor; simpl; try done.
  rewrite fmap_app. by apply lookup_app_l_Some.
Qed.

Lemma Inv_step w a w' : Inv cfg cl w -> step E w a = Ret tt w' -> Inv cfg cl w'.
Proof.
  intros HI. destruct a; simpl; unfold forget.
  - by apply Inv_recvLoop_step.
  - destruct (OpenStream E w expired pick1 pick2) as [r w1| |q] eqn:Ho; try done.
    intros [= <-]. by eapply Inv_OpenStream.
  - unfold AcceptStream. intros H. repeat case_match; simplify_eq; keep.
  - intros [= <-]. keep.
  - intros [= <-]. by apply Inv_Stream_Read.
  - destruct (Stream_Close E w p pick) as [r w1| |q] eqn:Ho; try done.
    intros [= <-]. by eapply Inv_Stream_Close.
  - destruct (writeFrame E w f pick) as [r w1| |q] eqn:Ho; try done.
    intros [= <-]. by eapply Inv_writeFrame.
  - intros [= <-]. by apply Inv_alloc.
  - unfold keepalive_ping.
    destruct (writeFrame E w _ pick) as [r w1| |q] eqn:Ho; try done.
    intros [= <-]. by eapply Inv_writeFrame.
  - unfold keepalive_timeout. case_bool_decide; intros [= <-]; keep.
  - destruct (driver w); [|done]. unfold exchangeKeys.
    destruct kx as [[secret sealed]|]; [|intros [= <-]; keep].
    unfold mem_alloc.
    match goal with
    | |- context [writeFrame E ?x ?f ?p] =>
        destruct (writeFrame E x f p) as [r w1| |q] eqn:Ho; try done
    end.
    intros [= <-]. eapply Inv_writeFrame; [|exact Ho].
    match goal with
    | |- Inv _ _ (set_mem (mem ?x ++ [?bs]) ?x) => apply (Inv_alloc x bs)
    end.
    keep.
Qed.

Lemma Inv_run w acts w' : Inv cfg cl w -> run E w acts = Running w' -> Inv cfg cl w'.
Proof.
  revert w. induction acts as [|a acts IH]; intros w HI; simpl.
  - by intros [= <-].
  - destruct (step E w a) as [[] w1| |q] eqn:Hs; [|by apply IH|done].
    apply IH. by eapply Inv_step.
Qed.

Lemma Inv_reachable c enc w : reachable E cfg c enc cl w -> Inv cfg cl w.
Proof. intros [acts H]. eapply Inv_run; [|exact H]. apply Inv_init. Qed.
End Preservation.

(** ** The cipher on the two paths *)

Lemma length_keystream_from E c n : length (keystream_from E c n) = n.
Proof. unfold keystream_from. by rewrite length_map, length_seq. Qed.

Lemma length_xor_bytes a b : length a = length b -> length (xor_bytes a b) = length a.
Proof. intros H. unfold xor_bytes. rewrite length_zip_with. lia. Qed.

Lemma xor_bytes_fixed a k :
  length k = length a -> (xor_bytes a k = a <-> Forall (fun x => x = 0) k).
Proof.
  revert k. induction a as [|x a IH]; intros [|y k]; simpl; try done.
  intros [= Hl]. rewrite Forall_cons. rewrite <- (IH k Hl). split.
  - intros [= Hx Ha]. split; [|done].
    assert (Hy : y = Z.lxor x (Z.lxor x y))
      by (by rewrite <- Z.lxor_assoc, Z.lxor_nilpotent, Z.lxor_0_l).
    by rewrite Hx, Z.lxor_nilpotent in Hy.
  - intros [-> ->]. by rewrite Z.lxor_0_r.
Qed.

Lemma select_ready_writes d pick : is_Some (select_ready [d; true] pick).
Proof.
  unfold select_ready. set (idx := filter _ _).
  assert (Hne : (0 < length idx)%nat) by (destruct d; vm_compute; lia).
  apply lookup_lt_is_Some_2, Nat.mod_upper_bound. lia.
Qed.

(** On a live session the [select] of [writeFrame] hands the request to the
    sender. *)
Lemma select_ready_sound ready pick i :
  select_ready ready pick = Some i -> ready !! i = Some true.
Proof.
  unfold select_ready. intros H%list_elem_of_lookup_2.
  by apply list_elem_of_filter in H as [H _].
Qed.

Lemma select_ready_only ready pick i :
  filter (fun i => ready !! i = Some true) (seq 0 (length ready)) = [i] ->
  select_ready ready pick = Some i.
Proof. unfold select_ready. intros ->. simpl length. by rewrite Nat.mod_1_r. Qed.

Lemma select_ready_alive pick : select_ready [false; true] pick = Some 1%nat.
Proof.
  unfold select_ready. set (idx := filter _ _).
  assert (Hi : idx = [1%nat]) by (vm_compute; reflexivity).
  rewrite Hi. simpl length. by rewrite Nat.mod_1_r.
Qed.

Lemma encrypt_installed E w dst src c :
  cryptStream (sess w) = Some c ->
  encrypt E w dst src =
    (None,
     set_mem (mem_store (mem w) dst
                (xor_bytes (mem_load (mem w) src)
                   (keystream_from E c (length (mem_load (mem w) src)))))
       (upd_sess (set_cryptStream
                    (Some (mkCipher (ckey c) (civ c) (cpos c + len (mem_load (mem w) src))))) w)).
Proof. intros H. unfold encrypt. by rewrite H. Qed.

Lemma writeFrame_PSH_cipher E w c f pick r w' :
  encrypted (sess w) = true -> cmd f = cmdPSH E -> cryptStream (sess w) = Some c ->
  slice_ok (mem w) (data f) ->
  writeFrame E w f pick = Ret r w' ->
  cryptStream (sess w') =
    Some (mkCipher (ckey c) (civ c) (cpos c + Z.of_nat (sl_len (data f)))).
Proof.
  intros Henc Hcmd Hc Hok. unfold writeFrame.
  rewrite Henc, Hcmd, bool_decide_eq_true_2 by done. simpl.
  rewrite (encrypt_installed E w _ _ c Hc).
  unfold len. rewrite (length_mem_load _ _ Hok).
  destruct (select_ready _ _) as [[|k]|]; [by intros [= _ <-]| |done].
  intros (_ & ->)%sendLoop_serve_mem. done.
Qed.

Lemma readFrame_PSH_cipher E w c f w' :
  encrypted (sess w) = true -> cryptStream (sess w) = Some c ->
  (length <$> mem w) !! rbuf w = Some (Z.to_nat bufferSize) ->
  readFrame E w (rbuf w) = Ret (f, None) w' -> cmd f = cmdPSH E ->
  cryptStream (sess w') =
    Some (mkCipher (ckey c) (civ c) (cpos c + Z.of_nat (sl_len (data f)))).
Proof.
  intros Henc Hc Hbuf. unfold readFrame.
  assert (Hsame : Some c = Some (mkCipher (ckey c) (civ c) (cpos c + Z.of_nat 0)))
    by (destruct c; simpl; do 2 f_equal; lia).
  destruct (ReadFull _ _) as [[dec [e|]] c1]; [done|].
  case_decide; [done|]. case_decide.
  - case_decide; [done|].
    destruct (ReadFull c1 _) as [[body [e|]] c2]; [done|].
    set (w2 := set_mem _ _). simpl.
    pose proof (wrap_uint16_range (headerSize + hdr_Length dec)) as Hr.
    assert (Hok : slice_ok (mem w2)
                    (Slice (rbuf w) (Z.to_nat headerSize)
                       (Z.to_nat (wrap_uint16 (headerSize + hdr_Length dec) - headerSize)))).
    { assert (Hl : (length <$> mem w2) !! rbuf w = Some (Z.to_nat bufferSize))
        by (subst w2; simpl; by rewrite !mem_write_lengths).
      rewrite list_lookup_fmap in Hl.
      destruct (mem w2 !! rbuf w) as [a|] eqn:Ha; [|done].
      exists a. split; [done|]. simpl in *. injection Hl as ->.
      rewrite bufferSize_eq. unfold headerSize in *. lia. }
    destruct (bool_decide _) eqn:Hcmd; rewrite Henc; simpl.
    + unfold decrypt. rewrite (encrypt_installed E w2 _ _ c) by done.
      unfold len. rewrite (length_mem_load _ _ Hok). by intros [= <- <-].
    + apply bool_decide_eq_false in Hcmd. intros [= <- _]. done.
  - intros [= <- <-] _. simpl. by rewrite Hc, Hsame.
Qed.


(** ** Who reads from the transport *)

Lemma same_rx_trans w1 w2 w3 : same_rx w1 w2 -> same_rx w2 w3 -> same_rx w1 w3.
Proof. unfold same_rx. congruence. Qed.

Lemma same_rx_Close w : same_rx w (Close w).2.
Proof. unfold same_rx, Close. by destruct (die (sess w)). Qed.

Lemma same_rx_setEncryptionStream key w : same_rx w (setEncryptionStream key w).2.
Proof. unfold same_rx, setEncryptionStream. by case_bool_decide. Qed.

Lemma same_rx_encrypt E w dst src : same_rx w (encrypt E w dst src).2.
Proof. unfold same_rx, encrypt. by destruct (cryptStream (sess w)). Qed.

Lemma same_rx_sendLoop_serve w f r w' : sendLoop_serve w f = Ret r w' -> same_rx w w'.
Proof.
  unfold same_rx, sendLoop_serve, conn_Write. case_decide; [|done].
  destruct (write_answer _ _) as [n err]. by intros [= _ <-].
Qed.

Lemma same_rx_writeFrame E w f pick r w' : writeFrame E w f pick = Ret r w' -> same_rx w w'.
Proof.
  unfold writeFrame.
  destruct (encrypted (sess w) && bool_decide (cmd f = cmdPSH E)).
  - pose proof (same_rx_encrypt E w (data f) (data f)) as Hq.
    destruct (encrypt E w (data f) (data f)) as [[e|] w1]; simpl in Hq.
    + by intros [= _ <-].
    + destruct (select_ready _ _) as [[|k]|]; [by intros [= _ <-]| |done].
      intros H%same_rx_sendLoop_serve. by eapply same_rx_trans.
  - destruct (select_ready _ _) as [[|k]|]; [by intros [= _ <-]| |done].
    apply same_rx_sendLoop_serve.
Qed.

Ltac rxs :=
  repeat match goal with
  | |- same_rx ?x ?x => reflexivity
  | H : same_rx ?x ?y |- same_rx _ ?y => apply (same_rx_trans _ x); [|exact H]
  | |- same_rx _ (Close ?x).2 => apply (same_rx_trans _ x); [|apply same_rx_Close]
  | |- same_rx _ (setEncryptionStream ?k ?x).2 =>
      apply (same_rx_trans _ x); [|apply same_rx_setEncryptionStream]
  | |- same_rx _ (set_pump _ ?x) => apply (same_rx_trans _ x); [|reflexivity]
  | |- same_rx _ (set_lastFrame _ ?x) => apply (same_rx_trans _ x); [|reflexivity]
  | |- same_rx _ (set_driver _ ?x) => apply (same_rx_trans _ x); [|reflexivity]
  | |- same_rx _ (set_heap _ ?x) => apply (same_rx_trans _ x); [|reflexivity]
  | |- same_rx _ (set_mem _ ?x) => apply (same_rx_trans _ x); [|reflexivity]
  | |- same_rx _ (upd_sess _ ?x) => apply (same_rx_trans _ x); [|reflexivity]
  | |- same_rx _ (returnTokens ?x _) => apply (same_rx_trans _ x); [|reflexivity]
  end.

Section Reads.
Variable E : Env.

Ltac cases :=
  repeat case_match; simplify_eq;
  repeat match goal with u : unit |- _ => destruct u end;
  repeat match goal with
  | H : writeFrame _ _ _ _ = Ret _ _ |- _ => apply same_rx_writeFrame in H
  end.

Lemma same_rx_dispatch w f pick w' : dispatch E w f pick = Ret tt w' -> same_rx w w'.
Proof.
  unfold dispatch, offer, next, leave, close_chEncryptionReady. intros H. cases; rxs.
Qed.

Lemma same_rx_streamClosed w sid w' : streamClosed w sid = Ret tt w' -> same_rx w w'.
Proof. unfold streamClosed, recycleTokens. intros H. cases; rxs. Qed.

(** Only the pump's [readFrame] takes bytes from the transport. *)
Lemma step_reads w a w' :
  step E w a = Ret tt w' ->
  (pump w = PcRead /\ exists pick, a = ARecv pick) \/ same_rx w w'.
Proof.
  intros Hs.
  destruct a; simpl in Hs; unfold forget in Hs.
  - unfold recvLoop_step, leave in Hs.
    destruct (pump w) as [| | |f|f p|] eqn:Hp.
    + right. cases; rxs.
    + right. cases; rxs.
    + left. split; [done|]. by eexists.
    + right. by apply (same_rx_dispatch w f pick).
    + right. unfold offer, next in Hs. cases; rxs.
    + done.
  - right. unfold OpenStream in Hs. cases; rxs.
  - right. unfold AcceptStream in Hs. cases; rxs.
  - right. simplify_eq. rxs.
  - right. unfold Stream_Read in Hs. cases; simpl; rxs.
  - right. unfold Stream_Close in Hs. cases; [rxs|].
    match goal with H : streamClosed _ _ = Ret _ _ |- _ => apply same_rx_streamClosed in H end.
    rxs.
  - right. cases; rxs.
  - right. simplify_eq. rxs.
  - right. unfold keepalive_ping in Hs. cases; rxs.
  - right. unfold keepalive_timeout in Hs. cases; rxs.
  - right. unfold exchangeKeys, mem_alloc in Hs. cases; rxs.
Qed.
End Reads.

(** * The statements of the specification *)

Lemma test_env_distinct : cmds_distinct test_env.
Proof.
  unfold cmds_distinct. simpl. rewrite !NoDup_cons, !not_elem_of_cons.
  repeat split; try lia; try apply not_elem_of_nil. apply NoDup_nil_2.
Qed.

Lemma world_after_reachable cfg c enc cl acts :
  runs (newSession cfg c enc cl) acts = true ->
  reachable test_env cfg c enc cl (world_after (newSession cfg c enc cl) acts).
Proof.
  unfold runs, world_after. intros H. exists acts.
  by destruct (run test_env (newSession cfg c enc cl) acts).
Qed.

Lemma ret_eta {A} (o : outcome A) r d : result_of o = Some r -> o = Ret r (world_of o d).
Proof. destruct o; simpl; congruence. Qed.

Lemma wrap_int32_le z : 0 <= z -> wrap_int32 z <= z.
Proof.
  intros Hz. destruct (decide (z < 2 ^ 31)).
  - rewrite wrap_int32_id; lia.
  - pose proof (wrap_int32_range z). lia.
Qed.

Lemma inflight_nonneg w : 0 <= inflight w.
Proof. unfold inflight. destruct (lastFrame w); lia. Qed.

(** ** C1: the cipher of a session *)

(** C1, as amended.  An encrypted session holds one stream cipher:
    [setEncryptionStream] makes it from the 32-byte session key with a zero
    IV, at the head of its keystream, and records the key.  The outbound
    and the inbound path both run on it: a PSH frame written by
    [writeFrame] moves the keystream offset at which the next inbound
    payload is decrypted by the length of its payload, and a PSH frame read
    by [readFrame] moves the offset at which the next outbound payload is
    encrypted by the length of its payload. *)
Theorem one_cipher_for_both_directions E w key :
  length key = 32%nat ->
  exists w',
    setEncryptionStream key w = (None, w') /\
    cryptStream (sess w') = Some (mkCipher key zero_iv 0) /\
    encryptionKey (sess w') = Some key /\
    (forall w1 c f pick r w2,
        encrypted (sess w1) = true -> cmd f = cmdPSH E ->
        cryptStream (sess w1) = Some c -> slice_ok (mem w1) (data f) ->
        writeFrame E w1 f pick = Ret r w2 ->
        inbound_offset w2 = Some (cpos c + Z.of_nat (sl_len (data f)))) /\
    (forall w1 c f w2,
        encrypted (sess w1) = true -> cmd f = cmdPSH E ->
        cryptStream (sess w1) = Some c ->
        (length <$> mem w1) !! rbuf w1 = Some (Z.to_nat bufferSize) ->
        readFrame E w1 (rbuf w1) = Ret (f, None) w2 ->
        outbound_offset w2 = Some (cpos c + Z.of_nat (sl_len (data f)))).
Proof.
  intros Hk. unfold setEncryptionStream. rewrite Hk.
  rewrite bool_decide_eq_true_2 by set_solver.
  eexists. split; [done|]. split; [done|]. split; [done|]. split.
  - intros w1 c f pick r w2 Henc Hcmd Hc Hok Hw. unfold inbound_offset.
    by rewrite (writeFrame_PSH_cipher E w1 c f pick r w2).
  - intros w1 c f w2 Henc Hcmd Hc Hbuf Hr. unfold outbound_offset.
    by rewrite (readFrame_PSH_cipher E w1 c f w2).
Qed.

Lemma one_cipher_for_both_directions_witness :
  exists w', setEncryptionStream test_key cipher_world = (None, w') /\
             cryptStream (sess w') = Some (mkCipher test_key zero_iv 0).
Proof.
  destruct (one_cipher_for_both_directions test_env cipher_world test_key)
    as (w' & H1 & H2 & _); [reflexivity|].
  exists w'. split; [exact H1|exact H2].
Defined.

(** C1 as stated fails: the send path and the receive path share the
    cipher.  On [cipher_world] the next inbound payload would be decrypted at
    keystream offset 0; after one outbound PSH frame of 4 bytes it is
    decrypted at offset 4, and the same bytes from the peer reach stream 3
    as a different payload. *)
Lemma outbound_write_moves_inbound_cipher :
  inbound_offset cipher_world = Some 0 /\
  inbound_offset (world_after cipher_world [AWriteFrame out_frame 0]) = Some 4 /\
  buffer <$> heap (world_after cipher_world (replicate 4 (ARecv 0)))
  <> buffer <$> heap (world_after cipher_world
                        (AWriteFrame out_frame 0 :: replicate 4 (ARecv 0))).
Proof. vm_compute. repeat split; congruence. Qed.

(** A KXS frame that reaches a session whose ready signal has fired makes
    the pump close the signal again. *)
Lemma KXS_after_ready_panics E w f pick :
  cmds_distinct E -> cmd f = cmdKXS E ->
  encryptionReady (sess w) <> 0 -> chEncryptionReady (sess w) = true ->
  dispatch E w f pick = Crash CloseOfClosedChannel.
Proof.
  intros HE Hc Hr Hch. dispatch_on HE Hc.
  rewrite bool_decide_eq_false_2 by done. unfold close_chEncryptionReady. by rewrite Hch.
Qed.

(** Neither readiness flag goes back. *)
Lemma ready_stays E w acts w' :
  run E w acts = Running w' ->
  (encryptionReady (sess w) = 1 -> encryptionReady (sess w') = 1) /\
  (chEncryptionReady (sess w) = true -> chEncryptionReady (sess w') = true).
Proof. intros H. pose proof (evolves_run E _ _ _ H) as []. by split. Qed.

(** A server is ready after KXR and KXS, and the pump panics on the KXS
    that follows. *)
Lemma server_repeated_KXS :
  chEncryptionReady
    (sess (world_after (newSession test_config repeated_KXS_conn true false)
             (replicate 8 (ARecv 0)))) = true /\
  run test_env (newSession test_config repeated_KXS_conn true false) (replicate 12 (ARecv 0))
  = Panicked CloseOfClosedChannel.
Proof. vm_compute. split; reflexivity. Qed.

(** ** C2: the ready signal *)

(** C2, at the failing input.  An encrypted client receives two KXS frames:
    the first sets the readiness flag and closes [chEncryptionReady]; the
    second finds the flag set and closes the channel again, which is the
    run-time panic "close of closed channel". *)
Theorem duplicate_KXS_closes_ready_twice :
  run test_env
    (newSession test_config (test_conn (wire_frame 1 5 0 [] ++ wire_frame 1 5 0 [])) true true)
    (replicate 8 (ARecv 0)) = Panicked CloseOfClosedChannel.
Proof. vm_compute. reflexivity. Qed.

(** ** C3: the receive pump and the bucket *)

(** C3, as amended.  In every reachable world of a session with a
    non-negative [MaxReceiveBuffer]: a step takes bytes from the transport
    only when the bucket is strictly positive (and such a step is the
    pump's [readFrame]); the bucket and the buffered unread bytes of all
    streams add up to the initial bucket; and the buffered unread bytes
    never exceed [MaxReceiveBuffer] plus the payload of the frame the pump
    read last, whether its dispatch is in progress or over. *)
Theorem pump_reads_only_with_tokens E cfg c enc cl w :
  0 <= MaxReceiveBuffer cfg ->
  reachable E cfg c enc cl w ->
  (forall a w', step E w a = Ret tt w' ->
                rx (conn (sess w')) <> rx (conn (sess w)) -> 0 < bucket (sess w)) /\
  (pump w = PcRead -> 0 < bucket (sess w)) /\
  bucket (sess w) + buffered (heap w) = wrap_int32 (MaxReceiveBuffer cfg) /\
  buffered (heap w) <= MaxReceiveBuffer cfg + inflight w.
Proof.
  intros Hcfg Hr. pose proof (Inv_reachable E cfg cl c enc w Hr) as HI.
  assert (Hread : pump w = PcRead -> 0 < bucket (sess w)).
  { intros Hp. pose proof (inv_pump _ _ _ HI) as H. by rewrite Hp in H. }
  split; [|split; [done|split]].
  - intros a w' Hs Hne. destruct (step_reads E w a w' Hs) as [[Hp _]|Hsame]; [auto|].
    by destruct Hne.
  - apply (inv_tokens _ _ _ HI).
  - pose proof (inv_tokens _ _ _ HI). pose proof (inv_floor _ _ _ HI).
    pose proof (wrap_int32_le _ Hcfg). pose proof (inflight_nonneg w).
    pose proof (buffered_nonneg (heap w)). lia.
Qed.

Lemma pump_reads_only_with_tokens_witness :
  buffered (heap flood_world) <= MaxReceiveBuffer tiny_config + inflight flood_world.
Proof.
  apply (pump_reads_only_with_tokens test_env tiny_config flood_conn false false flood_world).
  - vm_compute. discriminate.
  - apply (world_after_reachable tiny_config flood_conn false false (replicate 8 (ARecv 0))).
    vm_compute. reflexivity.
Defined.

(** C3 as stated fails once the dispatch is over: in [flood_world] the pump
    is back at its wait, no frame is being dispatched, and 5 bytes are
    buffered against a [MaxReceiveBuffer] of 2. *)
Lemma overshoot_outlives_dispatch :
  reachable test_env tiny_config flood_conn false false flood_world /\
  pump flood_world = PcWait /\
  ~ buffered (heap flood_world) <= MaxReceiveBuffer tiny_config + dispatching flood_world.
Proof.
  split; [|split].
  - apply (world_after_reachable tiny_config flood_conn false false (replicate 8 (ARecv 0))).
    vm_compute. reflexivity.
  - vm_compute. reflexivity.
  - vm_compute. intros H. apply H. reflexivity.
Qed.

(** ** C4: closing a session *)

(** C4, as amended.  The first call of [Session.Close] returns what closing
    the transport returns, which is no error when the transport closes
    without one; after it the session is dead, and every later call,
    whatever happened in between, returns BrokenPipe. *)
Theorem Close_first_then_BrokenPipe E w acts w' :
  die (sess w) = false ->
  run E (Close w).2 acts = Running w' ->
  (Close w).1 = close_answer (conn (sess w)) /\
  die (sess (Close w).2) = true /\
  (Close w').1 = Some errBrokenPipe.
Proof.
  intros Hd Hrun. split; [|split].
  - unfold Close. by rewrite Hd.
  - apply Close_die.
  - rewrite Close_again; [done|].
    apply (ev_die _ _ (evolves_run E _ _ _ Hrun)), Close_die.
Qed.

Lemma Close_first_then_BrokenPipe_witness :
  (Close kxr_world).1 = close_answer (conn (sess kxr_world)) /\
  die (sess (Close kxr_world).2) = true /\
  (Close (Close kxr_world).2).1 = Some errBrokenPipe.
Proof.
  apply (Close_first_then_BrokenPipe test_env kxr_world [] (Close kxr_world).2).
  - vm_compute. reflexivity.
  - reflexivity.
Defined.

(** C4 as stated fails on a transport whose [Close] fails: the first call
    returns the transport's error. *)
Lemma Close_reports_transport_error :
  die (sess (newSession test_config failing_close_conn false true)) = false /\
  (Close (newSession test_config failing_close_conn false true)).1 = Some (errTransport 1).
Proof. vm_compute. split; reflexivity. Qed.

(** ** C5: stream ids *)

(** C5, as amended.  A session starts with [nextStreamID] 1 as a client
    and 2 as a server, and [OpenStream] allocates the id after it: every
    stream [OpenStream] returns has an odd id on a client and an even id on
    a server, the first being 3 on a client and 4 on a server; the stream
    is entered in the table under its id, and no two streams of the
    session's table share an id. *)
Theorem OpenStream_allocates_by_role E cfg c enc cl w expired p1 p2 p w' :
  reachable E cfg c enc cl w ->
  OpenStream E w expired p1 p2 = Ret (Some p, None) w' ->
  nextStreamID (sess (newSession cfg c enc cl)) = (if cl then 1 else 2) /\
  exists st,
    heap w' !! p = Some st /\
    id st = wrap_uint32 (nextStreamID (sess w) + 2) /\
    nextStreamID (sess w') = id st /\
    Z.odd (id st) = cl /\
    (nextStreamID (sess w) = (if cl then 1 else 2) -> id st = (if cl then 3 else 4)) /\
    streams (sess w') !! id st = Some p /\
    (forall k1 k2 q1 q2 st1 st2,
        streams (sess w') !! k1 = Some q1 -> streams (sess w') !! k2 = Some q2 ->
        heap w' !! q1 = Some st1 -> heap w' !! q2 = Some st2 ->
        q1 <> q2 -> id st1 <> id st2).
Proof.
  intros Hr Ho. split; [done|].
  pose proof (Inv_reachable E cfg cl c enc w Hr) as HI.
  pose proof (Inv_OpenStream E cfg cl _ _ _ _ _ _ HI Ho) as HI'.
  revert Ho. unfold OpenStream.
  destruct (IsClosed (sess w)); [done|].
  destruct (requireEncryption _ _ _) as [[|]|]; [|done|done].
  set (sid' := wrap_uint32 (nextStreamID (sess w) + 2)).
  set (w2 := set_heap _ _).
  destruct (writeFrame E w2 _ p2) as [[n [e|]] w3| |q] eqn:Hw; try done.
  intros [= <- <-].
  apply writeFrame_core in Hw. unfold core in Hw.
  injection Hw as Hh _ _ _ _ _ _ _ Hn _ _ _ _ _ _ _ _.
  subst w2. simpl in *.
  exists (newStream sid' (MaxFrameSize (config (sess w)))).
  split; [|split; [done|split; [done|split; [|split; [|split]]]]].
  - rewrite Hh. by rewrite lookup_app_r, Nat.sub_diag.
  - simpl. unfold sid'. rewrite wrap_uint32_odd. apply (inv_parity _ _ _ HI).
  - simpl. unfold sid'. intros ->. by destruct cl.
  - simpl. by rewrite lookup_insert_eq.
  - intros k1 k2 q1 q2 st1 st2 H1 H2 Hq1 Hq2 Hne Hid.
    pose proof (inv_table _ _ _ HI' _ _ H1) as T1.
    pose proof (inv_table _ _ _ HI' _ _ H2) as T2.
    simpl in T1, T2. rewrite list_lookup_fmap in T1, T2.
    rewrite Hq1 in T1. rewrite Hq2 in T2. simpl in *.
    simplify_eq. congruence.
Qed.

Lemma OpenStream_allocates_by_role_witness :
  exists st w',
    OpenStream test_env (newSession test_config (test_conn []) false true) false 0 0
    = Ret (Some 0%nat, None) w' /\
    heap w' !! 0%nat = Some st /\ id st = 3.
Proof.
  pose proof (ret_eta (OpenStream test_env (newSession test_config (test_conn []) false true)
                         false 0 0)
                (Some 0%nat, None) (newSession test_config (test_conn []) false true)) as Ho.
  destruct (OpenStream_allocates_by_role test_env test_config (test_conn []) false true
              (newSession test_config (test_conn []) false true) false 0 0 0
              (world_of (OpenStream test_env (newSession test_config (test_conn []) false true)
                           false 0 0)
                 (newSession test_config (test_conn []) false true)))
    as (_ & st & H1 & _ & _ & _ & H5 & _).
  - exists []. reflexivity.
  - apply Ho. vm_compute. reflexivity.
  - exists st. eexists. split; [apply Ho; vm_compute; reflexivity|].
    split; [exact H1|]. apply H5. reflexivity.
Defined.

(** C5 as stated fails: the first id [OpenStream] allocates is 3 on a
    client and 4 on a server, not 1 and 2.  And two stream objects of one
    session can carry the same id: when the peer has opened stream 3, the
    client's first [OpenStream] makes a second stream 3 and the table entry
    goes over to it. *)
Lemma first_stream_id_is_not_1 :
  (id <$> heap (world_after (newSession test_config (test_conn []) false true)
                  [AOpenStream false 0 0])) = [3] /\
  (id <$> heap (world_after (newSession test_config (test_conn []) false false)
                  [AOpenStream false 0 0])) = [4] /\
  id <$> heap twin_world = [3; 3] /\
  streams (sess twin_world) !! 3 = Some 1%nat.
Proof. vm_compute. repeat split; reflexivity. Qed.

(** ** C6: KXR on a client *)

(** C6, as amended.  A client ignores a KXR frame: the dispatch changes
    nothing in the session and the pump goes on to its next frame. *)
Theorem client_ignores_KXR E w f pick :
  cmds_distinct E -> client (sess w) = true -> pump w = PcDispatch f -> cmd f = cmdKXR E ->
  recvLoop_step E w pick = Ret tt (set_pump PcWait w).
Proof.
  intros HE Hcl Hp Hc. unfold recvLoop_step. rewrite Hp.
  dispatch_on HE Hc. by rewrite Hcl.
Qed.

Lemma client_ignores_KXR_witness :
  recvLoop_step test_env kxr_world 0 = Ret tt (set_pump PcWait kxr_world).
Proof.
  apply (client_ignores_KXR test_env kxr_world kxr_frame 0).
  - exact test_env_distinct.
  - vm_compute. reflexivity.
  - vm_compute. reflexivity.
  - reflexivity.
Defined.

(** C6 as stated fails: after a client has read and dispatched a KXR frame
    the session is still open and the pump waits for the next frame. *)
Lemma client_survives_KXR :
  cmd <$> lastFrame (world_after kxr_world [ARecv 0]) = Some (cmdKXR test_env) /\
  client (sess (world_after kxr_world [ARecv 0])) = true /\
  die (sess (world_after kxr_world [ARecv 0])) = false /\
  pump (world_after kxr_world [ARecv 0]) = PcWait.
Proof. vm_compute. repeat split; reflexivity. Qed.

(** ** C7: the version byte *)

(** C7, as amended.  When the pump is about to read and the next header on
    the transport carries a version other than the protocol constant,
    [readFrame] fails with InvalidProtocol, the pump closes the session and
    returns; from then on [OpenStream] returns BrokenPipe, an
    [AcceptStream] that is past the encryption check and waits on the empty
    accept queue returns BrokenPipe, and [Close] returns BrokenPipe.  On an
    encrypted session whose handshake has not finished, [AcceptStream] does
    not observe BrokenPipe: it returns EncryptionNotReady once the handshake
    ticker has fired, and waits until then. *)
Theorem version_mismatch_closes_session E w pick :
  pump w = PcRead ->
  conn_closed (conn (sess w)) = false ->
  (Z.to_nat headerSize <= length (rx (conn (sess w))))%nat ->
  hdr_Version (rx (conn (sess w))) <> version E ->
  (exists w1, readFrame E w (rbuf w) = Ret (zeroFrame, Some errInvalidProtocol) w1) /\
  exists w', recvLoop_step E w pick = Ret tt w' /\
    die (sess w') = true /\ pump w' = PcExit /\
    (forall expired p1 p2,
        OpenStream E w' expired p1 p2 = Ret (None, Some errBrokenPipe) w') /\
    (forall expired p1 p2,
        requireEncryption (sess w') expired p1 = Some true ->
        chAccepts (sess w') = [] ->
        AcceptStream w' expired false p1 p2 = Ret (None, Some errBrokenPipe) w') /\
    (encrypted (sess w) = true -> chEncryptionReady (sess w) = false ->
     forall fired p1 p2,
       AcceptStream w' true fired p1 p2 = Ret (None, Some errEncryptionNotReady) w' /\
       AcceptStream w' false fired p1 p2 = Blocked) /\
    (Close w').1 = Some errBrokenPipe.
Proof.
  intros Hp Hopen Hlen Hv.
  assert (Hr : exists w1, readFrame E w (rbuf w) = Ret (zeroFrame, Some errInvalidProtocol) w1).
  { unfold readFrame, ReadFull. rewrite Hopen. rewrite decide_True by done.
    rewrite decide_True; [by eexists|].
    intros Heq. apply Hv. rewrite <- Heq. unfold hdr_Version.
    destruct (rx (conn (sess w))); simpl in *; [lia|done]. }
  destruct Hr as [w1 Hr]. split; [by exists w1|].
  exists (set_pump PcExit (Close w1).2).
  assert (Hd : die (sess (set_pump PcExit (Close w1).2)) = true) by apply Close_die.
  split; [|split; [done|split; [done|split; [|split; [|split]]]]].
  - unfold recvLoop_step. by rewrite Hp, Hr.
  - intros. unfold OpenStream, IsClosed. by rewrite Hd.
  - intros expired p1 p2 Hre Hq. unfold AcceptStream. rewrite Hre, Hq, Hd. done.
  - intros Henc Hch fired p1 p2.
    pose proof (readFrame_core E _ _ _ _ Hr) as Hc. unfold core in Hc.
    assert (He' : encrypted (sess (set_pump PcExit (Close w1).2)) = true).
    { simpl. unfold Close. destruct (die (sess w1)); simpl; congruence. }
    assert (Hc' : chEncryptionReady (sess (set_pump PcExit (Close w1).2)) = false).
    { simpl. unfold Close. destruct (die (sess w1)); simpl; congruence. }
    unfold AcceptStream, requireEncryption. rewrite He', Hc'. split; [|done].
    by rewrite (select_ready_only _ _ 1%nat).
  - by rewrite Close_again.
Qed.

Lemma version_mismatch_closes_session_witness :
  exists w1, readFrame test_env mismatch_world (rbuf mismatch_world)
             = Ret (zeroFrame, Some errInvalidProtocol) w1.
Proof.
  apply (version_mismatch_closes_session test_env mismatch_world 0).
  - vm_compute. reflexivity.
  - vm_compute. reflexivity.
  - vm_compute. lia.
  - vm_compute. discriminate.
Defined.

(** C7 as stated fails for the calls that wait for the handshake.  On an
    encrypted client whose handshake has not finished, a frame of version
    9 makes the pump close the session; an [AcceptStream] whose handshake
    ticker fires then returns EncryptionNotReady, not BrokenPipe. *)
Lemma mismatch_leaves_AcceptStream_unready :
  pump handshake_mismatch_world = PcRead /\
  hdr_Version (rx (conn (sess handshake_mismatch_world))) <> version test_env /\
  die (sess (world_after handshake_mismatch_world [ARecv 0])) = true /\
  pump (world_after handshake_mismatch_world [ARecv 0]) = PcExit /\
  result_of (AcceptStream (world_after handshake_mismatch_world [ARecv 0]) true false 0 0)
  = Some (None, Some errEncryptionNotReady).
Proof. vm_compute. repeat split; congruence. Qed.

(** ** C8: the count the sender reports *)

(** C8.  For a request that fits the pooled buffer, when the transport
    answers the write of header and payload with [n] bytes accepted,
    [sendLoop] reports [n - headerSize], or 0 when that is negative,
    together with the transport's error; the caller of [writeFrame] on a
    live session receives that count. *)
Theorem sendLoop_reports_floor w f n err :
  headerSize + Z.of_nat (sl_len (data f)) <= bufferSize ->
  write_answer (conn (sess w)) (frame_bytes (mem w) f) = (n, err) ->
  - 2 ^ 63 + headerSize <= n < 2 ^ 63 ->
  exists w',
    sendLoop_serve w f = Ret (Z.max 0 (n - headerSize), err) w' /\
    (forall E pick,
        die (sess w) = false ->
        encrypted (sess w) && bool_decide (cmd f = cmdPSH E) = false ->
        writeFrame E w f pick = Ret (Z.max 0 (n - headerSize), err) w').
Proof.
  intros Hfit Hans Hn.
  assert (Hs : exists w', sendLoop_serve w f = Ret (Z.max 0 (n - headerSize), err) w').
  { unfold sendLoop_serve, conn_Write.
    rewrite decide_True by done. rewrite Hans.
    rewrite wrap_int_id by (unfold headerSize in *; lia).
    eexists. f_equal. f_equal. case_decide; lia. }
  destruct Hs as [w' Hs]. exists w'. split; [done|].
  intros E pick Hd Hp. unfold writeFrame. rewrite Hp, Hd.
  by rewrite select_ready_alive.
Qed.

Lemma sendLoop_reports_floor_witness :
  exists w', sendLoop_serve (newSession test_config short_conn false true)
               (newFrame test_env (cmdNOP test_env) 0)
             = Ret (0, Some (errTransport 2)) w'.
Proof.
  destruct (sendLoop_reports_floor (newSession test_config short_conn false true)
              (newFrame test_env (cmdNOP test_env) 0) 3 (Some (errTransport 2)))
    as (w' & H & _).
  - rewrite bufferSize_eq. unfold headerSize. simpl. lia.
  - reflexivity.
  - unfold headerSize. lia.
  - exists w'. exact H.
Defined.

(** ** C9: the caller's buffer *)

(** C9.  On an encrypted session with its cipher installed, [writeFrame] of
    a PSH frame over a slice of at most [2^16] bytes XORs the payload with
    the keystream in the caller's slice, then hands the request to the
    sender, which sees the world after the encryption; when the call
    returns, with a count or with BrokenPipe, the caller's slice holds the
    ciphertext, which is the plaintext only where the keystream is zero. *)
Theorem writeFrame_encrypts_in_place E w f pick c :
  encrypted (sess w) = true ->
  cmd f = cmdPSH E ->
  cryptStream (sess w) = Some c ->
  slice_ok (mem w) (data f) ->
  Z.of_nat (sl_len (data f)) <= 2 ^ 16 ->
  let plain := mem_load (mem w) (data f) in
  let sealed := xor_bytes plain (keystream_from E c (length plain)) in
  exists w1 r w',
    encrypt E w (data f) (data f) = (None, w1) /\
    mem_load (mem w1) (data f) = sealed /\
    writeFrame E w f pick =
      match select_ready [die (sess w); true] pick with
      | Some O => Ret (0, Some errBrokenPipe) w1
      | _ => sendLoop_serve w1 f
      end /\
    writeFrame E w f pick = Ret r w' /\
    mem_load (mem w') (data f) = sealed /\
    (sealed = plain <-> Forall (fun k => k = 0) (keystream_from E c (length plain))).
Proof.
  intros Henc Hcmd Hc Hok Hfit plain sealed.
  pose proof (encrypt_installed E w (data f) (data f) c Hc) as He.
  fold plain in He. fold sealed in He.
  set (w1 := set_mem _ _) in He.
  assert (Hload : mem_load (mem w1) (data f) = sealed).
  { subst w1. simpl. apply mem_load_store; [done|].
    unfold sealed. rewrite length_xor_bytes by (by rewrite length_keystream_from).
    by apply length_mem_load. }
  assert (Hw : writeFrame E w f pick =
               match select_ready [die (sess w); true] pick with
               | Some O => Ret (0, Some errBrokenPipe) w1
               | _ => sendLoop_serve w1 f
               end).
  { unfold writeFrame. rewrite Henc, Hcmd, bool_decide_eq_true_2 by done. simpl.
    rewrite He. subst w1. simpl.
    destruct (select_ready _ _) as [[|k]|] eqn:Hs; try done.
    by destruct (select_ready_writes (die (sess w)) pick) as [? ?]; simplify_eq. }
  assert (Hserve : exists r w', sendLoop_serve w1 f = Ret r w' /\ mem w' = mem w1).
  { unfold sendLoop_serve, conn_Write.
    rewrite decide_True by (rewrite bufferSize_eq; unfold headerSize; lia).
    destruct (write_answer _ _) as [n err]. by eexists _, _. }
  destruct Hserve as (r & w' & Hs & Hm).
  exists w1.
  destruct (select_ready [die (sess w); true] pick) as [[|k]|] eqn:Hsel.
  - exists (0, Some errBrokenPipe), w1. repeat split; try done.
    all: by apply xor_bytes_fixed, length_keystream_from.
  - exists r, w'. rewrite Hm. repeat split; try done; try congruence.
    all: by apply xor_bytes_fixed, length_keystream_from.
  - exists r, w'. rewrite Hm. repeat split; try done; try congruence.
    all: by apply xor_bytes_fixed, length_keystream_from.
Qed.

Lemma writeFrame_encrypts_in_place_witness :
  exists w1 r w',
    encrypt test_env cipher_world (data out_frame) (data out_frame) = (None, w1) /\
    writeFrame test_env cipher_world out_frame 0 = Ret r w' /\
    mem_load (mem w') (data out_frame) = [7; 5; 11; 13].
Proof.
  destruct (writeFrame_encrypts_in_place test_env cipher_world out_frame 0
              (mkCipher test_key zero_iv 0))
    as (w1 & r & w' & H1 & _ & _ & H4 & H5 & _).
  - vm_compute. reflexivity.
  - reflexivity.
  - vm_compute. reflexivity.
  - exists [1; 2; 3; 4]. split; [vm_compute; reflexivity|simpl; lia].
  - vm_compute. discriminate.
  - exists w1, r, w'. split; [exact H1|]. split; [exact H4|].
    rewrite H5. vm_compute. reflexivity.
Defined.

(** ** C10: PSH for an unknown stream *)

(** C10.  When the pump dispatches a PSH frame whose stream id is not in
    the stream table, the bucket, the stream objects and the table stay as
    they are; when the id is in the table, the bucket goes down by the
    payload length, in 32-bit arithmetic, and the payload is appended to
    that stream's buffer. *)
Theorem PSH_moves_bucket_only_for_known_stream E w f pick :
  cmds_distinct E -> pump w = PcDispatch f -> cmd f = cmdPSH E ->
  (streams (sess w) !! sid f = None ->
   exists w', recvLoop_step E w pick = Ret tt w' /\
     bucket (sess w') = bucket (sess w) /\ heap w' = heap w /\
     streams (sess w') = streams (sess w)) /\
  (forall p, streams (sess w) !! sid f = Some p ->
   exists w', recvLoop_step E w pick = Ret tt w' /\
     bucket (sess w') = wrap_int32 (bucket (sess w) - Z.of_nat (sl_len (data f))) /\
     heap w' = alter (fun st => pushBytes st (mem_load (mem w) (data f))) p (heap w)).
Proof.
  intros HE Hp Hc. unfold recvLoop_step. rewrite Hp.
  dispatch_on HE Hc. split.
  - intros ->. by eexists.
  - intros p ->. eexists. split; [done|]. simpl. by rewrite wrap_int32_sub.
Qed.

Lemma PSH_moves_bucket_only_for_known_stream_witness :
  exists w', recvLoop_step test_env stray_world 0 = Ret tt w' /\
             bucket (sess w') = bucket (sess stray_world) /\
             heap w' = heap stray_world.
Proof.
  destruct (PSH_moves_bucket_only_for_known_stream test_env stray_world stray_frame 0)
    as [H _].
  - exact test_env_distinct.
  - vm_compute. reflexivity.
  - reflexivity.
  - destruct H as (w' & H1 & H2 & H3 & _); [vm_compute; reflexivity|].
    exists w'. split; [exact H1|]. split; [exact H2|exact H3].
Defined.

(** * Further properties of the code *)

(** ** Runs and results of the examples *)

Lemma run_world_after w acts :
  runs w acts = true -> run test_env w acts = Running (world_after w acts).
Proof. unfold runs, world_after. by destruct (run test_env w acts). Qed.

(** ** The frame on the wire

    What [sendLoop] writes, [readFrame] reads back. *)

Lemma testbit_above z k n : 0 <= z < 2 ^ k -> 0 <= k <= n -> Z.testbit z n = false.
Proof.
  intros Hz Hk. destruct (decide (z = 0)) as [->|Hne]; [apply Z.bits_0|].
  apply Z.bits_above_log2; [lia|].
  assert (Z.log2 z < k) by (apply Z.log2_lt_pow2; lia). lia.
Qed.

Lemma testbit_255 n : 0 <= n -> Z.testbit 255 n = bool_decide (n < 8).
Proof.
  intros Hn. change 255 with (Z.ones 8). rewrite Z.testbit_ones_nonneg by lia.
  case_bool_decide; lia.
Qed.

Lemma testbit_byte_of z n : 0 <= n -> Z.testbit (byte_of z) n = Z.testbit z n && bool_decide (n < 8).
Proof. intros Hn. unfold byte_of. by rewrite Z.land_spec, testbit_255. Qed.

Lemma testbit_byte_of_neg z n : n < 0 -> Z.testbit (byte_of z) n = false.
Proof. intros. by apply Z.testbit_neg_r. Qed.

Lemma le_uint16_put v : 0 <= v < 2 ^ 16 ->
  le_uint16 (byte_of v) (byte_of (Z.shiftr v 8)) = v.
Proof.
  intros Hv. unfold le_uint16. apply Z.bits_inj'. intros n Hn.
  rewrite Z.lor_spec, Z.shiftl_spec by lia.
  rewrite testbit_byte_of by lia.
  destruct (decide (n < 8)).
  - rewrite testbit_byte_of_neg by lia. rewrite bool_decide_eq_true_2 by lia.
    by rewrite andb_true_r, orb_false_r.
  - rewrite testbit_byte_of by lia. rewrite Z.shiftr_spec by lia.
    replace (n - 8 + 8) with n by lia.
    rewrite (bool_decide_eq_false_2 (n < 8)) by lia. rewrite andb_false_r. simpl.
    destruct (decide (n < 16)).
    + rewrite bool_decide_eq_true_2 by lia. by rewrite andb_true_r.
    + rewrite (testbit_above v 16 n) by lia. done.
Qed.

Lemma le_uint32_put v : 0 <= v < 2 ^ 32 ->
  le_uint32 (byte_of v) (byte_of (Z.shiftr v 8)) (byte_of (Z.shiftr v 16))
    (byte_of (Z.shiftr v 24)) = v.
Proof.
  intros Hv. unfold le_uint32. apply Z.bits_inj'. intros n Hn.
  rewrite !Z.lor_spec, !Z.shiftl_spec by lia.
  rewrite (testbit_byte_of v) by lia.
  destruct (decide (n < 8)).
  { rewrite !testbit_byte_of_neg by lia. rewrite bool_decide_eq_true_2 by lia.
    by rewrite andb_true_r, !orb_false_r. }
  rewrite (bool_decide_eq_false_2 (n < 8)) by lia. rewrite andb_false_r. simpl.
  rewrite (testbit_byte_of _ (n - 8)) by lia. rewrite Z.shiftr_spec by lia.
  replace (n - 8 + 8) with n by lia.
  destruct (decide (n < 16)).
  { rewrite !testbit_byte_of_neg by lia. rewrite bool_decide_eq_true_2 by lia.
    by rewrite andb_true_r, !orb_false_r. }
  rewrite (bool_decide_eq_false_2 (n - 8 < 8)) by lia. rewrite andb_false_r. simpl.
  rewrite (testbit_byte_of _ (n - 16)) by lia. rewrite Z.shiftr_spec by lia.
  replace (n - 16 + 16) with n by lia.
  destruct (decide (n < 24)).
  { rewrite !testbit_byte_of_neg by lia. rewrite bool_decide_eq_true_2 by lia.
    by rewrite andb_true_r, !orb_false_r. }
  rewrite (bool_decide_eq_false_2 (n - 16 < 8)) by lia. rewrite andb_false_r. simpl.
  rewrite (testbit_byte_of _ (n - 24)) by lia. rewrite Z.shiftr_spec by lia.
  replace (n - 24 + 24) with n by lia.
  destruct (decide (n < 32)).
  - rewrite bool_decide_eq_true_2 by lia. by rewrite andb_true_r.
  - rewrite (testbit_above v 32 n) by lia. done.
Qed.

Lemma frame_bytes_cons (m : list (list Z)) f rest :
  frame_bytes m f ++ rest =
    [ver f; cmd f;
     byte_of (wrap_uint16 (Z.of_nat (sl_len (data f))));
     byte_of (Z.shiftr (wrap_uint16 (Z.of_nat (sl_len (data f)))) 8);
     byte_of (sid f); byte_of (Z.shiftr (sid f) 8);
     byte_of (Z.shiftr (sid f) 16); byte_of (Z.shiftr (sid f) 24)]
    ++ (mem_load m (data f) ++ rest).
Proof. reflexivity. Qed.

Lemma ReadFull_app c (a b : list Z) :
  conn_closed c = false -> rx c = a ++ b ->
  ReadFull c (length a) =
    (a, None, mkConn b (tx c) (write_answer c) (close_answer c) (conn_closed c)).
Proof.
  intros Ho Hrx. unfold ReadFull. rewrite Ho, Hrx.
  rewrite decide_True by (rewrite length_app; lia).
  by rewrite take_app_length, drop_app_length.
Qed.

Lemma mem_load_write (m : list (list Z)) arr off bs a :
  m !! arr = Some a -> (off + length bs <= length a)%nat ->
  mem_load (mem_write m arr off bs) (Slice arr off (length bs)) = bs.
Proof.
  intros Ha Hle.
  pose proof (mem_load_store m (Slice arr off (length bs)) bs) as H.
  unfold mem_store in H. simpl in H. rewrite take_ge in H by lia.
  apply H; [|done]. exists a. by split.
Qed.

Lemma mem_write_lookup (m : list (list Z)) arr off bs n :
  (length <$> m) !! arr = Some n ->
  exists a, mem_write m arr off bs !! arr = Some a /\ length a = n.
Proof.
  intros H. pose proof (mem_write_lengths m arr off bs) as Hl.
  rewrite <- Hl in H. rewrite list_lookup_fmap in H.
  destruct (mem_write m arr off bs !! arr) as [a|]; [|done].
  exists a. split; [done|]. simpl in H. by injection H.
Qed.

Lemma slice_ok_lengths (m m' : list (list Z)) s :
  length <$> m' = length <$> m -> slice_ok m s -> slice_ok m' s.
Proof.
  intros Hl (a & Ha & Hle). unfold slice_ok.
  assert (H : (length <$> m') !! sl_arr s = Some (length a))
    by (by rewrite Hl, list_lookup_fmap, Ha).
  rewrite list_lookup_fmap in H.
  destruct (m' !! sl_arr s) as [a'|]; [|done].
  exists a'. split; [done|]. simpl in H. injection H as ->. done.
Qed.

Section RoundTrip.
Variable E : Env.

(** Reading a frame that was put on the wire whole: the header decodes to
    the fields it was made from and the payload lies in the receive buffer;
    what is left is the decryption of a PSH payload. *)
Lemma readFrame_arrives w f (m : list (list Z)) rest buffer :
  ver f = version E ->
  0 <= sid f < 2 ^ 32 ->
  0 < Z.of_nat (sl_len (data f)) -> headerSize + Z.of_nat (sl_len (data f)) < 2 ^ 16 ->
  slice_ok m (data f) ->
  conn_closed (conn (sess w)) = false ->
  rx (conn (sess w)) = frame_bytes m f ++ rest ->
  (length <$> mem w) !! buffer = Some (Z.to_nat bufferSize) ->
  let g := mkFrame (ver f) (cmd f) (sid f)
             (Slice buffer (Z.to_nat headerSize) (sl_len (data f))) in
  exists w2,
    slice_ok (mem w2) (data g) /\
    mem_load (mem w2) (data g) = mem_load m (data f) /\
    rx (conn (sess w2)) = rest /\
    cryptStream (sess w2) = cryptStream (sess w) /\
    encrypted (sess w2) = encrypted (sess w) /\
    readFrame E w buffer =
      if encrypted (sess w) && bool_decide (cmd f = cmdPSH E) then
        match decrypt E w2 (data g) (data g) with
        | (Some e, w3) => Ret (g, Some (errWrap e "readFrame")) w3
        | (None, w3) => Ret (g, None) w3
        end
      else Ret (g, None) w2.
Proof.
  intros Hver Hsid Hpos Hlen Hok Hopen Hrx Hbuf g.
  rewrite frame_bytes_cons in Hrx.
  set (L := Z.of_nat (sl_len (data f))) in *.
  assert (HL : 0 <= L < 2 ^ 16) by (unfold headerSize in *; lia).
  assert (HwL : wrap_uint16 L = L)
    by (unfold wrap_uint16, headerSize in *; apply Z.mod_small; lia).
  assert (Hhigh : wrap_uint16 (headerSize + L) = headerSize + L)
    by (unfold wrap_uint16, headerSize in *; apply Z.mod_small; lia).
  rewrite HwL in Hrx.
  unfold readFrame.
  set (hdr := [ver f; _; _; _; _; _; _; _]) in Hrx.
  change (Z.to_nat headerSize) with (length hdr).
  rewrite (ReadFull_app _ hdr _ Hopen Hrx).
  assert (Hv : hdr_Version hdr = ver f) by reflexivity.
  assert (Hc : hdr_Cmd hdr = cmd f) by reflexivity.
  assert (Hs : hdr_StreamID hdr = sid f).
  { unfold hdr_StreamID, hdr. simpl. rewrite le_uint32_put by done.
    unfold wrap_uint32. apply Z.mod_small. lia. }
  assert (Hl : hdr_Length hdr = L).
  { unfold hdr_Length, hdr. simpl. rewrite le_uint16_put by lia. done. }
  rewrite Hv, Hc, Hs, Hl. rewrite decide_False by (intros H; by apply H).
  pose proof (length_mem_load _ _ Hok) as Hpl.
  rewrite decide_True by lia.
  rewrite Hhigh. rewrite decide_False by lia.
  set (c1 := mkConn _ _ _ _ _).
  assert (Hrx1 : rx c1 = mem_load m (data f) ++ rest) by done.
  replace (Z.to_nat (headerSize + L - headerSize))
    with (length (mem_load m (data f))) by lia.
  rewrite (ReadFull_app c1 _ _ Hopen Hrx1). simpl.
  destruct (mem_write_lookup (mem w) buffer 0 hdr _ Hbuf) as (a & Ha & Hla).
  assert (Hfit : (Z.to_nat headerSize + length (mem_load m (data f)) <= length a)%nat)
    by (rewrite Hla, Hpl, bufferSize_eq; unfold headerSize; lia).
  eexists. repeat apply conj.
  6: { subst g. simpl. rewrite Hpl. reflexivity. }
  - subst g. simpl.
    destruct (mem_write_lookup (mem_write (mem w) buffer 0 hdr) buffer 8
                (mem_load m (data f)) (length a)) as (a' & Ha' & Hla').
    { by rewrite list_lookup_fmap, Ha. }
    exists a'. split; [done|]. simpl. rewrite Hla'. unfold headerSize in *. lia.
  - subst g. simpl. rewrite <- Hpl.
    change 8%nat with (Z.to_nat headerSize).
    by apply (mem_load_write _ _ _ _ a Ha).
  - done.
  - done.
  - done.
Qed.

(** X1.  A frame that [sendLoop] has put on the wire whole is read back as it
    was sent, when header and payload together have less than [2^16]
    bytes.  When the open transport holds the bytes of such a frame, of the
    protocol version and with a stream id of 32 bits, and the frame is not a
    PSH frame of an encrypted session, [readFrame] returns without error a
    frame of the same version, command and stream id whose payload, in the
    receive buffer, is the payload sent; the transport is left with the
    bytes that followed, and the cipher is not touched. *)
Theorem readFrame_decodes w f (m : list (list Z)) rest buffer :
  ver f = version E ->
  0 <= sid f < 2 ^ 32 ->
  headerSize + Z.of_nat (sl_len (data f)) < 2 ^ 16 ->
  slice_ok m (data f) ->
  conn_closed (conn (sess w)) = false ->
  rx (conn (sess w)) = frame_bytes m f ++ rest ->
  encrypted (sess w) && bool_decide (cmd f = cmdPSH E) = false ->
  (length <$> mem w) !! buffer = Some (Z.to_nat bufferSize) ->
  exists g w',
    readFrame E w buffer = Ret (g, None) w' /\
    ver g = ver f /\ cmd g = cmd f /\ sid g = sid f /\
    mem_load (mem w') (data g) = mem_load m (data f) /\
    rx (conn (sess w')) = rest /\
    cryptStream (sess w') = cryptStream (sess w).
Proof.
  intros Hver Hsid Hlen Hok Hopen Hrx Hplain Hbuf.
  rewrite frame_bytes_cons in Hrx.
  set (L := Z.of_nat (sl_len (data f))) in *.
  assert (HL : 0 <= L < 2 ^ 16) by (unfold headerSize in *; lia).
  assert (HwL : wrap_uint16 L = L)
    by (unfold wrap_uint16, headerSize in *; apply Z.mod_small; lia).
  assert (Hhigh : wrap_uint16 (headerSize + L) = headerSize + L)
    by (unfold wrap_uint16, headerSize in *; apply Z.mod_small; lia).
  rewrite HwL in Hrx.
  unfold readFrame.
  set (hdr := [ver f; _; _; _; _; _; _; _]) in Hrx.
  change (Z.to_nat headerSize) with (length hdr).
  rewrite (ReadFull_app _ hdr _ Hopen Hrx).
  assert (Hv : hdr_Version hdr = ver f) by reflexivity.
  assert (Hc : hdr_Cmd hdr = cmd f) by reflexivity.
  assert (Hs : hdr_StreamID hdr = sid f).
  { unfold hdr_StreamID, hdr. simpl. rewrite le_uint32_put by done.
    unfold wrap_uint32. apply Z.mod_small. lia. }
  assert (Hl : hdr_Length hdr = L).
  { unfold hdr_Length, hdr. simpl. rewrite le_uint16_put by lia. done. }
  rewrite Hv, Hc, Hs, Hl. rewrite decide_False by (intros H; by apply H).
  pose proof (length_mem_load _ _ Hok) as Hpl.
  destruct (decide (L > 0)) as [Hpos|Hzero].
  - rewrite Hhigh. rewrite decide_False by lia.
    set (c1 := mkConn _ _ _ _ _).
    assert (Hrx1 : rx c1 = mem_load m (data f) ++ rest) by done.
    replace (Z.to_nat (headerSize + L - headerSize))
      with (length (mem_load m (data f))) by lia.
    rewrite (ReadFull_app c1 _ _ Hopen Hrx1). simpl.
    rewrite Hplain.
    eexists _, _. split; [done|]. simpl. repeat split; try done.
    destruct (mem_write_lookup (mem w) buffer 0 hdr _ Hbuf) as (a & Ha & Hla).
    change 8%nat with (Z.to_nat headerSize).
    apply (mem_load_write _ _ _ _ a Ha).
    rewrite Hla, Hpl, bufferSize_eq. unfold headerSize. lia.
  - assert (Hnil : mem_load m (data f) = [])
      by (apply length_zero_iff_nil; lia).
    eexists _, _. split; [done|]. simpl. rewrite Hnil. repeat split; done.
Qed.

Lemma xor_bytes_twice a k : (length a <= length k)%nat -> xor_bytes (xor_bytes a k) k = a.
Proof.
  revert k. induction a as [|x a IH]; intros [|y k]; simpl; try done; try lia.
  intros H. f_equal.
  - by rewrite Z.lxor_assoc, Z.lxor_nilpotent, Z.lxor_0_r.
  - apply IH. lia.
Qed.

Lemma writeFrame_PSH_effect w c f pick r w' :
  encrypted (sess w) = true -> cmd f = cmdPSH E -> cryptStream (sess w) = Some c ->
  slice_ok (mem w) (data f) ->
  writeFrame E w f pick = Ret r w' ->
  mem_load (mem w') (data f)
  = xor_bytes (mem_load (mem w) (data f)) (keystream_from E c (sl_len (data f))) /\
  cryptStream (sess w')
  = Some (mkCipher (ckey c) (civ c) (cpos c + Z.of_nat (sl_len (data f)))).
Proof.
  intros Henc Hcmd Hc Hok Hw. split; [|by eapply writeFrame_PSH_cipher].
  revert Hw. unfold writeFrame.
  rewrite Henc, Hcmd, bool_decide_eq_true_2 by done. simpl.
  rewrite (encrypt_installed E w _ _ c Hc).
  pose proof (length_mem_load _ _ Hok) as Hl. rewrite Hl.
  set (sealed := xor_bytes _ _).
  assert (Hs : mem_load (mem_store (mem w) (data f) sealed) (data f) = sealed).
  { apply mem_load_store; [done|]. unfold sealed.
    rewrite length_xor_bytes by (by rewrite length_keystream_from). done. }
  destruct (select_ready _ _) as [[|k]|]; [by intros [= _ <-]| |done].
  intros (Hm & _)%sendLoop_serve_mem. by rewrite Hm.
Qed.

(** X2.  An encrypted payload arrives as it was written, when header and
    payload together have less than [2^16] bytes.  When an encrypted
    session sends such a PSH frame with [writeFrame], and the frame's bytes
    as [sendLoop] lays them out reach an encrypted session whose cipher has
    the same key at the same keystream offset, [readFrame] there returns a
    PSH frame for the same stream whose payload is the plaintext the sender
    passed in; afterwards the two ciphers stand at the same offset. *)
Theorem encrypted_payload_round_trip ws wr f pick r ws' c c' rest buffer :
  encrypted (sess ws) = true -> cmd f = cmdPSH E -> cryptStream (sess ws) = Some c ->
  slice_ok (mem ws) (data f) ->
  ver f = version E -> 0 <= sid f < 2 ^ 32 ->
  0 < Z.of_nat (sl_len (data f)) -> headerSize + Z.of_nat (sl_len (data f)) < 2 ^ 16 ->
  writeFrame E ws f pick = Ret r ws' ->
  encrypted (sess wr) = true -> cryptStream (sess wr) = Some c' ->
  ckey c' = ckey c -> cpos c' = cpos c ->
  conn_closed (conn (sess wr)) = false ->
  rx (conn (sess wr)) = frame_bytes (mem ws') f ++ rest ->
  (length <$> mem wr) !! buffer = Some (Z.to_nat bufferSize) ->
  exists g wr',
    readFrame E wr buffer = Ret (g, None) wr' /\
    cmd g = cmdPSH E /\ sid g = sid f /\
    mem_load (mem wr') (data g) = mem_load (mem ws) (data f) /\
    rx (conn (sess wr')) = rest /\
    cpos <$> cryptStream (sess wr') = cpos <$> cryptStream (sess ws').
Proof.
  intros Henc Hcmd Hc Hok Hver Hsid Hpay Hlen Hw Henc' Hc' Hkey Hpos Hopen Hrx Hbuf.
  destruct (writeFrame_PSH_effect ws c f pick r ws' Henc Hcmd Hc Hok Hw) as [Hsealed Hadv].
  assert (Hok' : slice_ok (mem ws') (data f)).
  { apply writeFrame_core in Hw. unfold core in Hw.
    apply (slice_ok_lengths (mem ws)); [congruence|done]. }
  destruct (readFrame_arrives wr f (mem ws') rest buffer Hver Hsid Hpay Hlen Hok' Hopen Hrx Hbuf)
    as (w2 & Hok2 & Hload & Hrest & Hcs & He2 & Hread).
  simpl in Hok2, Hload.
  rewrite Henc', Hcmd, bool_decide_eq_true_2 in Hread by done. simpl in Hread.
  unfold decrypt in Hread.
  rewrite (encrypt_installed E w2 _ _ c') in Hread by congruence.
  eexists _, _. split; [exact Hread|]. simpl.
  split; [done|]. split; [done|]. split; [|split; [done|]].
  - rewrite mem_load_store.
    + rewrite Hload, Hsealed. rewrite length_xor_bytes by
        (rewrite length_keystream_from; by apply length_mem_load).
      rewrite (length_mem_load _ _ Hok).
      unfold keystream_from. rewrite Hkey, Hpos.
      apply xor_bytes_twice.
      rewrite length_map, length_seq. by rewrite (length_mem_load _ _ Hok).
    + done.
    + rewrite length_xor_bytes by (by rewrite length_keystream_from).
      by apply length_mem_load.
  - rewrite Hadv. simpl. unfold len. rewrite (length_mem_load _ _ Hok2). simpl.
    by rewrite Hpos.
Qed.
End RoundTrip.

Lemma readFrame_decodes_witness :
  exists g w',
    readFrame test_env whole_frame_world (rbuf whole_frame_world) = Ret (g, None) w' /\
    cmd g = 2 /\ sid g = 7 /\
    mem_load (mem w') (data g) = [1; 2; 3] /\ rx (conn (sess w')) = [42].
Proof.
  destruct (readFrame_decodes test_env whole_frame_world whole_frame [[1; 2; 3]] [42]
              (rbuf whole_frame_world))
    as (g & w' & H1 & _ & H3 & H4 & H5 & H6 & _).
  - reflexivity.
  - simpl. lia.
  - unfold headerSize. simpl. lia.
  - exists [1; 2; 3]. split; [reflexivity|simpl; lia].
  - reflexivity.
  - reflexivity.
  - reflexivity.
  - apply (inv_rbuf _ _ _ (Inv_init test_config _ false false)).
  - exists g, w'. split; [exact H1|]. split; [exact H3|]. split; [exact H4|].
    split; [exact H5|exact H6].
Defined.

Lemma encrypted_payload_round_trip_witness :
  exists g wr',
    readFrame test_env keyed_server (rbuf keyed_server) = Ret (g, None) wr' /\
    sid g = 3 /\
    mem_load (mem wr') (data g) = mem_load (mem cipher_world) (data out_frame) /\
    rx (conn (sess wr')) = [42].
Proof.
  destruct (encrypted_payload_round_trip test_env cipher_world keyed_server out_frame 0
              (4, None) (world_of (writeFrame test_env cipher_world out_frame 0) cipher_world)
              (mkCipher test_key zero_iv 0) (mkCipher test_key zero_iv 0) [42]
              (rbuf keyed_server))
    as (g & wr' & H1 & _ & H3 & H4 & H5 & _).
  - vm_compute. reflexivity.
  - reflexivity.
  - vm_compute. reflexivity.
  - exists [1; 2; 3; 4]. split; [vm_compute; reflexivity|simpl; lia].
  - reflexivity.
  - simpl. lia.
  - simpl. lia.
  - unfold headerSize. simpl. lia.
  - apply ret_eta. vm_compute. reflexivity.
  - vm_compute. reflexivity.
  - vm_compute. reflexivity.
  - reflexivity.
  - reflexivity.
  - vm_compute. reflexivity.
  - vm_compute. reflexivity.
  - refine (inv_rbuf _ _ _ (Inv_reachable test_env test_config false _ true _ _)).
    apply world_after_reachable. vm_compute. reflexivity.
  - exists g, wr'. split; [exact H1|]. split; [exact H3|]. split; [exact H4|exact H5].
Defined.

(** ** The guards of [OpenStream] and [AcceptStream] *)

Lemma requireEncryption_true s expired pick :
  requireEncryption s expired pick = Some true ->
  encrypted s = false \/ chEncryptionReady s = true.
Proof.
  unfold requireEncryption. destruct (encrypted s); [|by left].
  destruct (select_ready _ _) as [[|k]|] eqn:Hs; try done.
  apply select_ready_sound in Hs. simpl in Hs. right. congruence.
Qed.

Section Guards.
Variable E : Env.

(** X3.  [OpenStream] returns a stream only on a session that is open and,
    when it is encrypted, has finished its handshake; the session is still
    open afterwards. *)
Theorem OpenStream_only_when_ready w expired p1 p2 p w' :
  OpenStream E w expired p1 p2 = Ret (Some p, None) w' ->
  die (sess w) = false /\
  (encrypted (sess w) = false \/ chEncryptionReady (sess w) = true) /\
  die (sess w') = false.
Proof.
  unfold OpenStream, IsClosed. destruct (die (sess w)) eqn:Hd; [done|].
  destruct (requireEncryption _ _ _) as [[|]|] eqn:Hr; try done.
  apply requireEncryption_true in Hr.
  destruct (writeFrame _ _ _ _) as [[n [e|]] w3| |q] eqn:Hw; try done.
  intros [= _ <-]. apply writeFrame_core in Hw. unfold core in Hw. simpl in *.
  split; [done|]. split; [done|]. congruence.
Qed.

(** X4.  When [OpenStream] fails because [writeFrame] failed, the stream id
    is spent all the same: [nextStreamID] has advanced by 2 and the stream
    object has been made, while the stream table is as before. *)
Theorem OpenStream_failed_write_spends_id w expired p1 p2 e w' :
  OpenStream E w expired p1 p2 = Ret (None, Some (errWrap e "writeFrame")) w' ->
  nextStreamID (sess w') = wrap_uint32 (nextStreamID (sess w) + 2) /\
  streams (sess w') = streams (sess w) /\
  heap w' = heap w ++ [newStream (nextStreamID (sess w')) (MaxFrameSize (config (sess w)))].
Proof.
  unfold OpenStream. destruct (IsClosed (sess w)); [done|].
  destruct (requireEncryption _ _ _) as [[|]|] eqn:Hr; try done.
  destruct (writeFrame _ _ _ _) as [[n [e'|]] w3| |q] eqn:Hw; try done.
  intros [= _ <-]. apply writeFrame_core in Hw. unfold core in Hw. simpl in *.
  injection Hw as Hh _ _ _ _ _ Hs _ Hn _ _ _ _ _ _ _ _.
  rewrite Hn, Hs, Hh. done.
Qed.

(** X5.  On an open session that is past the encryption check,
    [AcceptStream] whose deadline has not fired returns the oldest stream of
    the accept queue and removes it from the queue; on an empty queue it
    returns the timeout error once the deadline has fired, and waits until
    then. *)
Theorem AcceptStream_takes_the_head w expired p1 p2 :
  requireEncryption (sess w) expired p1 = Some true ->
  die (sess w) = false ->
  (forall p q, chAccepts (sess w) = p :: q ->
     AcceptStream w expired false p1 p2
     = Ret (Some p, None) (upd_sess (set_chAccepts q) w)) /\
  (chAccepts (sess w) = [] ->
     AcceptStream w expired true p1 p2 = Ret (None, Some errTimeout) w /\
     AcceptStream w expired false p1 p2 = Blocked).
Proof.
  intros Hr Hd. unfold AcceptStream. rewrite Hr, Hd. split.
  - intros p q ->. rewrite bool_decide_eq_true_2 by done.
    by rewrite (select_ready_only _ _ 0%nat).
  - intros ->. rewrite bool_decide_eq_false_2 by (intros H; by apply H).
    split; [by rewrite (select_ready_only _ _ 1%nat)|done].
Qed.
(** X6.  Before the handshake of an encrypted session has finished,
    [OpenStream] on an open session and [AcceptStream] return
    EncryptionNotReady once the handshake ticker has fired, and wait until
    then.  [AcceptStream] does so whether or not its own deadline has fired,
    and on a closed session as well, since it does not look at [die] before
    the encryption check. *)
Theorem streams_wait_for_the_handshake w p1 p2 :
  encrypted (sess w) = true -> chEncryptionReady (sess w) = false ->
  (die (sess w) = false ->
   OpenStream E w true p1 p2 = Ret (None, Some errEncryptionNotReady) w /\
   OpenStream E w false p1 p2 = Blocked) /\
  (forall fired,
     AcceptStream w true fired p1 p2 = Ret (None, Some errEncryptionNotReady) w /\
     AcceptStream w false fired p1 p2 = Blocked).
Proof.
  intros Henc Hch.
  assert (H1 : requireEncryption (sess w) true p1 = Some false).
  { unfold requireEncryption. rewrite Henc, Hch. by rewrite (select_ready_only _ _ 1%nat). }
  assert (H0 : requireEncryption (sess w) false p1 = None).
  { unfold requireEncryption. by rewrite Henc, Hch. }
  split.
  - intros Hd. unfold OpenStream, IsClosed. by rewrite Hd, H1, H0.
  - intros fired. unfold AcceptStream. by rewrite H1, H0.
Qed.
End Guards.

Lemma OpenStream_only_when_ready_witness :
  die (sess plain_client) = false /\
  (encrypted (sess plain_client) = false \/ chEncryptionReady (sess plain_client) = true) /\
  die (sess (world_of (OpenStream test_env plain_client false 0 0) plain_client)) = false.
Proof.
  apply (OpenStream_only_when_ready test_env plain_client false 0 0 0).
  apply ret_eta. vm_compute. reflexivity.
Defined.

Lemma OpenStream_failed_write_spends_id_witness :
  nextStreamID (sess (world_of (OpenStream test_env short_client false 0 0) short_client)) = 3 /\
  streams (sess (world_of (OpenStream test_env short_client false 0 0) short_client)) = ∅.
Proof.
  destruct (OpenStream_failed_write_spends_id test_env short_client false 0 0
              (errTransport 2)
              (world_of (OpenStream test_env short_client false 0 0) short_client))
    as (H1 & H2 & _).
  - apply ret_eta. vm_compute. reflexivity.
  - split; [exact H1|exact H2].
Defined.

Lemma AcceptStream_takes_the_head_witness :
  AcceptStream flood_world false false 0 0
  = Ret (Some 0%nat, None) (upd_sess (set_chAccepts []) flood_world).
Proof.
  destruct (AcceptStream_takes_the_head flood_world false 0 0) as [H _].
  - vm_compute. reflexivity.
  - vm_compute. reflexivity.
  - apply H. vm_compute. reflexivity.
Defined.

Lemma streams_wait_for_the_handshake_witness :
  OpenStream test_env encrypted_client true 0 0
  = Ret (None, Some errEncryptionNotReady) encrypted_client /\
  AcceptStream encrypted_client true false 0 0
  = Ret (None, Some errEncryptionNotReady) encrypted_client.
Proof.
  destruct (streams_wait_for_the_handshake test_env encrypted_client 0 0) as [H1 H2].
  - reflexivity.
  - reflexivity.
  - split; [apply H1; reflexivity|apply (H2 false)].
Defined.

(** ** Frames that go out in the clear *)

Lemma sendLoop_serve_sends w f r w' :
  sendLoop_serve w f = Ret r w' ->
  exists n c',
    w' = upd_sess (set_conn c') w /\
    rx c' = rx (conn (sess w)) /\ conn_closed c' = conn_closed (conn (sess w)) /\
    tx c' = tx (conn (sess w)) ++ take n (frame_bytes (mem w) f).
Proof.
  unfold sendLoop_serve, conn_Write. case_decide; [|done].
  destruct (write_answer _ _) as [n err] eqn:Hans. intros [= _ <-].
  by eexists (Z.to_nat n), _.
Qed.

Section Clear.
Variable E : Env.

Lemma writeFrame_clear w f pick :
  encrypted (sess w) && bool_decide (cmd f = cmdPSH E) = false ->
  writeFrame E w f pick =
    match select_ready [die (sess w); true] pick with
    | Some O => Ret (0, Some errBrokenPipe) w
    | Some _ => sendLoop_serve w f
    | None => Blocked
    end.
Proof. intros H. unfold writeFrame. by rewrite H. Qed.

(** X7.  Only the PSH frames of an encrypted session are encrypted: for any
    other frame [writeFrame] leaves the byte arrays and the cipher as they
    are, and what reaches the transport is a prefix of the frame's bytes as
    [sendLoop] lays them out. *)
Theorem writeFrame_leaves_control_frames_clear w f pick r w' :
  encrypted (sess w) && bool_decide (cmd f = cmdPSH E) = false ->
  writeFrame E w f pick = Ret r w' ->
  mem w' = mem w /\
  cryptStream (sess w') = cryptStream (sess w) /\
  exists n, tx (conn (sess w')) = tx (conn (sess w)) ++ take n (frame_bytes (mem w) f).
Proof.
  intros H. rewrite writeFrame_clear by done.
  destruct (select_ready _ _) as [[|k]|]; [|intros Hs|done].
  - intros [= _ <-]. split; [done|]. split; [done|]. exists 0%nat.
    by rewrite take_0, app_nil_r.
  - destruct (sendLoop_serve_sends _ _ _ _ Hs) as (n & c' & -> & _ & _ & Htx).
    split; [done|]. split; [done|]. by exists n.
Qed.
End Clear.

Lemma writeFrame_leaves_control_frames_clear_witness :
  mem (world_of (writeFrame test_env plain_client (newFrame test_env 3 0) 0) plain_client)
  = mem plain_client /\
  cryptStream
    (sess (world_of (writeFrame test_env plain_client (newFrame test_env 3 0) 0) plain_client))
  = cryptStream (sess plain_client) /\
  exists n,
    tx (conn (sess (world_of (writeFrame test_env plain_client (newFrame test_env 3 0) 0)
                      plain_client)))
    = tx (conn (sess plain_client))
      ++ take n (frame_bytes (mem plain_client) (newFrame test_env 3 0)).
Proof.
  apply (writeFrame_leaves_control_frames_clear test_env plain_client (newFrame test_env 3 0)
           0 (0, None)).
  - reflexivity.
  - apply ret_eta. vm_compute. reflexivity.
Defined.

(** ** The cases of the pump *)

Section Dispatch.
Variable E : Env.
Hypothesis HE : cmds_distinct E.

(** X8.  The SYN case.  A SYN frame for an id that is in the stream table
    changes nothing.  For a new id the pump makes the stream and enters it
    in the table, and on an open session whose accept queue holds less than
    [defaultAcceptBacklog] streams appends it to the queue.  On a full queue
    of an open session the stream is in the table all the same, and the
    pump stands in the [select] that offers it to the queue, where it takes
    no step; on a full queue of a closed session the pump goes on with the
    stream in the table only.  From the [select] the pump goes on in the
    same way: it appends the stream once the queue of the open session has
    room, and goes on without it once the session is closed. *)
Theorem SYN_opens_a_stream_once w f pick :
  pump w = PcDispatch f -> cmd f = cmdSYN E ->
  (forall p, streams (sess w) !! sid f = Some p ->
     recvLoop_step E w pick = Ret tt (set_pump PcWait w)) /\
  (streams (sess w) !! sid f = None ->
   let p := length (heap w) in
   let w1 := set_heap (heap w ++ [newStream (sid f) (MaxFrameSize (config (sess w)))])
               (upd_sess (fun s => set_streams (<[sid f := p]> (streams s)) s) w) in
   (len (chAccepts (sess w)) < defaultAcceptBacklog -> die (sess w) = false ->
      recvLoop_step E w pick
      = Ret tt (set_pump PcWait
                  (upd_sess (fun s => set_chAccepts (chAccepts s ++ [p]) s) w1))) /\
   (defaultAcceptBacklog <= len (chAccepts (sess w)) -> die (sess w) = false ->
      recvLoop_step E w pick = Ret tt (set_pump (PcOffer f p) w1) /\
      streams (sess (set_pump (PcOffer f p) w1)) !! sid f = Some p /\
      heap (set_pump (PcOffer f p) w1) !! p
      = Some (newStream (sid f) (MaxFrameSize (config (sess w)))) /\
      chAccepts (sess (set_pump (PcOffer f p) w1)) = chAccepts (sess w) /\
      recvLoop_step E (set_pump (PcOffer f p) w1) pick = Blocked) /\
   (defaultAcceptBacklog <= len (chAccepts (sess w)) -> die (sess w) = true ->
      recvLoop_step E w pick = Ret tt (set_pump PcWait w1))) /\
  (forall w2 f2 p2, pump w2 = PcOffer f2 p2 ->
   (len (chAccepts (sess w2)) < defaultAcceptBacklog -> die (sess w2) = false ->
      recvLoop_step E w2 pick
      = Ret tt (set_pump PcWait
                  (upd_sess (fun s => set_chAccepts (chAccepts s ++ [p2]) s) w2))) /\
   (defaultAcceptBacklog <= len (chAccepts (sess w2)) -> die (sess w2) = false ->
      recvLoop_step E w2 pick = Blocked) /\
   (defaultAcceptBacklog <= len (chAccepts (sess w2)) -> die (sess w2) = true ->
      recvLoop_step E w2 pick = Ret tt (set_pump PcWait w2))).
Proof.
  intros Hp Hc.
  assert (Hoffer : forall w2 p2,
    (len (chAccepts (sess w2)) < defaultAcceptBacklog -> die (sess w2) = false ->
       offer w2 p2 pick
       = Ret tt (set_pump PcWait
                   (upd_sess (fun s => set_chAccepts (chAccepts s ++ [p2]) s) w2))) /\
    (defaultAcceptBacklog <= len (chAccepts (sess w2)) -> die (sess w2) = false ->
       offer w2 p2 pick = Blocked) /\
    (defaultAcceptBacklog <= len (chAccepts (sess w2)) -> die (sess w2) = true ->
       offer w2 p2 pick = Ret tt (set_pump PcWait w2))).
  { intros w2 p2. unfold offer, next. split; [|split].
    - intros Hroom ->. rewrite bool_decide_eq_true_2 by done.
      by rewrite (select_ready_only _ _ 0%nat).
    - intros Hfull ->. by rewrite bool_decide_eq_false_2 by lia.
    - intros Hfull ->. rewrite bool_decide_eq_false_2 by lia.
      by rewrite (select_ready_only _ _ 1%nat). }
  split; [|split].
  - unfold recvLoop_step. rewrite Hp. dispatch_on HE Hc. by intros p ->.
  - intros Hnew p w1.
    assert (Hstep : recvLoop_step E w pick
                    = match offer w1 p pick with
                      | Blocked => Ret tt (set_pump (PcOffer f p) w1)
                      | o => o
                      end).
    { unfold recvLoop_step. rewrite Hp. dispatch_on HE Hc. by rewrite Hnew. }
    destruct (Hoffer w1 p) as (H1 & H2 & H3).
    split; [|split].
    + intros Hroom Hd. by rewrite Hstep, H1.
    + intros Hfull Hd. rewrite Hstep, H2 by done.
      split; [done|]. split; [by subst w1; simpl; rewrite lookup_insert_eq|].
      split; [subst w1 p; simpl; by rewrite lookup_app_r, Nat.sub_diag|].
      split; [done|].
      destruct (Hoffer (set_pump (PcOffer f p) w1) p) as (_ & H2' & _).
      unfold recvLoop_step. simpl. by apply H2'.
    + intros Hfull Hd. by rewrite Hstep, H3.
  - intros w2 f2 p2 Hp2. unfold recvLoop_step. rewrite Hp2. apply Hoffer.
Qed.

(** X9.  The default case.  A frame whose command is none of the six the pump
    knows makes the pump close the session and return; the bucket and the
    stream table are as before. *)
Theorem unknown_command_closes_session w f pick :
  pump w = PcDispatch f ->
  cmd f ∉ [cmdNOP E; cmdSYN E; cmdKXR E; cmdKXS E; cmdRST E; cmdPSH E] ->
  exists w',
    recvLoop_step E w pick = Ret tt w' /\
    die (sess w') = true /\ pump w' = PcExit /\
    bucket (sess w') = bucket (sess w) /\ streams (sess w') = streams (sess w).
Proof.
  intros Hp Hc. rewrite !not_elem_of_cons in Hc.
  destruct Hc as (? & ? & ? & ? & ? & ? & _).
  unfold recvLoop_step. rewrite Hp. unfold dispatch.
  rewrite !decide_False by done.
  eexists. split; [done|].
  destruct (Close_view w) as (_ & _ & _ & _ & Hb & _ & _ & Hd & _ & Hs).
  simpl. by rewrite Hd, Hb, Hs.
Qed.

(** X10.  The KXR case on a server that has handled no key exchange yet.  When
    [verifyKeyExchange] accepts the payload, with a key of 32 bytes, and the
    session is open, the pump sets [encryptionReady], installs the key with
    a cipher at the head of its keystream and writes a KXS frame for stream
    0 that echoes the payload: the transport is handed the header and the
    payload of the request, and what it accepts of them is appended to what
    it has sent, the whole frame when it accepts the write in full.
    [chEncryptionReady] is not closed.  When [verifyKeyExchange] rejects the
    payload the pump closes the session and returns, and the cipher is as
    before. *)
Theorem KXR_installs_the_key w f pick :
  pump w = PcDispatch f -> cmd f = cmdKXR E ->
  client (sess w) = false -> encryptionReady (sess w) = 0 ->
  (forall key,
      verifyKeyExchange E (ServerPrivateKey (config (sess w))) (mem_load (mem w) (data f))
      = Some key ->
      length key = 32%nat -> die (sess w) = false ->
      headerSize + Z.of_nat (sl_len (data f)) <= bufferSize ->
      let bytes := [version E; cmdKXS E]
                   ++ put_uint16 (wrap_uint16 (Z.of_nat (sl_len (data f))))
                   ++ put_uint32 0 ++ mem_load (mem w) (data f) in
      exists w',
        recvLoop_step E w pick = Ret tt w' /\
        encryptionReady (sess w') = 1 /\
        cryptStream (sess w') = Some (mkCipher key zero_iv 0) /\
        encryptionKey (sess w') = Some key /\
        chEncryptionReady (sess w') = chEncryptionReady (sess w) /\
        tx (conn (sess w'))
        = tx (conn (sess w))
          ++ take (Z.to_nat (write_answer (conn (sess w)) bytes).1) bytes /\
        (write_answer (conn (sess w)) bytes = (len bytes, None) ->
         tx (conn (sess w')) = tx (conn (sess w)) ++ bytes)) /\
  (verifyKeyExchange E (ServerPrivateKey (config (sess w))) (mem_load (mem w) (data f))
   = None ->
   exists w',
     recvLoop_step E w pick = Ret tt w' /\
     die (sess w') = true /\ pump w' = PcExit /\
     cryptStream (sess w') = cryptStream (sess w)).
Proof.
  intros Hp Hc Hcl Hfl. split.
  - intros key Hv Hk Hd Hfit bytes.
    unfold recvLoop_step. rewrite Hp. dispatch_on HE Hc.
    rewrite Hcl, Hfl. simpl. rewrite Hv.
    unfold setEncryptionStream. rewrite Hk.
    rewrite bool_decide_eq_true_2 by set_solver. simpl.
    rewrite writeFrame_clear
      by (simpl; rewrite (bool_decide_eq_false_2 (cmdKXS E = cmdPSH E)) by congruence;
          apply andb_false_r).
    simpl. rewrite Hd. rewrite select_ready_alive.
    unfold sendLoop_serve, conn_Write. simpl. rewrite decide_True by done.
    destruct (write_answer _ _) as [n err] eqn:Hans.
    eexists. split; [done|]. simpl. repeat split; try done.
    intros [= -> _]. change (frame_bytes _ _) with bytes.
    unfold len. by rewrite Nat2Z.id, firstn_all.
  - unfold recvLoop_step. rewrite Hp. dispatch_on HE Hc.
    rewrite Hcl, Hfl. simpl.
    intros ->. eexists. split; [done|].
    set (w1 := upd_sess _ w).
    destruct (Close_view w1) as (_ & _ & _ & _ & _ & _ & _ & Hd & _ & _).
    split; [done|]. split; [done|].
    unfold Close. by destruct (die (sess w1)).
Qed.

(** X11.  The key is set once: on a session whose [encryptionReady] is set,
    server or client, a KXR frame changes nothing and the pump goes on to
    its next frame. *)
Theorem second_KXR_is_ignored w f pick :
  pump w = PcDispatch f -> cmd f = cmdKXR E ->
  encryptionReady (sess w) <> 0 ->
  recvLoop_step E w pick = Ret tt (set_pump PcWait w).
Proof.
  intros Hp Hc Hne. unfold recvLoop_step. rewrite Hp. dispatch_on HE Hc.
  rewrite (bool_decide_eq_false_2 _ Hne). by rewrite andb_false_r.
Qed.
End Dispatch.

Lemma SYN_opens_a_stream_once_witness :
  (exists w', recvLoop_step test_env syn_world 0 = Ret tt w' /\
              chAccepts (sess w') = [0%nat] /\ streams (sess w') !! 3 = Some 0%nat) /\
  (exists w', recvLoop_step test_env crowd_world 0 = Ret tt w' /\
              streams (sess w') !! 1025 = Some 1024%nat /\
              chAccepts (sess w') = chAccepts (sess crowd_world) /\
              recvLoop_step test_env w' 0 = Blocked).
Proof.
  split.
  - destruct (SYN_opens_a_stream_once test_env test_env_distinct syn_world syn_frame 0)
      as (_ & H & _).
    + vm_compute. reflexivity.
    + reflexivity.
    + destruct H as [H _]; [vm_compute; reflexivity|].
      eexists. split; [apply H; vm_compute; reflexivity|].
      split; vm_compute; reflexivity.
  - destruct (SYN_opens_a_stream_once test_env test_env_distinct crowd_world crowd_frame 0)
      as (_ & H & _).
    + vm_compute. reflexivity.
    + reflexivity.
    + destruct H as (_ & H & _); [vm_compute; reflexivity|].
      destruct H as (H1 & H2 & _ & H4 & H5).
      * vm_compute. discriminate.
      * vm_compute. reflexivity.
      * eexists. split; [exact H1|]. split; [|split; [exact H4|exact H5]].
        replace 1024%nat with (length (heap crowd_world)) by (vm_compute; reflexivity).
        exact H2.
Defined.

Lemma unknown_command_closes_session_witness :
  exists w', recvLoop_step test_env odd_world 0 = Ret tt w' /\
             die (sess w') = true /\ pump w' = PcExit.
Proof.
  destruct (unknown_command_closes_session test_env odd_world odd_frame 0)
    as (w' & H1 & H2 & H3 & _).
  - vm_compute. reflexivity.
  - simpl. intros H.
    repeat (apply elem_of_cons in H as [H|H]; [discriminate H|]).
    by apply elem_of_nil in H.
  - exists w'. split; [exact H1|]. split; [exact H2|exact H3].
Defined.

Lemma KXR_installs_the_key_witness :
  exists w', recvLoop_step test_env request_world 0 = Ret tt w' /\
             encryptionReady (sess w') = 1 /\
             cryptStream (sess w') = Some (mkCipher (replicate 32 3) zero_iv 0) /\
             tx (conn (sess w')) = wire_frame 1 5 0 (replicate 32 3).
Proof.
  destruct (KXR_installs_the_key test_env test_env_distinct request_world request_frame 0)
    as [H _].
  - vm_compute. reflexivity.
  - reflexivity.
  - vm_compute. reflexivity.
  - vm_compute. reflexivity.
  - destruct (H (replicate 32 3)) as (w' & H1 & H2 & H3 & _ & _ & _ & H7).
    + vm_compute. reflexivity.
    + reflexivity.
    + vm_compute. reflexivity.
    + rewrite bufferSize_eq. unfold headerSize. simpl. lia.
    + exists w'. split; [exact H1|]. split; [exact H2|]. split; [exact H3|].
      rewrite H7; vm_compute; reflexivity.
Defined.

Lemma second_KXR_is_ignored_witness :
  recvLoop_step test_env second_request_world 0
  = Ret tt (set_pump PcWait second_request_world).
Proof.
  apply (second_KXR_is_ignored test_env test_env_distinct second_request_world
           second_request_frame 0).
  - vm_compute. reflexivity.
  - reflexivity.
  - vm_compute. discriminate.
Defined.

Section Reset.
Variable E : Env.
Hypothesis HE : cmds_distinct E.

(** X12.  The RST case.  The pump marks the stream the frame names, when the
    id is in the table, and touches no other stream object.  The session is
    as before: an RST frame removes nothing from the table and returns no
    tokens to the bucket. *)
Theorem RST_reaches_only_the_named_stream w f pick :
  cmd f = cmdRST E ->
  exists w',
    dispatch E w f pick = Ret tt w' /\
    sess w' = sess w /\ mem w' = mem w /\ pump w' = PcWait /\
    length (heap w') = length (heap w) /\
    (forall q, streams (sess w) !! sid f <> Some q -> heap w' !! q = heap w !! q) /\
    (forall p, streams (sess w) !! sid f = Some p ->
       heap w' !! p = markRST <$> heap w !! p).
Proof.
  intros Hc. unfold dispatch. dispatch_on HE Hc.
  destruct (streams (sess w) !! sid f) as [p|] eqn:Hs; eexists; (split; [reflexivity|]); simpl.
  - repeat split; try done.
    + by rewrite length_alter.
    + intros q Hq. apply list_lookup_alter_ne. congruence.
    + intros p' [= <-]. apply list_lookup_alter_eq.
  - repeat split; done.
Qed.
End Reset.

Lemma RST_reaches_only_the_named_stream_witness :
  exists w', dispatch test_env flood_world rst_frame 0 = Ret tt w' /\
             sess w' = sess flood_world /\
             rstflag <$> heap w' !! 0%nat = Some true.
Proof.
  destruct (RST_reaches_only_the_named_stream test_env test_env_distinct flood_world
              rst_frame 0)
    as (w' & H1 & H2 & _ & _ & _ & _ & H7).
  - reflexivity.
  - exists w'. split; [exact H1|]. split; [exact H2|].
    rewrite (H7 0%nat); [|vm_compute; reflexivity].
    destruct (heap flood_world !! 0%nat) as [st|] eqn:Hst; [reflexivity|].
    vm_compute in Hst. discriminate.
Defined.

(** ** The key exchange *)

Lemma requireEncryption_ready s pick :
  chEncryptionReady s = true -> requireEncryption s false pick = Some true.
Proof.
  intros H. unfold requireEncryption. rewrite H. destruct (encrypted s); [|done].
  by rewrite (select_ready_only _ _ 0%nat).
Qed.

Section Handshake.
Variable E : Env.
Hypothesis HE : cmds_distinct E.

(** X13.  [exchangeKeys] on an encrypted session.  When making the key pair
    or sealing the secret fails it closes the session, and the cipher is as
    before.  Otherwise, with a secret of 32 bytes on an open session, it
    installs the secret as the key with a cipher at the head of its
    keystream and writes a KXR frame for stream 0 that carries the sealed
    secret: the transport is handed the header and the sealed secret, and
    what it accepts of them is appended to what it has sent, the whole frame
    when it accepts the write in full.  Neither [encryptionReady] nor
    [chEncryptionReady] changes. *)
Theorem exchangeKeys_installs_then_asks w kx pick :
  encrypted (sess w) = true ->
  (kx = None ->
   exists w', exchangeKeys E w kx pick = Ret tt w' /\ die (sess w') = true /\
              cryptStream (sess w') = cryptStream (sess w)) /\
  (forall secret sealed,
      kx = Some (secret, sealed) -> length secret = 32%nat -> die (sess w) = false ->
      headerSize + len sealed <= bufferSize ->
      let bytes := [version E; cmdKXR E] ++ put_uint16 (wrap_uint16 (len sealed))
                   ++ put_uint32 0 ++ sealed in
      exists w',
        exchangeKeys E w kx pick = Ret tt w' /\
        cryptStream (sess w') = Some (mkCipher secret zero_iv 0) /\
        encryptionKey (sess w') = Some secret /\
        chEncryptionReady (sess w') = chEncryptionReady (sess w) /\
        encryptionReady (sess w') = encryptionReady (sess w) /\
        tx (conn (sess w'))
        = tx (conn (sess w))
          ++ take (Z.to_nat (write_answer (conn (sess w)) bytes).1) bytes /\
        (write_answer (conn (sess w)) bytes = (len bytes, None) ->
         tx (conn (sess w')) = tx (conn (sess w)) ++ bytes)).
Proof.
  intros Henc. split.
  - intros ->. simpl. eexists. split; [done|].
    destruct (Close_view w) as (_ & _ & _ & _ & _ & _ & _ & Hd & _ & _).
    split; [done|]. unfold Close. by destruct (die (sess w)).
  - intros secret sealed -> Hk Hd Hfit bytes. unfold exchangeKeys, setEncryptionStream.
    rewrite Hk. rewrite bool_decide_eq_true_2 by set_solver. simpl.
    destruct (cmds_distinct_neq _ HE) as (_ & _ & _ & _ & (_ & _ & Hne & _)).
    rewrite writeFrame_clear
      by (simpl; rewrite (bool_decide_eq_false_2 (cmdKXR E = cmdPSH E)) by congruence;
          apply andb_false_r).
    simpl. rewrite Hd, select_ready_alive.
    unfold sendLoop_serve, conn_Write. simpl.
    rewrite decide_True by (unfold len in Hfit; done).
    assert (Hbytes : frame_bytes (mem w ++ [sealed])
                       (newKXRFrame E (Slice (length (mem w)) 0 (length sealed))) = bytes).
    { unfold frame_bytes, mem_load. simpl.
      rewrite lookup_app_r, Nat.sub_diag by done. simpl.
      by rewrite take_ge by done. }
    rewrite Hbytes.
    destruct (write_answer _ _) as [n err] eqn:Hans.
    eexists. split; [done|]. simpl. repeat split; try done.
    intros [= -> _]. change (frame_bytes _ _) with bytes.
    unfold len. by rewrite Nat2Z.id, firstn_all.
Qed.

(** X14.  The handshake of a client.  On an encrypted session that has seen
    no key exchange, the encryption check still waits after [exchangeKeys]
    has returned; once the pump has dispatched a KXS frame the check passes,
    [encryptionReady] is set, and the cipher is the one [exchangeKeys]
    installed, still at the head of its keystream. *)
Theorem client_handshake_makes_ready w secret sealed p1 w1 f p2 w2 pick :
  encrypted (sess w) = true ->
  encryptionReady (sess w) = 0 -> chEncryptionReady (sess w) = false ->
  length secret = 32%nat ->
  exchangeKeys E w (Some (secret, sealed)) p1 = Ret tt w1 ->
  cmd f = cmdKXS E ->
  dispatch E w1 f p2 = Ret tt w2 ->
  requireEncryption (sess w1) false pick = None /\
  requireEncryption (sess w2) false pick = Some true /\
  encryptionReady (sess w2) = 1 /\
  cryptStream (sess w2) = Some (mkCipher secret zero_iv 0).
Proof.
  intros Henc Hfl Hch Hk Hx Hc Hdsp.
  destruct (cmds_distinct_neq _ HE) as (_ & _ & (_ & _ & _) & _ & (_ & _ & HneR & HneS & _)).
  assert (H1 : encrypted (sess w1) = true /\ encryptionReady (sess w1) = 0 /\
               chEncryptionReady (sess w1) = false /\
               cryptStream (sess w1) = Some (mkCipher secret zero_iv 0)).
  { revert Hx. unfold exchangeKeys, setEncryptionStream, mem_alloc.
    rewrite Hk. rewrite bool_decide_eq_true_2 by set_solver. simpl.
    rewrite writeFrame_clear
      by (simpl; rewrite (bool_decide_eq_false_2 (cmdKXR E = cmdPSH E)) by congruence;
          apply andb_false_r).
    destruct (select_ready _ _) as [[|k]|]; simpl; [by intros [= <-]| |done].
    destruct (sendLoop_serve _ _) as [r w'| |q] eqn:Hs; try done.
    intros [= <-]. apply sendLoop_serve_sends in Hs as (n & c' & -> & _). done. }
  destruct H1 as (Henc1 & Hfl1 & Hch1 & Hcs1).
  split.
  { unfold requireEncryption. by rewrite Henc1, Hch1. }
  revert Hdsp. dispatch_on HE Hc. rewrite Hfl1. simpl.
  rewrite writeFrame_clear
    by (simpl; rewrite (bool_decide_eq_false_2 (cmdKXS E = cmdPSH E)) by congruence;
        apply andb_false_r).
  simpl.
  assert (Hfin : forall w3, chEncryptionReady (sess w3) = false ->
            encrypted (sess w3) = true -> encryptionReady (sess w3) = 1 ->
            cryptStream (sess w3) = Some (mkCipher secret zero_iv 0) ->
            match close_chEncryptionReady w3 with
            | Ret _ w4 => next w4 | Blocked => Blocked | Crash q => Crash q end = Ret tt w2 ->
            requireEncryption (sess w2) false pick = Some true /\
            encryptionReady (sess w2) = 1 /\
            cryptStream (sess w2) = Some (mkCipher secret zero_iv 0)).
  { intros w3 Hch3 He3 Hf3 Hc3. unfold close_chEncryptionReady, next. rewrite Hch3.
    intros [= <-]. split; [|done]. by apply requireEncryption_ready. }
  destruct (select_ready _ _) as [[|k]|]; simpl; [by apply Hfin| |done].
  destruct (sendLoop_serve _ _) as [r w'| |q] eqn:Hs; try done.
  apply sendLoop_serve_sends in Hs as (n & c' & -> & _).
  by apply Hfin.
Qed.
End Handshake.

Lemma exchangeKeys_installs_then_asks_witness :
  exists w', exchangeKeys test_env encrypted_client (Some (test_key, sealed_secret)) 0
             = Ret tt w' /\
             cryptStream (sess w') = Some (mkCipher test_key zero_iv 0) /\
             tx (conn (sess w')) = wire_frame 1 4 0 sealed_secret.
Proof.
  destruct (exchangeKeys_installs_then_asks test_env test_env_distinct encrypted_client
              (Some (test_key, sealed_secret)) 0) as [_ H].
  - reflexivity.
  - destruct (H test_key sealed_secret) as (w' & H1 & H2 & _ & _ & _ & _ & H7).
    + reflexivity.
    + reflexivity.
    + reflexivity.
    + rewrite bufferSize_eq. unfold headerSize. vm_compute. discriminate.
    + exists w'. split; [exact H1|]. split; [exact H2|].
      rewrite H7; vm_compute; reflexivity.
Defined.

Lemma client_handshake_makes_ready_witness :
  requireEncryption
    (sess (world_of (exchangeKeys test_env encrypted_client (Some (test_key, sealed_secret)) 0)
             encrypted_client)) false 0 = None /\
  requireEncryption
    (sess (world_of
             (dispatch test_env
                (world_of (exchangeKeys test_env encrypted_client
                             (Some (test_key, sealed_secret)) 0) encrypted_client)
                ack_frame 0) encrypted_client)) false 0 = Some true.
Proof.
  destruct (client_handshake_makes_ready test_env test_env_distinct encrypted_client
              test_key sealed_secret 0
              (world_of (exchangeKeys test_env encrypted_client
                           (Some (test_key, sealed_secret)) 0) encrypted_client)
              ack_frame 0
              (world_of
                 (dispatch test_env
                    (world_of (exchangeKeys test_env encrypted_client
                                 (Some (test_key, sealed_secret)) 0) encrypted_client)
                    ack_frame 0) encrypted_client)
              0)
    as (H1 & H2 & _).
  - reflexivity.
  - reflexivity.
  - reflexivity.
  - reflexivity.
  - apply ret_eta. vm_compute. reflexivity.
  - reflexivity.
  - apply ret_eta. vm_compute. reflexivity.
  - split; [exact H1|exact H2].
Defined.

(** ** [keepalive] and the end of the pump *)

Section Watchdog.
Variable E : Env.

(** X15.  Two ticks of the timeout ticker of [keepalive] with no step in
    between close the session, whatever its state. *)
Theorem two_silent_timeouts_close_session w :
  exists w', run E w [AKeepaliveTimeout; AKeepaliveTimeout] = Running w' /\
             die (sess w') = true.
Proof.
  simpl. unfold keepalive_timeout.
  destruct (bool_decide (dataReady (sess w) = 1)) eqn:H1; simpl.
  - eexists. split; [done|]. apply Close_die.
  - rewrite (Close_again (Close w).2) by apply Close_die. simpl.
    assert (Hdr : dataReady (sess (Close w).2) = dataReady (sess w))
      by (unfold Close; by destruct (die (sess w))).
    rewrite Hdr, H1. eexists. split; [done|]. apply Close_die.
Qed.

(** X16.  When the pump reads a frame without error it sets [dataReady]: the
    next tick of the timeout ticker clears the flag and leaves the session
    open or closed as it was. *)
Theorem a_frame_feeds_the_watchdog w f w1 pick :
  pump w = PcRead -> readFrame E w (rbuf w) = Ret (f, None) w1 ->
  exists w' w'',
    recvLoop_step E w pick = Ret tt w' /\
    keepalive_timeout w' = Ret tt w'' /\
    die (sess w'') = die (sess w) /\ dataReady (sess w'') = 0.
Proof.
  intros Hp Hr. unfold recvLoop_step. rewrite Hp, Hr.
  eexists _, _. split; [done|]. unfold keepalive_timeout. simpl.
  split; [done|]. simpl. split; [|done].
  pose proof (readFrame_core E _ _ _ _ Hr) as Hc.
  unfold core in Hc. simpl in Hc. congruence.
Qed.

(** X17.  On a closed session the pump returns without reading: in two steps
    from its wait for tokens, in one from its check of [IsClosed]; once it
    has returned it takes no step. *)
Theorem closed_session_stops_the_pump w p1 p2 :
  die (sess w) = true ->
  (pump w = PcWait -> run E w [ARecv p1; ARecv p2] = Running (set_pump PcExit w)) /\
  (pump w = PcAlive -> step E w (ARecv p1) = Ret tt (set_pump PcExit w)) /\
  (pump w = PcExit -> step E w (ARecv p1) = Blocked).
Proof.
  intros Hd. split; [|split]; intros Hp; simpl; unfold recvLoop_step, IsClosed, leave;
    rewrite Hp.
  - rewrite Hd, andb_false_r. simpl. by rewrite Hd.
  - by rewrite Hd.
  - done.
Qed.
Hypothesis HE : cmds_distinct E.

(** X18.  A tick of the ping ticker on an open session writes a NOP frame for
    stream 0: a prefix of its eight header bytes reaches the transport,
    nothing is encrypted, and [dataReady] is as before. *)
Theorem keepalive_ping_sends_a_bare_header w pick :
  die (sess w) = false ->
  exists w' n,
    keepalive_ping E w pick = Ret tt w' /\
    tx (conn (sess w'))
    = tx (conn (sess w)) ++ take n [version E; cmdNOP E; 0; 0; 0; 0; 0; 0] /\
    mem w' = mem w /\ cryptStream (sess w') = cryptStream (sess w) /\
    dataReady (sess w') = dataReady (sess w).
Proof.
  intros Hd. unfold keepalive_ping.
  pose proof (cmds_distinct_neq _ HE) as Hne.
  rewrite writeFrame_clear.
  2:{ simpl. rewrite (bool_decide_eq_false_2 (cmdNOP E = cmdPSH E)); [apply andb_false_r|].
      intuition congruence. }
  rewrite Hd, select_ready_alive.
  unfold sendLoop_serve, conn_Write. simpl.
  rewrite decide_True by (rewrite bufferSize_eq; unfold headerSize; lia).
  destruct (write_answer _ _) as [n err].
  eexists _, (Z.to_nat n). split; [done|]. simpl. repeat split; try done.
Qed.
End Watchdog.

Lemma a_frame_feeds_the_watchdog_witness :
  exists w' w'',
    recvLoop_step test_env nop_world 0 = Ret tt w' /\
    keepalive_timeout w' = Ret tt w'' /\
    die (sess w'') = die (sess nop_world) /\ dataReady (sess w'') = 0.
Proof.
  apply (a_frame_feeds_the_watchdog test_env nop_world (mkFrame 1 3 0 nil_slice)
           (world_of (readFrame test_env nop_world (rbuf nop_world)) nop_world) 0).
  - vm_compute. reflexivity.
  - apply ret_eta. vm_compute. reflexivity.
Defined.

Lemma closed_session_stops_the_pump_witness :
  run test_env closed_client [ARecv 0; ARecv 0] = Running (set_pump PcExit closed_client).
Proof.
  destruct (closed_session_stops_the_pump test_env closed_client 0 0) as [H _].
  - vm_compute. reflexivity.
  - apply H. vm_compute. reflexivity.
Defined.

Lemma keepalive_ping_sends_a_bare_header_witness :
  exists w' n,
    keepalive_ping test_env plain_client 0 = Ret tt w' /\
    tx (conn (sess w')) = tx (conn (sess plain_client)) ++ take n [1; 3; 0; 0; 0; 0; 0; 0].
Proof.
  destruct (keepalive_ping_sends_a_bare_header test_env test_env_distinct plain_client 0)
    as (w' & n & H1 & H2 & _).
  - reflexivity.
  - exists w', n. split; [exact H1|exact H2].
Defined.

(** ** The edges of the two frame paths *)

Section Edges.
Variable E : Env.

Lemma ReadFull_short c n :
  conn_closed c = false -> (length (rx c) < n)%nat ->
  exists e c', ReadFull c n = (rx c, Some e, c').
Proof.
  intros Ho Hl. unfold ReadFull. rewrite Ho, decide_False by lia. by eexists _, _.
Qed.

(** X19.  When the open transport holds fewer bytes than a header and the
    payload it announces, and the announced payload ends within [2^16]
    bytes of the start of the frame, [readFrame] fails, and the pump closes
    the session and returns; the bucket and the bytes buffered on the
    streams are as before. *)
Theorem truncated_frame_closes_session w pick :
  pump w = PcRead ->
  conn_closed (conn (sess w)) = false ->
  Z.of_nat (length (rx (conn (sess w))))
  < headerSize + hdr_Length (take (Z.to_nat headerSize) (rx (conn (sess w)))) ->
  headerSize + hdr_Length (take (Z.to_nat headerSize) (rx (conn (sess w)))) < 2 ^ 16 ->
  (exists f e w1, readFrame E w (rbuf w) = Ret (f, Some e) w1) /\
  exists w',
    recvLoop_step E w pick = Ret tt w' /\ die (sess w') = true /\ pump w' = PcExit /\
    bucket (sess w') = bucket (sess w) /\ buffer <$> heap w' = buffer <$> heap w.
Proof.
  intros Hp Hopen Hshort Hfits.
  assert (Hr : exists f e w1, readFrame E w (rbuf w) = Ret (f, Some e) w1).
  { unfold readFrame.
    destruct (decide (Z.to_nat headerSize <= length (rx (conn (sess w))))%nat) as [Hh|Hh].
    - unfold ReadFull at 1. rewrite Hopen, decide_True by done.
      case_decide; [by eexists _, _, _|].
      set (c1 := mkConn _ _ _ _ _).
      set (L := hdr_Length (take (Z.to_nat headerSize) (rx (conn (sess w))))) in *.
      assert (Hl : 0 <= L < 2 ^ 16) by apply wrap_uint16_range.
      rewrite decide_True.
      2:{ unfold headerSize in *. lia. }
      assert (Hhigh : wrap_uint16 (headerSize + L) = headerSize + L)
        by (unfold wrap_uint16, headerSize in *; apply Z.mod_small; lia).
      rewrite Hhigh. rewrite decide_False by lia.
      destruct (ReadFull_short c1 (Z.to_nat (headerSize + L - headerSize)))
        as (e & c' & ->); [done| |by eexists _, _, _].
      subst c1. simpl. rewrite length_drop. unfold headerSize in *. lia.
    - destruct (ReadFull_short (conn (sess w)) (Z.to_nat headerSize)) as (e & c' & ->);
        [done|lia|]. by eexists _, _, _. }
  split; [exact Hr|]. destruct Hr as (f & e & w1 & Hr).
  unfold recvLoop_step. rewrite Hp, Hr. eexists. split; [done|].
  pose proof (readFrame_core E _ _ _ _ Hr) as Hc.
  unfold core in Hc. simpl in Hc.
  destruct (Close_view w1) as (_ & _ & _ & _ & Hb & _ & _ & Hd & _ & _).
  split; [done|]. split; [done|]. simpl. split; [congruence|].
  assert (Hbuf : buffer <$> heap (Close w1).2 = buffer <$> heap w1).
  { unfold Close. destruct (die (sess w1)); [done|]. simpl.
    apply (map_fold_weak_ind
             (fun (r : list Stream) (_ : gmap Z nat) => buffer <$> r = buffer <$> heap w1));
      [done|].
    intros k p m r _ IH. rewrite (list_fmap_alter buffer sessionClose (fun x => x)).
    - rewrite IH. by apply list_alter_id.
    - by apply Forall_forall. }
  rewrite Hbuf. congruence.
Qed.

(** X29.  A header of the protocol version that announces a payload ending
    [2^16] bytes or more from the start of the frame, that is of 65528 to
    65535 bytes, makes [readFrame] panic: the upper bound of the payload's
    slice wraps in 16 bits and lies below its lower bound.  The pump, which
    calls [readFrame] on what the peer has sent, panics with it. *)
Theorem oversized_length_panics w buffer pick :
  conn_closed (conn (sess w)) = false ->
  (Z.to_nat headerSize <= length (rx (conn (sess w))))%nat ->
  hdr_Version (take (Z.to_nat headerSize) (rx (conn (sess w)))) = version E ->
  2 ^ 16 <= headerSize + hdr_Length (take (Z.to_nat headerSize) (rx (conn (sess w)))) ->
  readFrame E w buffer = Crash SliceOutOfRange /\
  (pump w = PcRead ->
   recvLoop_step E w pick = Crash SliceOutOfRange /\
   run E w [ARecv pick] = Panicked SliceOutOfRange).
Proof.
  intros Hopen Hh Hv Hbig.
  assert (Hr : forall b, readFrame E w b = Crash SliceOutOfRange).
  { intros b. unfold readFrame, ReadFull. rewrite Hopen, decide_True by done.
    rewrite decide_False by (intros H; by apply H).
    set (L := hdr_Length (take (Z.to_nat headerSize) (rx (conn (sess w))))) in *.
    assert (Hl : 0 <= L < 2 ^ 16) by apply wrap_uint16_range.
    rewrite decide_True by (unfold headerSize in *; lia).
    rewrite decide_True; [done|]. by apply slice_high_wraps. }
  split; [apply Hr|]. intros Hp.
  assert (Hs : recvLoop_step E w pick = Crash SliceOutOfRange)
    by (unfold recvLoop_step; by rewrite Hp, Hr).
  split; [done|]. simpl. by rewrite Hs.
Qed.

(** X20.  The length field [sendLoop] writes is the payload length modulo
    [2^16].  A request whose payload has at most [2^16] bytes is served; a
    longer one makes [sendLoop] slice the pooled buffer beyond its end. *)
Theorem sendLoop_payload_bounds w f :
  hdr_Length (frame_bytes (mem w) f) = Z.of_nat (sl_len (data f)) mod 2 ^ 16 /\
  (Z.of_nat (sl_len (data f)) <= 2 ^ 16 -> exists r w', sendLoop_serve w f = Ret r w') /\
  (2 ^ 16 < Z.of_nat (sl_len (data f)) -> sendLoop_serve w f = Crash SliceOutOfRange).
Proof.
  split; [|split].
  - unfold hdr_Length, frame_bytes. simpl.
    pose proof (wrap_uint16_range (Z.of_nat (sl_len (data f)))).
    rewrite le_uint16_put by done. unfold wrap_uint16. by rewrite Z.mod_mod.
  - intros H. unfold sendLoop_serve, conn_Write.
    rewrite decide_True by (rewrite bufferSize_eq; unfold headerSize; lia).
    destruct (write_answer _ _). by eexists _, _.
  - intros H. unfold sendLoop_serve.
    by rewrite decide_False by (rewrite bufferSize_eq; unfold headerSize; lia).
Qed.

Lemma length_frame_bytes (m : list (list Z)) f :
  len (frame_bytes m f) <= headerSize + Z.of_nat (sl_len (data f)).
Proof.
  unfold len, frame_bytes, mem_load, headerSize. rewrite !length_app. simpl.
  rewrite length_take. lia.
Qed.

(** X21.  The count [writeFrame] returns is never negative; on a transport
    that reports no more bytes than it was given, and no less than 0, it is
    at most the length of the payload. *)
Theorem writeFrame_count_bounds w f pick n err w' :
  writeFrame E w f pick = Ret (n, err) w' ->
  0 <= n /\
  ((forall buf, 0 <= (write_answer (conn (sess w)) buf).1 <= len buf) ->
   n <= Z.of_nat (sl_len (data f))).
Proof.
  unfold writeFrame.
  assert (Hserve : forall w1, write_answer (conn (sess w1)) = write_answer (conn (sess w)) ->
            sendLoop_serve w1 f = Ret (n, err) w' ->
            0 <= n /\
            ((forall buf, 0 <= (write_answer (conn (sess w)) buf).1 <= len buf) ->
             n <= Z.of_nat (sl_len (data f)))).
  { intros w1 Hwa. unfold sendLoop_serve, conn_Write. case_decide; [|done].
    destruct (write_answer (conn (sess w1)) _) as [k e] eqn:Hk. intros [= <- _ _].
    split; [case_decide; lia|]. intros Hcontract.
    specialize (Hcontract (frame_bytes (mem w1) f)). rewrite <- Hwa, Hk in Hcontract.
    simpl in Hcontract. pose proof (length_frame_bytes (mem w1) f).
    rewrite bufferSize_eq in *. unfold headerSize in *.
    rewrite wrap_int_id in * by lia.
    case_decide; lia. }
  destruct (encrypted (sess w) && bool_decide (cmd f = cmdPSH E)).
  - unfold encrypt. destruct (cryptStream (sess w)) as [c|].
    + simpl. destruct (select_ready _ _) as [[|k]|]; [intros [= <- _ _]; lia| |done].
      by apply Hserve.
    + intros [= <- _ _]. lia.
  - destruct (select_ready _ _) as [[|k]|]; [intros [= <- _ _]; lia| |done].
    by apply Hserve.
Qed.

(** X22.  [writeFrame] encrypts before it looks at [die].  When its select
    takes the [die] case for a PSH frame of an encrypted session, which
    happens on a closed session only, the call returns BrokenPipe and
    nothing reaches the transport, but the caller's payload has been
    encrypted in place and the cipher has advanced by its length. *)
Theorem writeFrame_on_dead_session_spends_keystream w f pick c :
  encrypted (sess w) = true -> cmd f = cmdPSH E -> cryptStream (sess w) = Some c ->
  slice_ok (mem w) (data f) ->
  select_ready [die (sess w); true] pick = Some 0%nat ->
  die (sess w) = true /\
  exists w',
    writeFrame E w f pick = Ret (0, Some errBrokenPipe) w' /\
    tx (conn (sess w')) = tx (conn (sess w)) /\
    cryptStream (sess w')
    = Some (mkCipher (ckey c) (civ c) (cpos c + Z.of_nat (sl_len (data f)))) /\
    mem_load (mem w') (data f)
    = xor_bytes (mem_load (mem w) (data f)) (keystream_from E c (sl_len (data f))).
Proof.
  intros Henc Hcmd Hc Hok Hsel. split.
  { apply select_ready_sound in Hsel. simpl in Hsel. congruence. }
  unfold writeFrame. rewrite Henc, Hcmd, bool_decide_eq_true_2 by done. simpl.
  rewrite (encrypt_installed E w _ _ c Hc). simpl. rewrite Hsel.
  pose proof (length_mem_load _ _ Hok) as Hl.
  eexists. split; [done|]. simpl. split; [done|]. unfold len. rewrite Hl.
  split; [done|].
  apply mem_load_store; [done|].
  rewrite length_xor_bytes by (by rewrite length_keystream_from). done.
Qed.
End Edges.

Lemma truncated_frame_closes_session_witness :
  exists w', recvLoop_step test_env truncated_world 0 = Ret tt w' /\
             die (sess w') = true /\ pump w' = PcExit.
Proof.
  destruct (truncated_frame_closes_session test_env truncated_world 0)
    as (_ & w' & H1 & H2 & H3 & _).
  - vm_compute. reflexivity.
  - vm_compute. reflexivity.
  - vm_compute. reflexivity.
  - vm_compute. reflexivity.
  - exists w'. split; [exact H1|]. split; [exact H2|exact H3].
Defined.

Lemma oversized_length_panics_witness :
  recvLoop_step test_env oversized_world 0 = Crash SliceOutOfRange.
Proof.
  destruct (oversized_length_panics test_env oversized_world (rbuf oversized_world) 0)
    as [_ H].
  - vm_compute. reflexivity.
  - vm_compute. lia.
  - vm_compute. reflexivity.
  - vm_compute. discriminate.
  - apply H. vm_compute. reflexivity.
Defined.

Lemma writeFrame_count_bounds_witness :
  0 <= 4 /\
  ((forall buf, 0 <= (write_answer (conn (sess cipher_world)) buf).1 <= len buf) ->
   4 <= Z.of_nat (sl_len (data out_frame))).
Proof.
  apply (writeFrame_count_bounds test_env cipher_world out_frame 0 4 None
           (world_of (writeFrame test_env cipher_world out_frame 0) cipher_world)).
  apply (ret_eta (writeFrame test_env cipher_world out_frame 0) (4, None)).
  vm_compute. reflexivity.
Defined.

Lemma writeFrame_on_dead_session_spends_keystream_witness :
  exists w',
    writeFrame test_env (Close cipher_world).2 out_frame 0 = Ret (0, Some errBrokenPipe) w' /\
    tx (conn (sess w')) = tx (conn (sess (Close cipher_world).2)) /\
    cryptStream (sess w') = Some (mkCipher test_key zero_iv 4).
Proof.
  destruct (writeFrame_on_dead_session_spends_keystream test_env (Close cipher_world).2
              out_frame 0 (mkCipher test_key zero_iv 0))
    as (_ & w' & H1 & H2 & H3 & _).
  - vm_compute. reflexivity.
  - reflexivity.
  - vm_compute. reflexivity.
  - exists [1; 2; 3; 4]. split; [vm_compute; reflexivity|simpl; lia].
  - vm_compute. reflexivity.
  - exists w'. split; [exact H1|]. split; [exact H2|exact H3].
Defined.

(** ** [Close], the stream table and the bucket *)

(** X23.  [Close] on an open session closes [die] and the transport, and
    calls [sessionClose] on the streams of the table and on no other stream
    object; the table and the bucket are as before. *)
Theorem Close_notifies_every_stream w :
  die (sess w) = false ->
  die (sess (Close w).2) = true /\
  conn_closed (conn (sess (Close w).2)) = true /\
  streams (sess (Close w).2) = streams (sess w) /\
  bucket (sess (Close w).2) = bucket (sess w) /\
  (forall p st, heap w !! p = Some st ->
     ((exists k, streams (sess w) !! k = Some p) ->
      heap (Close w).2 !! p = Some (sessionClose st)) /\
     ((forall k, streams (sess w) !! k <> Some p) ->
      heap (Close w).2 !! p = Some st)).
Proof.
  intros Hd. unfold Close. rewrite Hd. simpl.
  split; [done|]. split; [done|]. split; [done|]. split; [done|].
  intros p st Hst.
  apply (map_fold_weak_ind
           (fun (r : list Stream) (m : gmap Z nat) =>
              (r !! p = Some st \/ r !! p = Some (sessionClose st)) /\
              ((exists k, m !! k = Some p) -> r !! p = Some (sessionClose st)) /\
              ((forall k, m !! k <> Some p) -> r !! p = Some st))).
  - split; [by left|]. split; [|done]. intros [k Hk]. by rewrite lookup_empty in Hk.
  - intros i q m r Hi (Hor & Hin & Hnot).
    destruct (decide (q = p)) as [->|Hne].
    + assert (Hnew : alter sessionClose p r !! p = Some (sessionClose st)).
      { rewrite list_lookup_alter_eq. by destruct Hor as [-> | ->]. }
      split; [by right|]. split; [done|].
      intros Hno. destruct (Hno i). by rewrite lookup_insert_eq.
    + rewrite list_lookup_alter_ne by done. split; [done|]. split.
      * intros [k Hk]. apply Hin. exists k.
        destruct (decide (i = k)) as [->|Hik].
        -- rewrite lookup_insert_eq in Hk. congruence.
        -- by rewrite lookup_insert_ne in Hk.
      * intros Hno. apply Hnot. intros k Hk. apply (Hno k).
        destruct (decide (i = k)) as [->|Hik]; [congruence|].
        by rewrite lookup_insert_ne.
Qed.

Lemma Close_notifies_every_stream_witness :
  die (sess (Close flood_world).2) = true /\
  conn_closed (conn (sess (Close flood_world).2)) = true /\
  dieflag <$> heap (Close flood_world).2 !! 0%nat = Some true.
Proof.
  destruct (Close_notifies_every_stream flood_world) as (H1 & H2 & _ & _ & H5).
  - vm_compute. reflexivity.
  - split; [exact H1|]. split; [exact H2|].
    destruct (heap flood_world !! 0%nat) as [st|] eqn:Hst; [|vm_compute in Hst; discriminate].
    destruct (H5 0%nat st Hst) as [H _].
    rewrite H; [reflexivity|]. exists 7. vm_compute. reflexivity.
Defined.

Section Counting.
Variable E : Env.

(** X24.  [NumStreams] is 0 on a closed session, so after [Close]; a
    successful [OpenStream] raises it by one, unless the id it allocated was
    in the table already; [streamClosed] on an open session lowers it by
    one. *)
Theorem NumStreams_counts_the_table w :
  (die (sess w) = true -> NumStreams (sess w) = 0) /\
  NumStreams (sess (Close w).2) = 0 /\
  (forall expired p1 p2 p w',
      OpenStream E w expired p1 p2 = Ret (Some p, None) w' ->
      NumStreams (sess w')
      = match streams (sess w) !! wrap_uint32 (nextStreamID (sess w) + 2) with
        | Some _ => NumStreams (sess w)
        | None => NumStreams (sess w) + 1
        end) /\
  (forall sid w',
      die (sess w) = false -> streamClosed w sid = Ret tt w' ->
      NumStreams (sess w') = NumStreams (sess w) - 1).
Proof.
  unfold NumStreams, IsClosed. split; [by intros ->|]. split; [by rewrite Close_die|]. split.
  - intros expired p1 p2 p w'. unfold OpenStream, IsClosed.
    destruct (die (sess w)) eqn:Hd; [done|].
    destruct (requireEncryption _ _ _) as [[|]|]; try done.
    destruct (writeFrame _ _ _ _) as [[n [e|]] w3| |q] eqn:Hw; try done.
    intros [= _ <-]. apply writeFrame_core in Hw. unfold core in Hw. simpl in *.
    injection Hw as _ _ _ _ _ _ Hs Hd3 _ _ _ _ _ _ _ _ _.
    rewrite Hd3, Hd, Hs. rewrite map_size_insert.
    destruct (streams (sess w) !! _); simpl; lia.
  - intros sid w' Hd. unfold streamClosed.
    destruct (streams (sess w) !! sid) as [p|] eqn:Hs; [|done]. simpl.
    destruct (heap w !! p) as [st|]; [|done]. simpl.
    intros [= <-]. simpl. rewrite Hd.
    rewrite map_size_delete, Hs.
    assert (size (streams (sess w)) <> 0%nat).
    { intros H0. apply map_size_empty_iff in H0. rewrite H0 in Hs. by rewrite lookup_empty in Hs. }
    lia.
Qed.
End Counting.

(** X25.  [returnTokens] adds to the bucket in 32-bit arithmetic: returning
    [a] and then [b] tokens is returning [a + b] at once, and the order does
    not matter. *)
Theorem returnTokens_adds_up w a b :
  returnTokens (returnTokens w a) b = returnTokens w (a + b) /\
  returnTokens (returnTokens w a) b = returnTokens (returnTokens w b) a /\
  bucket (sess (returnTokens w a)) = wrap_int32 (bucket (sess w) + a).
Proof.
  assert (H : forall x y, returnTokens (returnTokens w x) y = returnTokens w (x + y)).
  { intros x y. unfold returnTokens, upd_sess, set_sess, set_bucket. simpl.
    do 2 f_equal. rewrite !wrap_int32_add.
    rewrite (Z.add_comm (wrap_int32 _) y), wrap_int32_add. f_equal. lia. }
  split; [apply H|]. split.
  - rewrite !H. by rewrite Z.add_comm.
  - unfold returnTokens. simpl. apply wrap_int32_add.
Qed.

Section Bounds.
Variable E : Env.

(** X26.  In every world a session reaches, with [MaxReceiveBuffer] a
    non-negative 32-bit integer, the bucket is at most [MaxReceiveBuffer]
    and at least [2 - 2^16], or [MaxReceiveBuffer] where that is less; and
    returning no more tokens than there are bytes buffered on the streams
    adds them to the bucket without overflow. *)
Theorem bucket_stays_in_range cfg c enc cl w :
  0 <= MaxReceiveBuffer cfg < 2 ^ 31 ->
  reachable E cfg c enc cl w ->
  bucket (sess w) <= MaxReceiveBuffer cfg /\
  Z.min (MaxReceiveBuffer cfg) (2 - 2 ^ 16) <= bucket (sess w) /\
  (forall n, 0 <= n <= buffered (heap w) ->
     bucket (sess (returnTokens w n)) = bucket (sess w) + n).
Proof.
  intros Hcfg Hr. pose proof (Inv_reachable E cfg cl c enc w Hr) as HI.
  pose proof (inv_tokens _ _ _ HI) as Ht. pose proof (inv_floor _ _ _ HI) as Hf.
  pose proof (buffered_nonneg (heap w)).
  rewrite wrap_int32_id in * by lia.
  assert (inflight w < 2 ^ 16).
  { unfold inflight. destruct (lastFrame w) as [f|] eqn:Hl; [|lia].
    destruct (inv_last _ _ _ HI f Hl). lia. }
  split; [lia|]. split; [lia|].
  intros n Hn. unfold returnTokens. simpl.
  rewrite wrap_int32_add. apply wrap_int32_id. lia.
Qed.

(** X27.  Nothing reopens a session.  After any run of steps from a closed
    session the session is closed and has its role and its configuration;
    [OpenStream] returns BrokenPipe and [NumStreams] is 0. *)
Theorem a_closed_session_stays_closed w acts w' :
  die (sess w) = true ->
  run E w acts = Running w' ->
  die (sess w') = true /\
  client (sess w') = client (sess w) /\
  config (sess w') = config (sess w) /\
  (forall expired p1 p2,
      OpenStream E w' expired p1 p2 = Ret (None, Some errBrokenPipe) w') /\
  NumStreams (sess w') = 0.
Proof.
  intros Hd Hrun. pose proof (evolves_run E _ _ _ Hrun) as Hev.
  pose proof (ev_die _ _ Hev Hd) as Hd'.
  split; [done|]. split; [apply (ev_client _ _ Hev)|].
  split; [apply (ev_config _ _ Hev)|]. split.
  - intros. unfold OpenStream, IsClosed. by rewrite Hd'.
  - unfold NumStreams, IsClosed. by rewrite Hd'.
Qed.
End Bounds.

Lemma bucket_stays_in_range_witness :
  bucket (sess flood_world) <= MaxReceiveBuffer tiny_config /\
  Z.min (MaxReceiveBuffer tiny_config) (2 - 2 ^ 16) <= bucket (sess flood_world).
Proof.
  destruct (bucket_stays_in_range test_env tiny_config flood_conn false false flood_world)
    as (H1 & H2 & _).
  - simpl. lia.
  - apply (world_after_reachable tiny_config flood_conn false false (replicate 8 (ARecv 0))).
    vm_compute. reflexivity.
  - split; [exact H1|exact H2].
Defined.

Lemma a_closed_session_stays_closed_witness :
  die (sess (world_after closed_client [ARecv 0; AOpenStream false 0 0; AKeepalivePing 1]))
  = true /\
  NumStreams
    (sess (world_after closed_client [ARecv 0; AOpenStream false 0 0; AKeepalivePing 1])) = 0.
Proof.
  destruct (a_closed_session_stays_closed test_env closed_client
              [ARecv 0; AOpenStream false 0 0; AKeepalivePing 1]
              (world_after closed_client [ARecv 0; AOpenStream false 0 0; AKeepalivePing 1]))
    as (H1 & _ & _ & _ & H5).
  - vm_compute. reflexivity.
  - apply run_world_after. vm_compute. reflexivity.
  - split; [exact H1|exact H5].
Defined.

(** ** The transport closes with the session

    Every step either leaves [die] and the transport's state as they are
    or closes both. *)

Lemma locks_refl w : locks w w.
Proof. by left. Qed.

Lemma locks_trans w1 w2 w3 : locks w1 w2 -> locks w2 w3 -> locks w1 w3.
Proof. unfold locks. intros [H1|H1] [H2|H2]; rewrite ?H2, ?H1; auto. Qed.

Lemma locks_Close w : locks w (Close w).2.
Proof.
  unfold Close, locks. destruct (die (sess w)) eqn:Hd; [by left|].
  right. by unfold lock, conn_Close.
Qed.

Lemma locks_lock w w' : lock w' = lock w -> locks w w'.
Proof. by left. Qed.

Lemma lock_ReadFull c n : conn_closed (ReadFull c n).2 = conn_closed c.
Proof. unfold ReadFull. destruct (conn_closed c) eqn:H; [done|]. by case_decide. Qed.

Section Lock.
Variable E : Env.

Lemma lock_encrypt w a b : lock (encrypt E w a b).2 = lock w.
Proof.
  unfold encrypt. destruct (cryptStream (sess w)); [|done].
  by destruct (XORKeyStream _ _ _).
Qed.

Lemma lock_setEncryptionStream k w : lock (setEncryptionStream k w).2 = lock w.
Proof. unfold setEncryptionStream. by case_bool_decide. Qed.

Lemma lock_sendLoop_serve w f r w' : sendLoop_serve w f = Ret r w' -> lock w' = lock w.
Proof.
  unfold sendLoop_serve, conn_Write. case_decide; [|done].
  destruct (write_answer _ _). by intros [= _ <-].
Qed.

Lemma lock_writeFrame w f pick r w' : writeFrame E w f pick = Ret r w' -> lock w' = lock w.
Proof.
  unfold writeFrame.
  destruct (encrypted (sess w) && bool_decide (cmd f = cmdPSH E)) eqn:Hc.
  - pose proof (lock_encrypt w (data f) (data f)) as Hq.
    destruct (encrypt E w (data f) (data f)) as [[e|] w1]; simpl in Hq.
    + by intros [= _ <-].
    + destruct (select_ready _ _) as [[|k]|]; [by intros [= _ <-]| |done].
      intros H%lock_sendLoop_serve. congruence.
  - destruct (select_ready _ _) as [[|k]|]; [by intros [= _ <-]| |done].
    apply lock_sendLoop_serve.
Qed.

Lemma lock_readFrame w b r w' : readFrame E w b = Ret r w' -> lock w' = lock w.
Proof.
  unfold readFrame.
  pose proof (lock_ReadFull (conn (sess w)) (Z.to_nat headerSize)) as H1.
  destruct (ReadFull (conn (sess w)) _) as [[dec [e|]] c1]; simpl in H1.
  { intros [= _ <-]. unfold lock; simpl. by rewrite H1. }
  case_decide; [intros [= _ <-]; unfold lock; simpl; by rewrite H1|].
  case_decide; [|intros [= _ <-]; unfold lock; simpl; by rewrite H1].
  case_decide; [done|].
  match goal with |- context [ReadFull c1 ?n] => pose proof (lock_ReadFull c1 n) as Hb end.
  destruct (ReadFull c1 _) as [[body [e|]] c2]; simpl in Hb.
  { intros [= _ <-]. unfold lock; simpl. by rewrite Hb, H1. }
  set (w2 := set_mem _ _).
  assert (Hw2 : lock w2 = lock w) by (unfold lock; simpl; by rewrite Hb, H1).
  destruct (_ && _); [|by intros [= _ <-]].
  unfold decrypt.
  match goal with |- context [encrypt E w2 ?a ?a] => pose proof (lock_encrypt w2 a a) as Hq end.
  destruct (encrypt _ _ _ _) as [[e|] w3]; simpl in *; intros [= _ <-]; congruence.
Qed.
End Lock.

Ltac lk :=
  repeat match goal with
  | |- locks ?x ?x => apply locks_refl
  | H : locks ?x ?y |- locks _ ?y => apply (locks_trans _ x); [|exact H]
  | |- locks _ (Close ?x).2 => apply (locks_trans _ x); [|apply locks_Close]
  | |- locks _ (setEncryptionStream ?k ?x).2 =>
      apply (locks_trans _ x); [|apply locks_lock, lock_setEncryptionStream]
  | |- locks _ (set_pump _ ?x) => apply (locks_trans _ x); [|by left]
  | |- locks _ (set_lastFrame _ ?x) => apply (locks_trans _ x); [|by left]
  | |- locks _ (set_driver _ ?x) => apply (locks_trans _ x); [|by left]
  | |- locks _ (set_heap _ ?x) => apply (locks_trans _ x); [|by left]
  | |- locks _ (set_mem _ ?x) => apply (locks_trans _ x); [|by left]
  | |- locks _ (upd_sess _ ?x) => apply (locks_trans _ x); [|by left]
  | |- locks _ (returnTokens ?x _) => apply (locks_trans _ x); [|by left]
  end.

Section Locked.
Variable E : Env.

Ltac lops :=
  repeat case_match; simplify_eq;
  repeat match goal with u : unit |- _ => destruct u end;
  repeat match goal with
  | H : writeFrame _ _ _ _ = Ret _ _ |- _ => apply lock_writeFrame, locks_lock in H
  end.

Lemma locks_dispatch w f pick w' : dispatch E w f pick = Ret tt w' -> locks w w'.
Proof.
  unfold dispatch, offer, next, leave, close_chEncryptionReady. intros H. lops; lk.
Qed.

Lemma locks_recvLoop_step w pick w' : recvLoop_step E w pick = Ret tt w' -> locks w w'.
Proof.
  unfold recvLoop_step, leave. intros H.
  destruct (pump w) as [| | |f|f p|].
  - lops; lk.
  - lops; lk.
  - destruct (readFrame E w (rbuf w)) as [[f [e|]] w1| |q] eqn:Hr; try done;
      apply lock_readFrame, locks_lock in Hr; simplify_eq; lk.
  - by apply (locks_dispatch w f pick).
  - revert H. unfold offer, next. intros H. lops; lk.
  - done.
Qed.

Lemma locks_streamClosed w sid w' : streamClosed w sid = Ret tt w' -> locks w w'.
Proof. unfold streamClosed, recycleTokens. intros H. lops; lk. Qed.

Lemma locks_step w a w' : step E w a = Ret tt w' -> locks w w'.
Proof.
  destruct a; simpl; unfold forget.
  - apply locks_recvLoop_step.
  - unfold OpenStream. intros H. lops; lk.
  - unfold AcceptStream. intros H. lops; lk.
  - intros [= <-]. lk.
  - unfold Stream_Read. intros [= <-]. lops; simpl; lk.
  - unfold Stream_Close. intros H. lops; [lk|].
    match goal with H : streamClosed _ _ = Ret _ _ |- _ => apply locks_streamClosed in H end.
    lk.
  - intros H. lops; lk.
  - intros [= <-]. lk.
  - unfold keepalive_ping. intros H. lops; lk.
  - unfold keepalive_timeout. intros H. lops; lk.
  - unfold exchangeKeys, mem_alloc. intros H. lops; lk.
Qed.

Lemma locks_run w acts w' : run E w acts = Running w' -> locks w w'.
Proof.
  revert w. induction acts as [|a acts IH]; intros w; simpl.
  - intros [= <-]. apply locks_refl.
  - destruct (step E w a) as [[] w1| |q] eqn:Hs; [|by apply IH|done].
    intros H. eapply locks_trans; [by eapply locks_step|by apply IH].
Qed.

(** X28.  In every world a session reaches from an open transport, [Close]
    taken as one step, the transport is closed exactly when the session is:
    nothing but [Close] closes it.  On a closed session [readFrame]
    therefore fails with the error of the closed transport. *)
Theorem transport_closed_with_the_session cfg c enc cl w :
  conn_closed c = false ->
  reachable E cfg c enc cl w ->
  conn_closed (conn (sess w)) = die (sess w) /\
  (die (sess w) = true ->
   exists w1,
     readFrame E w (rbuf w) = Ret (zeroFrame, Some (errWrap ErrClosedConn "readFrame")) w1).
Proof.
  intros Hc [acts Hrun]. apply locks_run in Hrun.
  assert (Ht : conn_closed (conn (sess w)) = die (sess w)).
  { destruct Hrun as [H|H]; unfold lock in H; simpl in H; injection H as -> ->; [|done].
    unfold newSession. simpl. done. }
  split; [done|]. intros Hd. unfold readFrame, ReadFull. rewrite Ht, Hd. by eexists.
Qed.
End Locked.

Lemma transport_closed_with_the_session_witness :
  conn_closed (conn (sess closed_client)) = die (sess closed_client) /\
  (die (sess closed_client) = true ->
   exists w1,
     readFrame test_env closed_client (rbuf closed_client)
     = Ret (zeroFrame, Some (errWrap ErrClosedConn "readFrame")) w1).
Proof.
  apply (transport_closed_with_the_session test_env test_config (test_conn []) false true).
  - reflexivity.
  - apply world_after_reachable. vm_compute. reflexivity.
Defined.
